(** * bun-build-watch: dependency scanner and watcher lifecycle

    A shallow embedding of [src/find-imports.ts] (the level-synchronous
    import scan) and of [src/dep-watcher.ts] / the [BuildWatcher] class
    (the watch / rescan / close lifecycle and the build trigger), with
    the properties of the design document proved or refuted on it. *)

From Stdlib Require Import String Ascii List Bool Arith Lia Relations.
Import ListNotations.
Open Scope string_scope.
Open Scope list_scope.

(** ** JavaScript [Set<string>] and [Map<string, Set<string>>]

    Both containers iterate in insertion order, and the scanner's error
    message and the order of the emitted path array depend on it, so a
    set is a duplicate-free list and a map an association list, both in
    insertion order. *)

Module JsSet.

Definition t := list string.

(** [set.has(x)] *)
Definition has (x : string) (s : t) : bool :=
  existsb (String.eqb x) s.

(** [new Set(iterable)]: first occurrences, in order.  [seen] holds the
    elements already inserted. *)
Fixpoint uniq (seen : t) (l : list string) : t :=
  match l with
  | [] => []
  | x :: xs => if has x seen then uniq seen xs else x :: uniq (x :: seen) xs
  end.

Definition of_list (l : list string) : t := uniq [] l.

(** [a.isDisjointFrom(b)] *)
Definition isDisjointFrom (a b : t) : bool :=
  forallb (fun x => negb (has x b)) a.

(** [a.intersection(b)]: the result follows the order of the smaller
    operand ([a] on a tie), as ECMAScript specifies. *)
Definition intersection (a b : t) : t :=
  if Nat.leb (List.length a) (List.length b)
  then filter (fun x => has x b) a
  else filter (fun x => has x a) b.

(** [a.union(b)]: [a], then the elements of [b] not already present. *)
Definition union (a b : t) : t :=
  a ++ filter (fun x => negb (has x a)) b.

End JsSet.

Module PathsMap.

Definition t := list (string * JsSet.t).

(** [map.get(k)] *)
Fixpoint get (k : string) (m : t) : option JsSet.t :=
  match m with
  | [] => None
  | (k', v) :: m' => if String.eqb k k' then Some v else get k m'
  end.

(** [map.set(k, v)]: an existing key keeps its position. *)
Fixpoint set (k : string) (v : JsSet.t) (m : t) : t :=
  match m with
  | [] => [(k, v)]
  | (k', v') :: m' =>
      if String.eqb k k' then (k, v) :: m' else (k', v') :: set k v m'
  end.

(** [new PathsMap(entries)] *)
Definition of_entries (es : list (string * JsSet.t)) : t :=
  fold_left (fun m e => set (fst e) (snd e) m) es [].

(** [map.values().flatMap((value) => value)] *)
Definition flat_values (m : t) : list string :=
  List.concat (map snd m).

Definition keys (m : t) : list string := map fst m.

End PathsMap.

(** ** The scanner, [src/find-imports.ts] *)

Module Scanner.

(** What lines 70-86 come to for a file: the transpiler is built (with
    the answer of [findTSConfig]) and [scanImports] is called on the
    file's bytes.  It returns the raw specifiers, throws a
    [BuildMessage] of level "error" (caught: the file is skipped), or
    something else is thrown (and propagates). *)
Inductive ScanResult :=
| Imports (specifiers : list string)
| ThrowsBuildError
| ThrowsOther.

(** The file tree and the collaborators, as the scanner observes them. *)
Record World := {
  (** [Bun.file(p).exists()] *)
  file_exists : string -> bool;
  (** [new Bun.Transpiler(..).scanImports(bytes of p)] *)
  scanImports : string -> ScanResult;
  (** [Bun.resolveSync(import.meta.resolve(spec, parent), parent)];
      [None] when it throws. *)
  resolveSync : string -> string -> option string;
  (** [scanConfig.excludeGlobs], each glob as its [match] predicate. *)
  excludeGlobs : list (string -> bool)
}.

Inductive ScanError :=
| CyclicImport (parentPath : string) (repeated : list string)
| ScanFailure (parentPath : string)
| ResolveFailure (specifier parentPath : string).

Definition result (A : Type) := (ScanError + A)%type.

(** [s.endsWith(suf)] *)
Definition ends_with (suf s : string) : bool :=
  Nat.leb (String.length suf) (String.length s) &&
  String.eqb
    (substring (String.length s - String.length suf) (String.length suf) s)
    suf.

(** [parentPath.match(extRegex) !== null] for
    [extRegex = /\.(js|jsx|ts|tsx)$/]. *)
Definition extRegex_matches (p : string) : bool :=
  ends_with ".js" p || ends_with ".jsx" p ||
  ends_with ".ts" p || ends_with ".tsx" p.

Section WithWorld.

Variable W : World.

(** The test of lines 102-105: no exclusion glob matches, and the
    resolved file exists. *)
Definition keeps (resolved : string) : bool :=
  forallb (fun glob => negb (glob resolved)) (excludeGlobs W) &&
  file_exists W resolved.

(** The inner [map] over the imports of one file; the paths that
    came back [undefined] are already dropped. *)
Fixpoint resolveImports (parentPath : string) (imports : list string)
  : result (list string) :=
  match imports with
  | [] => inr []
  | importPath :: rest =>
      match resolveSync W importPath parentPath with
      | None => inl (ResolveFailure importPath parentPath)
      | Some resolved =>
          match resolveImports parentPath rest with
          | inl e => inl e
          | inr rs => inr (if keeps resolved then resolved :: rs else rs)
          end
      end
  end.

(** The outer [map] callback: [undefined] is [None]. *)
Definition scanParent (parentPath : string)
  : result (option (string * JsSet.t)) :=
  if negb (extRegex_matches parentPath) then inr None
  else if negb (file_exists W parentPath) then inr None
  else match scanImports W parentPath with
       | ThrowsBuildError => inr None
       | ThrowsOther => inl (ScanFailure parentPath)
       | Imports imports =>
           match resolveImports parentPath imports with
           | inl e => inl e
           | inr rs => inr (Some (parentPath, JsSet.of_list rs))
           end
       end.

Fixpoint scanParents (filePaths : list string)
  : result (list (string * JsSet.t)) :=
  match filePaths with
  | [] => inr []
  | p :: ps =>
      match scanParent p with
      | inl e => inl e
      | inr r =>
          match scanParents ps with
          | inl e => inl e
          | inr rs => inr (match r with Some kv => kv :: rs | None => rs end)
          end
      end
  end.

Definition findImportsOnce (filePaths : JsSet.t) : result PathsMap.t :=
  match scanParents filePaths with
  | inl e => inl e
  | inr childFiles => inr (PathsMap.of_entries childFiles)
  end.

(** [mergePaths] mutates [allPaths]; here it returns the new map, or
    the [TypeError] it throws. *)
Fixpoint mergePaths (allPaths foundPaths : PathsMap.t)
  : result PathsMap.t :=
  match foundPaths with
  | [] => inr allPaths
  | (parentPath, childPaths) :: rest =>
      match PathsMap.get parentPath allPaths with
      | None =>
          mergePaths (PathsMap.set parentPath childPaths allPaths) rest
      | Some allChildPaths =>
          if negb (JsSet.isDisjointFrom allChildPaths childPaths)
          then inl (CyclicImport parentPath
                      (JsSet.intersection allChildPaths childPaths))
          else mergePaths
                 (PathsMap.set parentPath
                    (JsSet.union allChildPaths childPaths) allPaths)
                 rest
      end
  end.

(** What one call of [findImports] can come to: the [while] loop is
    run for at most [fuel] rounds. *)
Inductive Outcome :=
| OutOfFuel
| Failed (e : ScanError)
| Done (paths : JsSet.t).

Fixpoint scanLoop (fuel : nat) (allPaths foundPaths : PathsMap.t)
  : Outcome :=
  match foundPaths with
  | [] => Done (JsSet.of_list (PathsMap.flat_values allPaths))
  | _ :: _ =>
      match fuel with
      | O => OutOfFuel
      | S fuel' =>
          match mergePaths allPaths foundPaths with
          | inl e => Failed e
          | inr allPaths' =>
              match findImportsOnce
                      (JsSet.of_list (PathsMap.flat_values foundPaths)) with
              | inl e => Failed e
              | inr foundPaths' => scanLoop fuel' allPaths' foundPaths'
              end
          end
      end
  end.

Definition findImports (fuel : nat) (paths : list string) : Outcome :=
  scanLoop fuel [] (PathsMap.set EmptyString (JsSet.of_list paths) []).

End WithWorld.

End Scanner.

(** ** The watcher, [src/dep-watcher.ts], and [BuildWatcher]

    The object's fields, its event-emitter registry and the part of the
    environment it acts on (the notifier's open handles, the builds in
    flight) form one state; every observable action is appended to a
    log.  [rescan] is taken as one step: the design has the caller
    serialize lifecycle operations.  A build is two steps, its
    invocation inside a listener and its completion. *)

Module Watcher.
Import Scanner.

Inductive WatcherState := ready | watching | closed.

(** A handle returned by [fs.watch(path, listener)]. *)
Record FSWatcher := { watcher_id : nat; watcher_path : string }.

Record BuildOutput := {
  success : bool;
  outputs : list string;
  logs : list string
}.

Inductive EventName := on_watch | on_change | on_build | on_close.

(** An emitted event with its arguments; a build event also carries
    the number of the [Bun.build] invocation it reports. *)
Inductive Event :=
| EvWatch (paths : list string)
| EvChange (event : string) (filename : option string)
| EvBuild (invocation : nat) (buildOutput : BuildOutput)
| EvClose.

Definition event_name (ev : Event) : EventName :=
  match ev with
  | EvWatch _ => on_watch
  | EvChange _ _ => on_change
  | EvBuild _ _ => on_build
  | EvClose => on_close
  end.

(** The closures the classes register, and a caller's own listener:
    - [CloseWatchers] is [() => { for (const watcher of this.watchers)
      watcher.close(); }], registered by [rescan];
    - [BuildAndEmit] is the [async] listener that calls [Bun.build],
      awaits it and emits the build event;
    - [Rescan] is [() => this.rescan()];
    - [LogBuild] and [LogWatch] print. *)
Inductive Handler :=
| CloseWatchers
| BuildAndEmit
| Rescan
| LogBuild (clearScreen : bool)
| LogWatch
| UserListener (tag : nat).

Record Listener := {
  l_event : EventName;
  l_once : bool;
  l_handler : Handler
}.

(** What the log records: [findImports] is called, [fs.watch] returned
    a handle, [close] is called on a handle, [this.emit] is called,
    [Bun.build] is called. *)
Inductive Action :=
| AScan (paths : list string)
| AOpen (h : FSWatcher)
| ADispose (h : FSWatcher)
| AEmit (ev : Event)
| ABuild (invocation : nat).

(** Why a call rejects: the watcher is closed, [findImports] rejected,
    or [fs.watch] threw because the file does not exist. *)
Inductive WatchError :=
| ClosedWatcher
| ScanRejected (e : ScanError)
| WatchENOENT (path : string).

(** How an [async] method ends; [Unsettled] when the scan never does. *)
Inductive Completion (A : Type) :=
| Resolved (a : A)
| Rejected (e : WatchError)
| Unsettled.
Arguments Resolved {A} a.
Arguments Rejected {A} e.
Arguments Unsettled {A}.

Record Sys := {
  fullPaths : list string;
  watchers : list FSWatcher;
  state : WatcherState;
  listeners : list Listener;
  active : list FSWatcher;
  next_id : nat;
  pending : list nat;
  next_build : nat;
  log : list Action
}.

Definition set_watchers (ws : list FSWatcher) (s : Sys) : Sys :=
  {| fullPaths := fullPaths s; watchers := ws; state := state s;
     listeners := listeners s; active := active s; next_id := next_id s;
     pending := pending s; next_build := next_build s; log := log s |}.

Definition set_state (st : WatcherState) (s : Sys) : Sys :=
  {| fullPaths := fullPaths s; watchers := watchers s; state := st;
     listeners := listeners s; active := active s; next_id := next_id s;
     pending := pending s; next_build := next_build s; log := log s |}.

Definition set_listeners (ls : list Listener) (s : Sys) : Sys :=
  {| fullPaths := fullPaths s; watchers := watchers s; state := state s;
     listeners := ls; active := active s; next_id := next_id s;
     pending := pending s; next_build := next_build s; log := log s |}.

Definition set_pending (p : list nat) (s : Sys) : Sys :=
  {| fullPaths := fullPaths s; watchers := watchers s; state := state s;
     listeners := listeners s; active := active s; next_id := next_id s;
     pending := p; next_build := next_build s; log := log s |}.

Definition record (a : Action) (s : Sys) : Sys :=
  {| fullPaths := fullPaths s; watchers := watchers s; state := state s;
     listeners := listeners s; active := active s; next_id := next_id s;
     pending := pending s; next_build := next_build s;
     log := log s ++ [a] |}.

Definition FSWatcher_eqb (a b : FSWatcher) : bool :=
  Nat.eqb (watcher_id a) (watcher_id b) &&
  String.eqb (watcher_path a) (watcher_path b).

Definition EventName_eqb (a b : EventName) : bool :=
  match a, b with
  | on_watch, on_watch | on_change, on_change
  | on_build, on_build | on_close, on_close => true
  | _, _ => false
  end.

(** What an action does to the set of open handles. *)
Definition apply_action (a : Action) (open : list FSWatcher)
  : list FSWatcher :=
  match a with
  | AOpen h => open ++ [h]
  | ADispose h => filter (fun h' => negb (FSWatcher_eqb h h')) open
  | _ => open
  end.

Definition apply_actions (d : list Action) (open : list FSWatcher)
  : list FSWatcher :=
  fold_left (fun o a => apply_action a o) d open.

(** [h.close()]: closing a closed handle changes nothing. *)
Definition dispose (h : FSWatcher) (s : Sys) : Sys :=
  let s := record (ADispose h) s in
  {| fullPaths := fullPaths s; watchers := watchers s; state := state s;
     listeners := listeners s;
     active := apply_action (ADispose h) (active s);
     next_id := next_id s;
     pending := pending s; next_build := next_build s; log := log s |}.

(** [for (const watcher of ws) watcher.close();] *)
Definition dispose_all (ws : list FSWatcher) (s : Sys) : Sys :=
  fold_left (fun s h => dispose h s) ws s.

(** [fs.watch(filePath, emitFileChanges)]: throws when the file does
    not exist. *)
Definition fs_watch (W : World) (filePath : string) (s : Sys)
  : (WatchError + FSWatcher) * Sys :=
  if file_exists W filePath then
    let h := {| watcher_id := next_id s; watcher_path := filePath |} in
    let s := record (AOpen h) s in
    (inr h,
     {| fullPaths := fullPaths s; watchers := watchers s; state := state s;
        listeners := listeners s;
        active := apply_action (AOpen h) (active s);
        next_id := S (next_id s);
        pending := pending s; next_build := next_build s; log := log s |})
  else (inl (WatchENOENT filePath), s).

(** [Iterator.from(paths).map((filePath) => watch(..)).toArray()]: a
    throw leaves the handles made so far open and unreferenced. *)
Fixpoint subscribe (W : World) (paths : list string) (s : Sys)
  : (WatchError + list FSWatcher) * Sys :=
  match paths with
  | [] => (inr [], s)
  | p :: ps =>
      match fs_watch W p s with
      | (inl e, s1) => (inl e, s1)
      | (inr h, s1) =>
          match subscribe W ps s1 with
          | (inl e, s2) => (inl e, s2)
          | (inr hs, s2) => (inr (h :: hs), s2)
          end
      end
  end.

(** [Bun.build(buildConfig)] is called; its promise is in flight. *)
Definition start_build (s : Sys) : Sys :=
  let s := record (ABuild (next_build s)) s in
  {| fullPaths := fullPaths s; watchers := watchers s; state := state s;
     listeners := listeners s; active := active s; next_id := next_id s;
     pending := pending s ++ [next_build s];
     next_build := S (next_build s); log := log s |}.

(** [this.once(..)] / [this.on(..)] *)
Definition add_listener (name : EventName) (once : bool) (h : Handler)
  (s : Sys) : Sys :=
  set_listeners
    (listeners s ++ [{| l_event := name; l_once := once; l_handler := h |}])
    s.

(** [this.emit(..)]: the listeners of the event run in registration
    order, the [once] ones having been removed. *)
Definition emit (run : Handler -> Sys -> Sys) (ev : Event) (s : Sys) : Sys :=
  let s := record (AEmit ev) s in
  let name := event_name ev in
  let called :=
    filter (fun l => EventName_eqb (l_event l) name) (listeners s) in
  let kept :=
    filter (fun l => negb (EventName_eqb (l_event l) name && l_once l))
           (listeners s) in
  fold_left (fun s l => run (l_handler l) s) called (set_listeners kept s).

(** What a listener does when it is called.  [Rescan] is registered on
    the build event only, whose listeners [run_build_listener] runs. *)
Definition run_listener (h : Handler) (s : Sys) : Sys :=
  match h with
  | CloseWatchers => dispose_all (watchers s) s
  | BuildAndEmit => start_build s
  | Rescan => s
  | LogBuild _ | LogWatch | UserListener _ => s
  end.

(** [DependencyWatcher.rescan], lines 152-171. *)
Definition rescan (W : World) (fuel : nat) (s : Sys)
  : Completion (list string) * Sys :=
  match state s with
  | closed => (Rejected ClosedWatcher, s)
  | _ =>
      let s := dispose_all (watchers s) s in
      let s := set_state watching s in
      let s := record (AScan (fullPaths s)) s in
      match findImports W fuel (fullPaths s) with
      | OutOfFuel => (Unsettled, s)
      | Failed e => (Rejected (ScanRejected e), s)
      | Done paths =>
          match subscribe W paths s with
          | (inl e, s) => (Rejected e, s)
          | (inr hs, s) =>
              let s := set_watchers hs s in
              let s := add_listener on_close true CloseWatchers s in
              let s := emit run_listener (EvWatch paths) s in
              (Resolved paths, s)
          end
      end
  end.

(** [DependencyWatcher.watch], lines 146-149. *)
Definition watch (W : World) (fuel : nat) (s : Sys)
  : Completion (option (list string)) * Sys :=
  match state s with
  | watching => (Resolved None, s)
  | _ =>
      match rescan W fuel s with
      | (Resolved paths, s) => (Resolved (Some paths), s)
      | (Rejected e, s) => (Rejected e, s)
      | (Unsettled, s) => (Unsettled, s)
      end
  end.

(** [DependencyWatcher.close], lines 174-182. *)
Definition close (s : Sys) : Sys :=
  match state s with
  | closed => s
  | _ =>
      let s := dispose_all (watchers s) s in
      let s := set_state closed s in
      let s := emit run_listener EvClose s in
      set_listeners [] s
  end.

(** A listener of the build event may call [rescan]; its promise is
    dropped. *)
Definition run_build_listener (W : World) (fuel : nat) (h : Handler)
  (s : Sys) : Sys :=
  match h with
  | Rescan => snd (rescan W fuel s)
  | _ => run_listener h s
  end.

(** [#emitFileChanges], the listener given to [fs.watch]: the notifier
    calls it for a handle that is open, and never for a disposed one. *)
Definition emitFileChanges (h : FSWatcher) (event : string)
  (filename : option string) (s : Sys) : Sys :=
  if existsb (FSWatcher_eqb h) (active s)
  then emit run_listener (EvChange event filename) s
  else s.

(** The promise of build [id] resolves: the listener that awaited it
    emits the build event. *)
Definition build_done (W : World) (fuel : nat) (id : nat)
  (out : BuildOutput) (s : Sys) : Sys :=
  if existsb (Nat.eqb id) (pending s)
  then
    let s :=
      set_pending (filter (fun i => negb (Nat.eqb id i)) (pending s)) s in
    emit (run_build_listener W fuel) (EvBuild id out) s
  else s.

(** [new DependencyWatcher(fullPaths, scanOptions)] *)
Definition new_DependencyWatcher (paths : list string) : Sys :=
  {| fullPaths := paths; watchers := []; state := ready; listeners := [];
     active := []; next_id := 0; pending := []; next_build := 0;
     log := [] |}.

Record BuildWatchOptions := {
  clearScreen : bool;
  quiet : bool;
  opt_rescan : bool
}.

(** [new BuildWatcher(buildConfig, options)]; the entry points are
    taken as already resolved against the working directory. *)
Definition new_BuildWatcher (entrypoints : list string)
  (opts : BuildWatchOptions) : Sys :=
  let s := new_DependencyWatcher entrypoints in
  let s := add_listener on_watch true BuildAndEmit s in
  let s := add_listener on_change false BuildAndEmit s in
  let s := if opt_rescan opts
           then add_listener on_build false Rescan s else s in
  if quiet opts then s
  else
    let s := add_listener on_build false (LogBuild (clearScreen opts)) s in
    add_listener on_watch false LogWatch s.

(** What can happen to a watcher, one step at a time. *)
Inductive Stimulus :=
| CallWatch (W : World) (fuel : nat)
| CallRescan (W : World) (fuel : nat)
| CallClose
| CallOn (name : EventName) (once : bool) (tag : nat)
| FsEvent (h : FSWatcher) (event : string) (filename : option string)
| BuildDone (W : World) (fuel : nat) (id : nat) (out : BuildOutput).

Definition step (st : Stimulus) (s : Sys) : Sys :=
  match st with
  | CallWatch W fuel => snd (watch W fuel s)
  | CallRescan W fuel => snd (rescan W fuel s)
  | CallClose => close s
  | CallOn name once tag => add_listener name once (UserListener tag) s
  | FsEvent h event filename => emitFileChanges h event filename s
  | BuildDone W fuel id out => build_done W fuel id out s
  end.

Definition run (sts : list Stimulus) (s : Sys) : Sys :=
  fold_left (fun s st => step st s) sts s.

End Watcher.

(** * The default [findTSConfig]

    [defaultFindTSConfigOnce] and [defaultFindTSConfig] of
    find-imports.ts (lines 17-41; dep-watcher.ts carries a copy).  A
    path stands for its absolute, normalised form: the list of its
    segments, the innermost first, the root being the empty list. *)

Module TSConfig.

Definition Path := list string.

(** [path.resolve(p, "..")]: at the root it returns the root. *)
Definition parent (p : Path) : Path := tl p.

(** [path.resolve(dir, name)] for a file name. *)
Definition resolve (dir : Path) (name : string) : Path := name :: dir.

(** The disk as the search observes it: [Bun.file(p).exists()] and
    [Bun.file(p).text()]. *)
Record Disk := {
  has_file : Path -> bool;
  text : Path -> string
}.

Section WithDisk.

Variable D : Disk.

Definition defaultFindTSConfigOnce (filePath : Path) : option Path :=
  let tsConfig := resolve filePath "tsconfig.json" in
  if has_file D tsConfig then Some tsConfig
  else
    let jsConfig := resolve filePath "jsconfig.json" in
    if has_file D jsConfig then Some jsConfig else None.

(** The [while] loop: [dirPath !== path.resolve(dirPath, "..")] holds
    for every directory but the root. *)
Fixpoint walkUp (dirPath : Path) : option string :=
  match dirPath with
  | [] => None
  | _ :: up =>
      match defaultFindTSConfigOnce dirPath with
      | Some config => Some (text D config)
      | None => walkUp up
      end
  end.

Definition defaultFindTSConfig (filePath : Path) : option string :=
  walkUp (parent filePath).

End WithDisk.

End TSConfig.

(** ** Facts about the containers *)

Module JsSetFacts.
Import JsSet.

Lemma has_true_iff x s : has x s = true <-> In x s.
Proof.
  unfold has. rewrite existsb_exists. split.
  - intros [y [Hy He]]. apply String.eqb_eq in He. now subst.
  - intros H. exists x. split; [assumption | apply String.eqb_refl].
Qed.

Lemma has_false_iff x s : has x s = false <-> ~ In x s.
Proof.
  rewrite <- has_true_iff. destruct (has x s); split; congruence.
Qed.

Lemma uniq_In seen l x : In x (uniq seen l) <-> In x l /\ ~ In x seen.
Proof.
  revert seen. induction l as [|y ys IH]; intros seen; simpl.
  - tauto.
  - destruct (has y seen) eqn:Hy.
    + apply has_true_iff in Hy. rewrite IH. split.
      * intros [H1 H2]. tauto.
      * intros [[->|H1] H2]; [contradiction | tauto].
    + apply has_false_iff in Hy. simpl. rewrite IH. simpl. split.
      * intros [->|[H1 H2]]; [tauto|]. split; [tauto|]. intro; apply H2; tauto.
      * intros [[->|H1] H2]; [tauto|].
        destruct (string_dec y x) as [->|Hne]; [tauto|].
        right. split; [assumption|]. intros [H|H]; [congruence|tauto].
Qed.

Lemma of_list_In l x : In x (of_list l) <-> In x l.
Proof. unfold of_list. rewrite uniq_In. simpl. tauto. Qed.

Lemma uniq_NoDup seen l : NoDup (uniq seen l).
Proof.
  revert seen. induction l as [|y ys IH]; intros seen; simpl.
  - constructor.
  - destruct (has y seen); [apply IH|].
    constructor; [|apply IH].
    rewrite uniq_In. simpl. tauto.
Qed.

Lemma of_list_NoDup l : NoDup (of_list l).
Proof. apply uniq_NoDup. Qed.

Lemma isDisjointFrom_true a b :
  isDisjointFrom a b = true <-> (forall x, In x a -> ~ In x b).
Proof.
  unfold isDisjointFrom. rewrite forallb_forall. split; intros H x Hx.
  - apply has_false_iff. specialize (H x Hx). now apply negb_true_iff in H.
  - apply negb_true_iff, has_false_iff. now apply H.
Qed.

Lemma isDisjointFrom_false a b :
  isDisjointFrom a b = false <-> (exists x, In x a /\ In x b).
Proof.
  split.
  - intros H. unfold isDisjointFrom in H.
    induction a as [|y ys IH]; simpl in H; [discriminate|].
    apply andb_false_iff in H. destruct H as [H|H].
    + apply negb_false_iff, has_true_iff in H. exists y. simpl. tauto.
    + destruct (IH H) as [x [H1 H2]]. exists x. simpl. tauto.
  - intros [x [H1 H2]]. destruct (isDisjointFrom a b) eqn:E; [|reflexivity].
    exfalso. rewrite isDisjointFrom_true in E. exact (E x H1 H2).
Qed.

Lemma intersection_In a b x : In x (intersection a b) <-> In x a /\ In x b.
Proof.
  unfold intersection.
  destruct (Nat.leb (List.length a) (List.length b));
    rewrite filter_In, has_true_iff; tauto.
Qed.

Lemma union_In a b x : In x (union a b) <-> In x a \/ In x b.
Proof.
  unfold union. rewrite in_app_iff, filter_In, negb_true_iff, has_false_iff.
  destruct (in_dec string_dec x a); tauto.
Qed.

End JsSetFacts.

Module PathsMapFacts.
Import PathsMap.

Lemma get_set_same k v m : get k (set k v m) = Some v.
Proof.
  induction m as [|[k' v'] m IH]; simpl.
  - now rewrite String.eqb_refl.
  - destruct (String.eqb k k') eqn:E; simpl.
    + now rewrite String.eqb_refl.
    + now rewrite E.
Qed.

Lemma get_set_other k k' v m : k' <> k -> get k' (set k v m) = get k' m.
Proof.
  intros Hne. induction m as [|[k0 v0] m IH]; simpl.
  - apply String.eqb_neq in Hne. now rewrite Hne.
  - destruct (String.eqb k k0) eqn:E; simpl.
    + apply String.eqb_eq in E. subst k0.
      apply String.eqb_neq in Hne. now rewrite Hne.
    + destruct (String.eqb k' k0); [reflexivity | apply IH].
Qed.

Lemma get_In k v m : get k m = Some v -> In (k, v) m.
Proof.
  induction m as [|[k' v'] m IH]; simpl; [discriminate|].
  destruct (String.eqb k k') eqn:E.
  - apply String.eqb_eq in E. intros [= ->]. left. now subst.
  - intros H. right. now apply IH.
Qed.

Lemma In_get k v m : In (k, v) m -> exists v', get k m = Some v'.
Proof.
  induction m as [|[k' v'] m IH]; simpl; [tauto|].
  intros [H|H].
  - inversion H; subst. rewrite String.eqb_refl. now exists v.
  - destruct (String.eqb k k'); [now exists v' | now apply IH].
Qed.

Lemma get_None_not_key k m : get k m = None -> forall v, ~ In (k, v) m.
Proof.
  intros H v Hin. destruct (In_get k v m Hin) as [v' Hv']. congruence.
Qed.

Lemma flat_values_In m q :
  In q (flat_values m) <-> exists k v, In (k, v) m /\ In q v.
Proof.
  unfold flat_values. rewrite in_concat. split.
  - intros [v [Hv Hq]]. apply in_map_iff in Hv.
    destruct Hv as [[k v'] [E Hin]]. simpl in E. subst v'.
    now exists k, v.
  - intros [k [v [Hin Hq]]]. exists v. split; [|assumption].
    apply in_map_iff. now exists (k, v).
Qed.

(** Binding a key that was absent adds the values of the new set. *)
Lemma flat_values_set_new k v m q :
  get k m = None ->
  (In q (flat_values (set k v m)) <-> In q (flat_values m) \/ In q v).
Proof.
  induction m as [|[k' v'] m IH]; simpl; intros Hget.
  - unfold flat_values. simpl. rewrite app_nil_r. tauto.
  - destruct (String.eqb k k') eqn:E; [discriminate|].
    unfold flat_values in *. simpl. rewrite !in_app_iff.
    rewrite (IH Hget). tauto.
Qed.

(** Rebinding a key to a superset adds the extra values. *)
Lemma flat_values_set_grow k v0 v m q :
  get k m = Some v0 -> (forall x, In x v0 -> In x v) ->
  (In q (flat_values (set k v m)) <-> In q (flat_values m) \/ In q v).
Proof.
  induction m as [|[k' v'] m IH]; simpl; intros Hget Hsub; [discriminate|].
  destruct (String.eqb k k') eqn:E.
  - injection Hget as ->. unfold flat_values. simpl. rewrite !in_app_iff.
    specialize (Hsub q). tauto.
  - unfold flat_values in *. simpl. rewrite !in_app_iff.
    rewrite (IH Hget Hsub). tauto.
Qed.

Lemma set_In k v m k' v' :
  In (k', v') (set k v m) -> (k' = k /\ v' = v) \/ In (k', v') m.
Proof.
  induction m as [|[k0 v0] m IH]; simpl.
  - intros [H|[]]. inversion H. tauto.
  - destruct (String.eqb k k0); simpl.
    + intros [H|H]; [inversion H; tauto | tauto].
    + intros [H|H]; [tauto|]. destruct (IH H); tauto.
Qed.

Definition fold_set (m : t) (es : list (string * JsSet.t)) : t :=
  fold_left (fun m e => set (fst e) (snd e) m) es m.

Lemma fold_set_keeps k v es :
  (forall v', In (k, v') es -> v' = v) ->
  forall m, get k m = Some v -> get k (fold_set m es) = Some v.
Proof.
  unfold fold_set.
  induction es as [|[k' v'] es IH]; simpl; intros Hfun m Hget; [assumption|].
  apply IH; [intros; apply Hfun; tauto|].
  destruct (string_dec k k') as [<-|Hne].
  - rewrite (Hfun v') by tauto. apply get_set_same.
  - now rewrite get_set_other.
Qed.

Lemma entry_eq_dec (a b : string * JsSet.t) : {a = b} + {a <> b}.
Proof. repeat decide equality. Defined.

Lemma fold_set_binds k v es :
  (forall v', In (k, v') es -> v' = v) -> In (k, v) es ->
  forall m, get k (fold_set m es) = Some v.
Proof.
  induction es as [|[k' v'] es IH]; simpl; intros Hfun Hin m; [tauto|].
  destruct (in_dec entry_eq_dec (k, v) es) as [Hes|Hes].
  - apply IH; [intros; apply Hfun; tauto | assumption].
  - destruct Hin as [H|H]; [|contradiction]. inversion H; subst.
    change (get k (fold_set (set k v m) es) = Some v).
    apply fold_set_keeps; [intros; apply Hfun; tauto | apply get_set_same].
Qed.

Lemma fold_set_In es : forall m k v,
  In (k, v) (fold_set m es) -> In (k, v) m \/ In (k, v) es.
Proof.
  unfold fold_set.
  induction es as [|[k' v'] es IH]; simpl; intros m k v H; [tauto|].
  destruct (IH _ _ _ H) as [H1|H1]; [|tauto].
  apply set_In in H1. simpl in H1. destruct H1 as [[-> ->]|H1]; tauto.
Qed.

Lemma of_entries_binds k v es :
  (forall v', In (k, v') es -> v' = v) -> In (k, v) es ->
  In (k, v) (of_entries es).
Proof.
  intros Hfun Hin. apply get_In. unfold of_entries.
  apply (fold_set_binds k v es Hfun Hin []).
Qed.

Lemma of_entries_In k v es : In (k, v) (of_entries es) -> In (k, v) es.
Proof.
  intros H. destruct (fold_set_In es [] _ _ H) as [[]|H']. assumption.
Qed.

End PathsMapFacts.

(** ** The dependency graph the scanner walks

    The graph is read off the scanner's own expansion step: [p] has the
    children [ks] when [scanParent] records the entry [(p, ks)]. *)

Module ScannerFacts.
Import Scanner JsSetFacts PathsMapFacts.

Section Graph.

Variable W : World.
Variable entries : list string.

Definition scans (p : string) (ks : JsSet.t) : Prop :=
  scanParent W p = inr (Some (p, ks)).

Definition edge (p q : string) : Prop :=
  exists ks, scans p ks /\ In q ks.

Definition reachable (q : string) : Prop :=
  exists e, In e entries /\ clos_refl_trans_1n string edge e q.

Definition on_cycle (c : string) : Prop :=
  exists y, edge c y /\ clos_refl_trans_1n string edge y c.

(** No collaborator throws a fatal error on a file the scan gets to:
    the tree denotes a graph. *)
Definition denotes_graph : Prop :=
  forall p e, reachable p -> scanParent W p <> inl e.

Lemma reachable_entry e : In e entries -> reachable e.
Proof. intros H. exists e. split; [assumption | constructor]. Qed.

Lemma rt1n_snoc x y z :
  clos_refl_trans_1n string edge x y -> edge y z ->
  clos_refl_trans_1n string edge x z.
Proof.
  induction 1 as [x | x y0 y Hxy Hrest IH]; intros Hyz.
  - econstructor; [eassumption | constructor].
  - econstructor; [eassumption | now apply IH].
Qed.

Lemma reachable_step p q : reachable p -> edge p q -> reachable q.
Proof.
  intros [e [He Hp]] Hpq. exists e. split; [assumption|].
  eapply rt1n_snoc; eassumption.
Qed.

Lemma scans_fun p ks ks' : scans p ks -> scans p ks' -> ks = ks'.
Proof. unfold scans. intros H1 H2. congruence. Qed.

(** *** One expansion step *)

Lemma scanParent_key p k v : scanParent W p = inr (Some (k, v)) -> k = p.
Proof.
  unfold scanParent.
  destruct (negb (extRegex_matches p)); [discriminate|].
  destruct (negb (file_exists W p)); [discriminate|].
  destruct (scanImports W p); try discriminate.
  destruct (resolveImports W p specifiers); [discriminate|].
  intros [= <- _]. reflexivity.
Qed.

Lemma scanParents_ok l cs :
  scanParents W l = inr cs ->
  (forall k v, In (k, v) cs -> In k l /\ scans k v) /\
  (forall p ks, In p l -> scans p ks -> In (p, ks) cs).
Proof.
  revert cs. induction l as [|p ps IH]; simpl; intros cs.
  - intros [= <-]. split; [intros k v [] | intros p ks []].
  - destruct (scanParent W p) as [e|r] eqn:Hp; [discriminate|].
    destruct (scanParents W ps) as [e|rs]; [discriminate|].
    destruct (IH rs eq_refl) as [IH1 IH2].
    intros [= <-]. split.
    + intros k v Hin. destruct r as [[k0 v0]|].
      * destruct Hin as [Hin|Hin].
        -- inversion Hin; subst.
           pose proof (scanParent_key _ _ _ Hp) as ->.
           split; [now left | exact Hp].
        -- destruct (IH1 _ _ Hin). tauto.
      * destruct (IH1 _ _ Hin). tauto.
    + intros q ks [->|Hin] Hq.
      * unfold scans in Hq. rewrite Hp in Hq. inversion Hq; subst.
        now left.
      * specialize (IH2 _ _ Hin Hq).
        destruct r as [[k0 v0]|]; [now right | assumption].
Qed.

Lemma scanParents_err l e :
  scanParents W l = inl e -> exists p, In p l /\ scanParent W p = inl e.
Proof.
  induction l as [|p ps IH]; simpl; [discriminate|].
  destruct (scanParent W p) as [e'|r] eqn:Hp.
  - intros [= <-]. exists p. tauto.
  - destruct (scanParents W ps) as [e'|rs]; [|discriminate].
    intros [= <-]. destruct (IH eq_refl) as [q [Hq1 Hq2]].
    exists q. tauto.
Qed.

Lemma findImportsOnce_ok l F :
  findImportsOnce W l = inr F ->
  (forall k v, In (k, v) F -> In k l /\ scans k v) /\
  (forall p ks, In p l -> scans p ks -> In (p, ks) F).
Proof.
  unfold findImportsOnce.
  destruct (scanParents W l) as [e|cs] eqn:Hcs; [discriminate|].
  intros [= <-]. destruct (scanParents_ok _ _ Hcs) as [H1 H2]. split.
  - intros k v Hin. apply H1. now apply of_entries_In.
  - intros p ks Hp Hs. apply of_entries_binds; [|now apply H2].
    intros v' Hv'. destruct (H1 _ _ Hv') as [_ Hs'].
    eapply scans_fun; eassumption.
Qed.

Lemma findImportsOnce_err l e :
  findImportsOnce W l = inl e ->
  exists p, In p l /\ scanParent W p = inl e.
Proof.
  unfold findImportsOnce.
  destruct (scanParents W l) as [e'|cs] eqn:Hcs; [|discriminate].
  intros [= <-]. now apply scanParents_err.
Qed.

(** *** The merge step *)

Definition recorded (c : string) (ks : JsSet.t) (allPaths : PathsMap.t) :=
  exists v, PathsMap.get c allPaths = Some v /\ incl ks v.

Lemma recorded_set c ks k v allPaths :
  recorded c ks allPaths ->
  (forall v0, PathsMap.get k allPaths = Some v0 -> incl v0 v) ->
  recorded c ks (PathsMap.set k v allPaths).
Proof.
  intros [v0 [Hget Hsub]] Hgrow.
  destruct (string_dec c k) as [->|Hne].
  - exists v. rewrite get_set_same. split; [reflexivity|].
    intros x Hx. apply (Hgrow _ Hget). now apply Hsub.
  - exists v0. now rewrite get_set_other.
Qed.

Lemma mergePaths_keeps F : forall allPaths allPaths' c ks,
  mergePaths allPaths F = inr allPaths' ->
  recorded c ks allPaths -> recorded c ks allPaths'.
Proof.
  induction F as [|[p cs] F IH]; simpl; intros allPaths allPaths' c ks.
  - intros [= <-]. tauto.
  - destruct (PathsMap.get p allPaths) as [v0|] eqn:Hget.
    + destruct (negb (JsSet.isDisjointFrom v0 cs)); [discriminate|].
      intros Hm Hrec. eapply IH; [exact Hm|].
      apply recorded_set; [assumption|].
      intros v1 Hv1. rewrite Hget in Hv1. injection Hv1 as <-.
      intros x Hx. apply union_In. now left.
    + intros Hm Hrec. eapply IH; [exact Hm|].
      apply recorded_set; [assumption|]. intros v1 Hv1. congruence.
Qed.

Lemma mergePaths_records F : forall allPaths allPaths' c ks,
  mergePaths allPaths F = inr allPaths' ->
  In (c, ks) F -> recorded c ks allPaths'.
Proof.
  induction F as [|[p cs] F IH]; simpl; intros allPaths allPaths' c ks;
    [tauto|].
  intros Hm [Hin|Hin].
  - inversion Hin; subst p cs.
    destruct (PathsMap.get c allPaths) as [v0|] eqn:Hget.
    + destruct (negb (JsSet.isDisjointFrom v0 ks)); [discriminate|].
      eapply mergePaths_keeps; [exact Hm|].
      exists (JsSet.union v0 ks). rewrite get_set_same.
      split; [reflexivity|]. intros x Hx. apply union_In. now right.
    + eapply mergePaths_keeps; [exact Hm|].
      exists ks. rewrite get_set_same. split; [reflexivity|].
      apply incl_refl.
  - destruct (PathsMap.get p allPaths) as [v0|] eqn:Hget.
    + destruct (negb (JsSet.isDisjointFrom v0 cs)); [discriminate|].
      eapply IH; eassumption.
    + eapply IH; eassumption.
Qed.

(** A parent that is recorded with a non-empty children set cannot
    be merged a second time. *)
Lemma mergePaths_refuses F : forall allPaths c ks,
  recorded c ks allPaths -> ks <> [] -> In (c, ks) F ->
  exists e, mergePaths allPaths F = inl e.
Proof.
  induction F as [|[p cs] F IH]; simpl; intros allPaths c ks Hrec Hne;
    [tauto|].
  intros [Hin|Hin].
  - inversion Hin; subst p cs. destruct Hrec as [v [Hget Hsub]].
    rewrite Hget.
    assert (Hd : JsSet.isDisjointFrom v ks = false).
    { apply isDisjointFrom_false. destruct ks as [|x ks']; [congruence|].
      exists x. split; [apply Hsub|]; now left. }
    rewrite Hd. simpl. eauto.
  - destruct (PathsMap.get p allPaths) as [v0|] eqn:Hget.
    + destruct (negb (JsSet.isDisjointFrom v0 cs)); [eauto|].
      eapply IH; [|eassumption|eassumption].
      apply recorded_set; [assumption|].
      intros v1 Hv1. rewrite Hget in Hv1. injection Hv1 as <-.
      intros x Hx. apply union_In. now left.
    + eapply IH; [|eassumption|eassumption].
      apply recorded_set; [assumption|]. intros v1 Hv1. congruence.
Qed.

Lemma mergePaths_err F : forall allPaths e,
  mergePaths allPaths F = inl e ->
  exists p ks v rep,
    In (p, ks) F /\ e = CyclicImport p rep /\ rep <> [] /\
    incl rep ks /\ incl rep v.
Proof.
  induction F as [|[p cs] F IH]; simpl; intros allPaths e; [discriminate|].
  destruct (PathsMap.get p allPaths) as [v0|] eqn:Hget.
  - destruct (JsSet.isDisjointFrom v0 cs) eqn:Hd; simpl.
    + intros Hm. destruct (IH _ _ Hm) as (q & ks & v & rep & H1 & H2).
      exists q, ks, v, rep. tauto.
    + intros [= <-]. exists p, cs, v0, (JsSet.intersection v0 cs).
      split; [now left|]. split; [reflexivity|].
      apply isDisjointFrom_false in Hd. destruct Hd as [x [Hx1 Hx2]].
      split; [|split].
      * intros E. assert (Hx : In x (JsSet.intersection v0 cs))
          by (apply intersection_In; tauto).
        rewrite E in Hx. contradiction.
      * intros y Hy. now apply intersection_In in Hy.
      * intros y Hy. now apply intersection_In in Hy.
  - intros Hm. destruct (IH _ _ Hm) as (q & ks & v & rep & H1 & H2).
    exists q, ks, v, rep. tauto.
Qed.

Lemma mergePaths_flat F : forall allPaths allPaths' q,
  mergePaths allPaths F = inr allPaths' ->
  (In q (PathsMap.flat_values allPaths') <->
   In q (PathsMap.flat_values allPaths) \/ In q (PathsMap.flat_values F)).
Proof.
  induction F as [|[p cs] F IH]; simpl; intros allPaths allPaths' q.
  - intros [= <-]. change (PathsMap.flat_values []) with (@nil string).
    simpl. tauto.
  - assert (Hcons : In q (PathsMap.flat_values ((p, cs) :: F)) <->
                    In q cs \/ In q (PathsMap.flat_values F)).
    { unfold PathsMap.flat_values. simpl. now rewrite in_app_iff. }
    rewrite Hcons.
    destruct (PathsMap.get p allPaths) as [v0|] eqn:Hget.
    + destruct (negb (JsSet.isDisjointFrom v0 cs)); [discriminate|].
      intros Hm. rewrite (IH _ _ q Hm).
      rewrite (flat_values_set_grow p v0 (JsSet.union v0 cs) allPaths q Hget).
      2:{ intros x Hx. apply union_In. now left. }
      rewrite union_In.
      assert (In q v0 -> In q (PathsMap.flat_values allPaths)).
      { intros Hq. apply flat_values_In. exists p, v0.
        split; [now apply get_In | assumption]. }
      tauto.
    + intros Hm. rewrite (IH _ _ q Hm).
      rewrite (flat_values_set_new p cs allPaths q Hget). tauto.
Qed.

(** *** The loop *)

(** Either the loop is at its first round, with only the sentinel
    entry to merge, or every entry of the frontier is the scan of a
    reachable file. *)
Definition Inv (allPaths found : PathsMap.t) : Prop :=
  (allPaths = [] /\
   exists es,
     found = [(EmptyString, es)] /\ forall q, In q es -> reachable q) \/
  (forall k v, In (k, v) found -> scans k v /\ reachable k).

(** The error names a reachable file: a rediscovered parent with the
    children found twice, or the file on which a collaborator threw. *)
Definition error_ok (e : ScanError) : Prop :=
  match e with
  | CyclicImport p rep =>
      rep <> [] /\ reachable p /\ exists ks, scans p ks /\ incl rep ks
  | _ => exists p, reachable p /\ scanParent W p = inl e
  end.

Definition Fails (allPaths found : PathsMap.t) : Prop :=
  exists n e,
    (forall fuel, n <= fuel -> scanLoop W fuel allPaths found = Failed e) /\
    error_ok e.

Lemma Inv_flat_reachable allPaths found q :
  Inv allPaths found -> In q (PathsMap.flat_values found) -> reachable q.
Proof.
  intros [[_ [es [-> Hes]]]|Hscan] Hq.
  - unfold PathsMap.flat_values in Hq. simpl in Hq.
    rewrite app_nil_r in Hq. now apply Hes.
  - apply flat_values_In in Hq. destruct Hq as [k [v [Hin Hq]]].
    destruct (Hscan _ _ Hin) as [Hs Hr].
    eapply reachable_step; [exact Hr|]. now exists v.
Qed.

Lemma collaborator_error_ok p e :
  reachable p -> scanParent W p = inl e -> error_ok e.
Proof.
  intros Hr Hp.
  assert (Hnc : forall q rep, e <> CyclicImport q rep).
  { intros q rep ->. unfold scanParent in Hp.
    destruct (negb (extRegex_matches p)); [discriminate|].
    destruct (negb (file_exists W p)); [discriminate|].
    destruct (scanImports W p) as [imports| |]; try discriminate.
    destruct (resolveImports W p imports) as [e'|] eqn:Hres;
      [|discriminate].
    injection Hp as ->. clear -Hres. revert Hres.
    induction imports as [|i rest IH]; simpl; [discriminate|].
    destruct (resolveSync W i p); [|discriminate].
    destruct (resolveImports W p rest); [|discriminate].
    intros [= ->]. now apply IH. }
  destruct e; simpl; [exfalso; eapply Hnc; reflexivity | eauto | eauto].
Qed.

Lemma scanLoop_S fuel allPaths found :
  found <> [] ->
  scanLoop W (S fuel) allPaths found =
  match mergePaths allPaths found with
  | inl e => Failed e
  | inr allPaths' =>
      match findImportsOnce W
              (JsSet.of_list (PathsMap.flat_values found)) with
      | inl e => Failed e
      | inr found' => scanLoop W fuel allPaths' found'
      end
  end.
Proof. destruct found; [congruence | reflexivity]. Qed.

Lemma round_cases allPaths found :
  found <> [] -> Inv allPaths found ->
  Fails allPaths found \/
  exists allPaths' found',
    mergePaths allPaths found = inr allPaths' /\
    findImportsOnce W (JsSet.of_list (PathsMap.flat_values found))
      = inr found' /\
    Inv allPaths' found' /\
    (forall fuel, scanLoop W (S fuel) allPaths found
                  = scanLoop W fuel allPaths' found').
Proof.
  intros Hne HInv.
  destruct (mergePaths allPaths found) as [e|allPaths'] eqn:Hm.
  - left. exists 1, e. split.
    + intros [|fuel] Hf; [lia|]. rewrite scanLoop_S by assumption.
      now rewrite Hm.
    + destruct (mergePaths_err _ _ _ Hm)
        as (p & ks & v & rep & Hin & -> & Hrep & Hsub & _).
      destruct HInv as [[-> [es [-> _]]]|Hscan].
      * simpl in Hm. discriminate.
      * destruct (Hscan _ _ Hin) as [Hs Hr]. simpl. eauto.
  - destruct (findImportsOnce W
                (JsSet.of_list (PathsMap.flat_values found)))
      as [e|found'] eqn:Hf.
    + left. exists 1, e. split.
      * intros [|fuel] Hfu; [lia|]. rewrite scanLoop_S by assumption.
        now rewrite Hm, Hf.
      * destruct (findImportsOnce_err _ _ Hf) as [p [Hp1 Hp2]].
        rewrite of_list_In in Hp1.
        eapply collaborator_error_ok; [|exact Hp2].
        eapply Inv_flat_reachable; eassumption.
    + right. exists allPaths', found'.
      split; [reflexivity|]. split; [reflexivity|]. split.
      * right. intros k v Hin.
        destruct (findImportsOnce_ok _ _ Hf) as [H1 _].
        destruct (H1 _ _ Hin) as [Hk Hs]. split; [assumption|].
        rewrite of_list_In in Hk.
        eapply Inv_flat_reachable; eassumption.
      * intros fuel. rewrite scanLoop_S by assumption.
        now rewrite Hm, Hf.
Qed.

Lemma Fails_later allPaths found allPaths' found' :
  (forall fuel, scanLoop W (S fuel) allPaths found
                = scanLoop W fuel allPaths' found') ->
  Fails allPaths' found' -> Fails allPaths found.
Proof.
  intros Hstep (n & e & Hn & He). exists (S n), e. split; [|assumption].
  intros [|fuel] Hf; [lia|]. rewrite Hstep. apply Hn. lia.
Qed.

Lemma nonempty_of_flat (found : PathsMap.t) q :
  In q (PathsMap.flat_values found) -> found <> [].
Proof. intros H ->. exact H. Qed.

(** Following a path of the graph round by round: if the loop fails
    from every later state whose frontier holds the end of the path,
    it fails from here.  [Pre] is any fact the rounds preserve. *)
Lemma follow_path (Pre : PathsMap.t -> PathsMap.t -> Prop) c :
  (forall a f a' f',
      Pre a f -> mergePaths a f = inr a' ->
      findImportsOnce W (JsSet.of_list (PathsMap.flat_values f)) = inr f' ->
      Pre a' f') ->
  (forall a f, Inv a f -> In c (PathsMap.flat_values f) -> Pre a f ->
               Fails a f) ->
  forall x, clos_refl_trans_1n string edge x c ->
  forall a f, Inv a f -> In x (PathsMap.flat_values f) -> Pre a f ->
              Fails a f.
Proof.
  intros Hpres K x Hpath.
  induction Hpath as [x | x y c [ks [Hs Hy]] Hrest IH]; intros a f HInv Hx HPre.
  - now apply K.
  - destruct (round_cases _ _ (nonempty_of_flat _ _ Hx) HInv)
      as [HF | (a' & f' & Hm & Hf & HInv' & Hstep)]; [assumption|].
    apply (Fails_later _ _ _ _ Hstep). apply (IH K).
    + assumption.
    + apply flat_values_In. exists x, ks. split; [|assumption].
      destruct (findImportsOnce_ok _ _ Hf) as [_ H2].
      apply H2; [|assumption]. now apply of_list_In.
    + eauto.
Qed.


Lemma Inv_initial :
  Inv [] (PathsMap.set EmptyString (JsSet.of_list entries) []).
Proof.
  left. split; [reflexivity|]. exists (JsSet.of_list entries).
  split; [reflexivity|]. intros q Hq. rewrite of_list_In in Hq.
  now apply reachable_entry.
Qed.


(** *** What a completed scan returns *)

Lemma round_Inv a f a' f' :
  Inv a f -> mergePaths a f = inr a' ->
  findImportsOnce W (JsSet.of_list (PathsMap.flat_values f)) = inr f' ->
  Inv a' f'.
Proof.
  intros HInv _ Hf. right. intros k v Hin.
  destruct (findImportsOnce_ok _ _ Hf) as [H1 _].
  destruct (H1 _ _ Hin) as [Hk Hs]. split; [assumption|].
  rewrite of_list_In in Hk. eapply Inv_flat_reachable; eassumption.
Qed.

(** The merged map holds only reachable files, holds every entry
    path unless the frontier still does, and is closed under the
    edges of the graph up to the frontier. *)
Definition Closed (a f : PathsMap.t) : Prop :=
  (forall q, In q (PathsMap.flat_values a) -> reachable q) /\
  (forall e, In e entries ->
             In e (PathsMap.flat_values a) \/ In e (PathsMap.flat_values f)) /\
  (forall p q, In p (PathsMap.flat_values a) -> edge p q ->
               In q (PathsMap.flat_values a) \/ In q (PathsMap.flat_values f)).

Lemma round_Closed a f a' f' :
  Inv a f -> Closed a f -> mergePaths a f = inr a' ->
  findImportsOnce W (JsSet.of_list (PathsMap.flat_values f)) = inr f' ->
  Closed a' f'.
Proof.
  intros HInv (Hsound & Hent & Hclos) Hm Hf.
  pose proof (fun q => mergePaths_flat f a a' q Hm) as Hflat.
  split; [|split].
  - intros q Hq. apply Hflat in Hq. destruct Hq as [Hq|Hq].
    + now apply Hsound.
    + eapply Inv_flat_reachable; eassumption.
  - intros e He. left. apply Hflat. now apply Hent.
  - intros p q Hp Hpq. apply Hflat in Hp. destruct Hp as [Hp|Hp].
    + left. apply Hflat. eapply Hclos; eassumption.
    + right. destruct Hpq as [ks [Hs Hq]].
      apply flat_values_In. exists p, ks. split; [|assumption].
      destruct (findImportsOnce_ok _ _ Hf) as [_ H2].
      apply H2; [|assumption]. now apply of_list_In.
Qed.

Lemma scanLoop_Done fuel : forall a f paths,
  Inv a f -> Closed a f -> scanLoop W fuel a f = Done paths ->
  forall q, In q paths <-> reachable q.
Proof.
  induction fuel as [|fuel IH]; intros a f paths HInv HC Hrun q.
  - destruct f as [|kv f]; [|discriminate]. simpl in Hrun.
    injection Hrun as <-. rewrite of_list_In.
    destruct HC as (Hsound & Hent & Hclos). split; [apply Hsound|].
    intros (e & He & Hpath).
    assert (Hstart : In e (PathsMap.flat_values a))
      by (destruct (Hent e He) as [H|[]]; exact H).
    clear He. induction Hpath as [x | x y z Hxy _ IHp]; [assumption|].
    apply IHp. destruct (Hclos x y Hstart Hxy) as [H|[]]. exact H.
  - destruct f as [|kv f].
    + apply (IH a [] paths HInv HC). destruct fuel; exact Hrun.
    + rewrite scanLoop_S in Hrun by discriminate.
      destruct (mergePaths a (kv :: f)) as [e|a'] eqn:Hm; [discriminate|].
      destruct (findImportsOnce W
                  (JsSet.of_list (PathsMap.flat_values (kv :: f))))
        as [e|f'] eqn:Hf; [discriminate|].
      apply (IH a' f' paths); [| |assumption].
      * eapply round_Inv; eassumption.
      * eapply round_Closed; eassumption.
Qed.

Lemma Closed_initial :
  Closed [] (PathsMap.set EmptyString (JsSet.of_list entries) []).
Proof.
  split; [|split].
  - intros q [].
  - intros e He. right. unfold PathsMap.flat_values. simpl.
    rewrite app_nil_r. now apply of_list_In.
  - intros p q [].
Qed.

(** Partial correctness of the scan: a set it returns is exactly the
    set of reachable files. *)
Lemma findImports_Done_reachable fuel paths :
  findImports W fuel entries = Done paths ->
  forall q, In q paths <-> reachable q.
Proof.
  intros H. eapply scanLoop_Done; [apply Inv_initial|apply Closed_initial|].
  exact H.
Qed.

(** More fuel does not change the outcome of a run that came to an
    end. *)
Lemma scanLoop_mono fuel : forall a f r fuel',
  scanLoop W fuel a f = r -> r <> OutOfFuel -> fuel <= fuel' ->
  scanLoop W fuel' a f = r.
Proof.
  induction fuel as [|fuel IH]; intros a f r fuel' Hrun Hr Hle.
  - destruct f as [|kv f]; simpl in Hrun; [|congruence].
    destruct fuel'; exact Hrun.
  - destruct f as [|kv f]; [destruct fuel'; exact Hrun|].
    destruct fuel' as [|fuel']; [lia|].
    rewrite scanLoop_S in * by discriminate.
    destruct (mergePaths a (kv :: f)) as [e|a']; [assumption|].
    destruct (findImportsOnce W
                (JsSet.of_list (PathsMap.flat_values (kv :: f))))
      as [e|f']; [assumption|].
    apply IH; [assumption | assumption | lia].
Qed.

Lemma Fails_never_Done a f :
  Fails a f -> forall fuel paths, scanLoop W fuel a f <> Done paths.
Proof.
  intros (n & e & Hn & _) fuel paths Hrun.
  assert (H1 : scanLoop W (fuel + n) a f = Done paths)
    by (eapply scanLoop_mono; [exact Hrun | discriminate | lia]).
  rewrite Hn in H1 by lia. discriminate.
Qed.

(** An error the loop ends in names a reachable file. *)
Lemma scanLoop_Failed_ok fuel : forall a f e,
  Inv a f -> scanLoop W fuel a f = Failed e -> error_ok e.
Proof.
  induction fuel as [|fuel IH]; intros a f e HInv Hrun.
  - destruct f; discriminate.
  - destruct f as [|kv f]; [discriminate|].
    assert (Hne : kv :: f <> []) by discriminate.
    destruct (round_cases _ _ Hne HInv)
      as [(n & e' & Hn & He') | (a' & f' & Hm & Hf & HInv' & Hstep)].
    + assert (H1 : scanLoop W (S fuel + n) a (kv :: f) = Failed e)
        by (eapply scanLoop_mono; [exact Hrun | discriminate | lia]).
      rewrite Hn in H1 by lia. now injection H1 as <-.
    + rewrite Hstep in Hrun. eapply IH; eassumption.
Qed.

End Graph.

(** *** Layered graphs

    When every file is met at one depth only, nothing is merged twice
    and the scan returns. *)

Section Layered.

Variable W : World.
Variable entries : list string.
Variable depth : string -> nat.
Variable D : nat.

Hypothesis graph : denotes_graph W entries.
Hypothesis depth_entry : forall e, In e entries -> depth e = 0.
Hypothesis depth_edge : forall p q, edge W p q -> depth q = S (depth p).
Hypothesis depth_bound : forall q, reachable W entries q -> depth q <= D.

Lemma set_keys k v m :
  map fst (PathsMap.set k v m)
  = match PathsMap.get k m with
    | Some _ => map fst m
    | None => map fst m ++ [k]
    end.
Proof.
  induction m as [|[k' v'] m IH]; simpl; [reflexivity|].
  destruct (String.eqb_spec k k') as [->|Hne]; simpl; [reflexivity|].
  rewrite IH. destruct (PathsMap.get k m); reflexivity.
Qed.

Lemma get_None_keys k m : PathsMap.get k m = None <-> ~ In k (map fst m).
Proof.
  induction m as [|[k' v'] m IH]; simpl; [tauto|].
  destruct (String.eqb_spec k k') as [->|Hne]; [split; [discriminate|tauto]|].
  rewrite IH. split; [intros H [E|E]; [congruence | tauto] | tauto].
Qed.

Lemma set_keys_NoDup k v m :
  NoDup (map fst m) -> NoDup (map fst (PathsMap.set k v m)).
Proof.
  intros H. rewrite set_keys. destruct (PathsMap.get k m) eqn:E; [exact H|].
  apply get_None_keys in E. apply NoDup_app; [assumption| |].
  - constructor; [intros [] | constructor].
  - intros x Hx [<-|[]]. contradiction.
Qed.

Lemma of_entries_NoDup es : NoDup (map fst (PathsMap.of_entries es)).
Proof.
  unfold PathsMap.of_entries.
  assert (H : forall m, NoDup (map fst m) ->
            NoDup (map fst (fold_left
              (fun m e => PathsMap.set (fst e) (snd e) m) es m))).
  { induction es as [|e es IH]; intros m Hm; [exact Hm|].
    simpl. apply IH. now apply set_keys_NoDup. }
  apply H. constructor.
Qed.

(** Entries whose keys are new and distinct merge without an error. *)
Lemma mergePaths_fresh F : forall a,
  NoDup (map fst F) ->
  (forall k, In k (map fst F) -> PathsMap.get k a = None) ->
  exists a',
    mergePaths a F = inr a' /\
    forall k, In k (map fst a') <-> In k (map fst a) \/ In k (map fst F).
Proof.
  induction F as [|[p cs] F IH]; intros a Hnd Hnew; simpl.
  - exists a. split; [reflexivity|]. tauto.
  - inversion Hnd as [|? ? Hp HF]; subst.
    rewrite (Hnew p) by now left.
    destruct (IH (PathsMap.set p cs a) HF) as (a' & Hm & Hkeys).
    + intros k Hk. rewrite get_set_other; [apply Hnew; now right|].
      intros ->. contradiction.
    + exists a'. split; [exact Hm|]. intros k. rewrite Hkeys, set_keys.
      rewrite (Hnew p) by now left. rewrite in_app_iff. simpl. tauto.
Qed.

Lemma findImportsOnce_total l :
  (forall p, In p l -> reachable W entries p) ->
  exists F, findImportsOnce W l = inr F.
Proof.
  intros Hl. unfold findImportsOnce.
  assert (H : exists cs, scanParents W l = inr cs).
  { induction l as [|p ps IH]; simpl; [now exists []|].
    destruct (scanParent W p) as [e|r] eqn:Hp.
    - destruct (graph p e (Hl p (or_introl eq_refl)) Hp).
    - destruct IH as [cs Hcs]; [intros q Hq; apply Hl; now right|].
      rewrite Hcs. eexists. reflexivity. }
  destruct H as [cs ->]. eexists. reflexivity.
Qed.

(** At round [k] the frontier holds the files of depth [k], found by
    scanning those of depth [k - 1], and the merged map holds the scans
    of lesser depth. *)
Definition Layer (k : nat) (a f : PathsMap.t) : Prop :=
  Inv W entries a f /\ Closed W entries a f /\
  NoDup (map fst f) /\
  (k <> 0 -> forall p ks, In (p, ks) f -> scans W p ks) /\
  (forall q, In q (PathsMap.flat_values f) -> depth q = k) /\
  (forall p ks, In (p, ks) f -> scans W p ks -> S (depth p) = k) /\
  (forall p ks, In p (map fst a) -> scans W p ks -> S (depth p) < k).

Lemma Layer_initial :
  Layer 0 [] (PathsMap.set EmptyString (JsSet.of_list entries) []).
Proof.
  split; [apply Inv_initial|]. split; [apply Closed_initial|].
  split; [repeat constructor; intros []|].
  split; [congruence|]. split; [|split].
  - intros q Hq. unfold PathsMap.flat_values in Hq. simpl in Hq.
    rewrite app_nil_r, of_list_In in Hq. now apply depth_entry.
  - intros p ks [Hin|[]] Hs. inversion Hin; subst.
    unfold scans, scanParent in Hs. simpl in Hs. discriminate.
  - intros p ks [].
Qed.

Lemma Layer_round k a f :
  Layer k a f ->
  exists a' f',
    mergePaths a f = inr a' /\
    findImportsOnce W (JsSet.of_list (PathsMap.flat_values f)) = inr f' /\
    Layer (S k) a' f'.
Proof.
  intros (HInv & HC & Hnd & Hpos & Hdepth & Hfkeys & Hkeys).
  assert (Hscan : forall p ks, In (p, ks) f -> a = [] \/ scans W p ks).
  { intros p ks Hin. destruct HInv as [[-> _]|H]; [now left|].
    right. now apply H. }
  destruct (mergePaths_fresh f a Hnd) as (a' & Hm & Hkeys').
  { intros p Hp. apply in_map_iff in Hp. destruct Hp as [[p0 ks] [E Hin]].
    simpl in E. subst p0.
    destruct (Hscan p ks Hin) as [->|Hs]; [reflexivity|].
    destruct (PathsMap.get p a) as [v|] eqn:Hget; [|reflexivity].
    assert (Hkey : In p (map fst a))
      by (apply in_map_iff; exists (p, v); split;
          [reflexivity | now apply get_In]).
    pose proof (Hkeys p ks Hkey Hs). pose proof (Hfkeys p ks Hin Hs). lia. }
  destruct (findImportsOnce_total (JsSet.of_list (PathsMap.flat_values f)))
    as [f' Hf].
  { intros p Hp. rewrite of_list_In in Hp.
    eapply Inv_flat_reachable; eassumption. }
  destruct (findImportsOnce_ok W _ _ Hf) as [Hf1 Hf2].
  exists a', f'. split; [exact Hm|]. split; [exact Hf|].
  split; [eapply round_Inv; eassumption|].
  split; [eapply round_Closed; eassumption|].
  split; [|split; [|split; [|split]]].
  - unfold findImportsOnce in Hf.
    destruct (scanParents W _); [discriminate|].
    injection Hf as <-. apply of_entries_NoDup.
  - intros _ p ks Hin. now destruct (Hf1 p ks Hin).
  - intros q Hq. apply flat_values_In in Hq.
    destruct Hq as (p & ks & Hin & Hq).
    destruct (Hf1 p ks Hin) as [Hp Hs]. rewrite of_list_In in Hp.
    rewrite <- (Hdepth p Hp). apply depth_edge. now exists ks.
  - intros p ks Hin _. destruct (Hf1 p ks Hin) as [Hp _].
    rewrite of_list_In in Hp. now rewrite (Hdepth p Hp).
  - intros p ks Hp Hs. apply Hkeys' in Hp. destruct Hp as [Hp|Hp].
    + pose proof (Hkeys p ks Hp Hs). lia.
    + apply in_map_iff in Hp. destruct Hp as [[p0 ks0] [E Hin]].
      simpl in E. subst p0.
      destruct (Hscan p ks0 Hin) as [->|Hs0].
      * destruct HInv as [[_ [es [-> _]]]|H].
        -- destruct Hin as [Hin|[]]. inversion Hin; subst.
           unfold scans, scanParent in Hs. simpl in Hs. discriminate.
        -- pose proof (Hfkeys p ks0 Hin (proj1 (H p ks0 Hin))). lia.
      * pose proof (Hfkeys p ks0 Hin Hs0). lia.
Qed.

Lemma layered_rounds n : forall k a f,
  k + n = D + 2 -> Layer k a f -> exists paths, scanLoop W n a f = Done paths.
Proof.
  induction n as [|n IH]; intros k a f Hk HL.
  - destruct f as [|[p ks] f]; [eexists; reflexivity|]. exfalso.
    destruct HL as (HInv & _ & _ & Hpos & _ & Hfkeys & _).
    assert (Hs : scans W p ks) by (apply Hpos; [lia | now left]).
    pose proof (Hfkeys p ks (or_introl eq_refl) Hs) as Hd.
    destruct HInv as [[_ [es [E _]]]|H].
    + inversion E; subst. unfold scans, scanParent in Hs. simpl in Hs.
      discriminate.
    + destruct (H p ks (or_introl eq_refl)) as [_ Hr].
      pose proof (depth_bound p Hr). lia.
  - destruct f as [|kv f]; [eexists; reflexivity|].
    destruct (Layer_round k a (kv :: f) HL) as (a' & f' & Hm & Hf & HL').
    rewrite scanLoop_S, Hm, Hf by discriminate.
    apply (IH (S k)); [lia | assumption].
Qed.

(** Total correctness on layered graphs: the scan returns, and returns
    the reachable files. *)
Lemma findImports_layered :
  exists paths,
    findImports W (D + 2) entries = Done paths /\
    forall q, In q paths <-> reachable W entries q.
Proof.
  destruct (layered_rounds (D + 2) 0 _ _ eq_refl Layer_initial)
    as [paths Hrun].
  exists paths. split; [exact Hrun|].
  now apply (findImports_Done_reachable W entries (D + 2)).
Qed.

End Layered.

(** The loop sees the tree only through [scanParent]. *)
Lemma scanParents_ext W1 W2 :
  (forall p, scanParent W1 p = scanParent W2 p) ->
  forall l, scanParents W1 l = scanParents W2 l.
Proof.
  intros Hext. induction l as [|p ps IH]; simpl; [reflexivity|].
  now rewrite Hext, IH.
Qed.

Lemma scanLoop_ext W1 W2 :
  (forall p, scanParent W1 p = scanParent W2 p) ->
  forall fuel a f, scanLoop W1 fuel a f = scanLoop W2 fuel a f.
Proof.
  intros Hext. induction fuel as [|fuel IH]; intros a f.
  - reflexivity.
  - destruct f as [|kv f]; [reflexivity|].
    rewrite !scanLoop_S by discriminate.
    destruct (mergePaths a (kv :: f)); [reflexivity|].
    unfold findImportsOnce. rewrite (scanParents_ext W1 W2 Hext).
    destruct (scanParents W2 _); [reflexivity | apply IH].
Qed.

End ScannerFacts.

(** ** The scanner's properties *)

Module ScannerProps.
Import Scanner JsSetFacts PathsMapFacts ScannerFacts.

(** A file tree given by its import lists: [present] says which files
    exist, every specifier is already the absolute path it resolves to,
    every listed file parses, and nothing is excluded. *)
Definition tree (present : string -> bool) (g : list (string * list string))
  : World :=
  {| file_exists := present;
     scanImports := fun p =>
       match PathsMap.get p g with
       | Some imports => Imports imports
       | None => Imports []
       end;
     resolveSync := fun specifier _ => Some specifier;
     excludeGlobs := [] |}.

Definition everything (_ : string) : bool := true.
Definition nothing (_ : string) : bool := false.

(** [/a.ts] imports [/b.ts] and [/c.ts], [/b.ts] imports [/c.ts], and
    [/c.ts] imports [/d.ts]: no cycle, and [/c.ts] at two depths. *)
Definition diamond : World :=
  tree everything
    [("/a.ts", ["/b.ts"; "/c.ts"]); ("/b.ts", ["/c.ts"]);
     ("/c.ts", ["/d.ts"])].

(** [/a.ts] and [/b.ts] import each other. *)
Definition two_cycle : World :=
  tree everything [("/a.ts", ["/b.ts"]); ("/b.ts", ["/a.ts"])].

Lemma resolveImports_tree present g p imports :
  resolveImports (tree present g) p imports
  = inr (filter (keeps (tree present g)) imports).
Proof.
  induction imports as [|i rest IH]; simpl; [reflexivity|].
  rewrite IH. reflexivity.
Qed.

Lemma tree_denotes_graph present g entries :
  denotes_graph (tree present g) entries.
Proof.
  intros p e _. unfold scanParent.
  destruct (negb (extRegex_matches p)); [discriminate|].
  destruct (negb (file_exists (tree present g) p)); [discriminate|].
  destruct (scanImports (tree present g) p) as [imports| |] eqn:Hs.
  - rewrite resolveImports_tree. discriminate.
  - simpl in Hs. destruct (PathsMap.get p g); discriminate.
  - simpl in Hs. destruct (PathsMap.get p g); discriminate.
Qed.

Lemma edge_tree present g p q :
  edge (tree present g) p q ->
  exists imports, PathsMap.get p g = Some imports /\ In q imports.
Proof.
  intros [ks [Hs Hq]]. unfold scans, scanParent in Hs.
  destruct (negb (extRegex_matches p)); [discriminate|].
  destruct (negb (file_exists (tree present g) p)); [discriminate|].
  simpl scanImports in Hs.
  destruct (PathsMap.get p g) as [imports|].
  - exists imports. split; [reflexivity|].
    rewrite resolveImports_tree in Hs. injection Hs as <-.
    rewrite of_list_In in Hq. apply filter_In in Hq. tauto.
  - simpl in Hs. injection Hs as <-. contradiction.
Qed.

Lemma acyclic_by_rank W (rank : string -> nat) :
  (forall p q, edge W p q -> rank p < rank q) ->
  forall c, ~ on_cycle W c.
Proof.
  intros Hrank c (y & Hcy & Hback).
  assert (Hle : rank y <= rank c).
  { clear Hcy. induction Hback as [x | x y z Hxy _ IH]; [lia|].
    specialize (Hrank _ _ Hxy). lia. }
  specialize (Hrank _ _ Hcy). lia.
Qed.

Definition diamond_rank (p : string) : nat :=
  if String.eqb p "/a.ts" then 0
  else if String.eqb p "/b.ts" then 1
  else if String.eqb p "/c.ts" then 2
  else 3.

Lemma diamond_edges p q :
  edge diamond p q ->
  In (p, q) [("/a.ts", "/b.ts"); ("/a.ts", "/c.ts"); ("/b.ts", "/c.ts");
             ("/c.ts", "/d.ts")].
Proof.
  intros H. apply edge_tree in H. destruct H as [imports [Hget Hq]].
  simpl in Hget.
  destruct (String.eqb_spec p "/a.ts") as [->|_].
  { injection Hget as <-. simpl in Hq. simpl.
    destruct Hq as [<-|[<-|[]]]; tauto. }
  destruct (String.eqb_spec p "/b.ts") as [->|_].
  { injection Hget as <-. simpl in Hq. simpl.
    destruct Hq as [<-|[]]; tauto. }
  destruct (String.eqb_spec p "/c.ts") as [->|_].
  { injection Hget as <-. simpl in Hq. simpl.
    destruct Hq as [<-|[]]; tauto. }
  discriminate.
Qed.

Lemma diamond_acyclic c : ~ on_cycle diamond c.
Proof.
  apply (acyclic_by_rank diamond diamond_rank).
  intros p q H. apply diamond_edges in H. simpl in H.
  destruct H as [H|[H|[H|[H|[]]]]]; inversion H; subst; vm_compute; lia.
Qed.

Lemma diamond_reachable q :
  reachable diamond ["/a.ts"] q <->
  In q ["/a.ts"; "/b.ts"; "/c.ts"; "/d.ts"].
Proof.
  split.
  - intros (e & He & Hpath).
    assert (Hstart : In e ["/a.ts"; "/b.ts"; "/c.ts"; "/d.ts"])
      by (simpl in *; tauto).
    clear He. induction Hpath as [x | x y z Hxy _ IH]; [assumption|].
    apply IH. apply diamond_edges in Hxy. simpl in Hxy, Hstart |- *.
    destruct Hxy as [H|[H|[H|[H|[]]]]]; inversion H; subst; tauto.
  - assert (Eab : edge diamond "/a.ts" "/b.ts")
      by (exists ["/b.ts"; "/c.ts"]; split; [reflexivity | simpl; tauto]).
    assert (Eac : edge diamond "/a.ts" "/c.ts")
      by (exists ["/b.ts"; "/c.ts"]; split; [reflexivity | simpl; tauto]).
    assert (Ecd : edge diamond "/c.ts" "/d.ts")
      by (exists ["/d.ts"]; split; [reflexivity | simpl; tauto]).
    assert (Ra : reachable diamond ["/a.ts"] "/a.ts")
      by (apply reachable_entry; simpl; tauto).
    assert (Rc : reachable diamond ["/a.ts"] "/c.ts")
      by (apply (reachable_step _ _ "/a.ts"); assumption).
    simpl. intros [<-|[<-|[<-|[<-|[]]]]].
    + exact Ra.
    + apply (reachable_step _ _ "/a.ts"); assumption.
    + exact Rc.
    + apply (reachable_step _ _ "/c.ts"); assumption.
Qed.

(** C1, at an input on which the code departs from it.  The diamond has
    no import cycle and the files reachable from [/a.ts] are [/a.ts],
    [/b.ts], [/c.ts] and [/d.ts]; yet [findImports] does not return
    them: once the loop has run three rounds it throws the cyclic-import
    error for [/c.ts], which it reaches at depth 1 and at depth 2. *)
Theorem findImports_rejects_acyclic_diamond :
  (forall c, ~ on_cycle diamond c) /\
  (forall q, reachable diamond ["/a.ts"] q <->
             In q ["/a.ts"; "/b.ts"; "/c.ts"; "/d.ts"]) /\
  (forall fuel, findImports diamond (4 + fuel) ["/a.ts"]
                = Failed (CyclicImport "/c.ts" ["/d.ts"])) /\
  (forall fuel paths, findImports diamond fuel ["/a.ts"] <> Done paths).
Proof.
  assert (H4 : forall fuel, findImports diamond (4 + fuel) ["/a.ts"]
                            = Failed (CyclicImport "/c.ts" ["/d.ts"])).
  { intros fuel. unfold findImports.
    apply (scanLoop_mono diamond 4); [reflexivity | discriminate | lia]. }
  split; [exact diamond_acyclic|]. split; [exact diamond_reachable|].
  split; [exact H4|].
  intros fuel paths Hrun.
  assert (H : findImports diamond (4 + fuel) ["/a.ts"] = Done paths).
  { unfold findImports in *.
    apply (scanLoop_mono diamond fuel); [exact Hrun | discriminate | lia]. }
  rewrite H4 in H. discriminate.
Qed.

(** The diamond whose two paths to [/d.ts] have the same length. *)
Definition even_diamond : World :=
  tree everything
    [("/a.ts", ["/b.ts"; "/c.ts"]); ("/b.ts", ["/d.ts"]);
     ("/c.ts", ["/d.ts"])].

Definition even_diamond_depth (p : string) : nat :=
  if String.eqb p "/a.ts" then 0
  else if String.eqb p "/d.ts" then 2
  else 1.

Lemma even_diamond_edges p q :
  edge even_diamond p q ->
  In (p, q) [("/a.ts", "/b.ts"); ("/a.ts", "/c.ts"); ("/b.ts", "/d.ts");
             ("/c.ts", "/d.ts")].
Proof.
  intros H. apply edge_tree in H. destruct H as [imports [Hget Hq]].
  simpl in Hget.
  destruct (String.eqb_spec p "/a.ts") as [->|_].
  { injection Hget as <-. simpl in Hq. simpl.
    destruct Hq as [<-|[<-|[]]]; tauto. }
  destruct (String.eqb_spec p "/b.ts") as [->|_].
  { injection Hget as <-. simpl in Hq. simpl.
    destruct Hq as [<-|[]]; tauto. }
  destruct (String.eqb_spec p "/c.ts") as [->|_].
  { injection Hget as <-. simpl in Hq. simpl.
    destruct Hq as [<-|[]]; tauto. }
  discriminate.
Qed.

(** When the layers do not overlap the tree is scanned in full: the
    lemma on layered graphs applies, and the run gives the four files. *)
Example findImports_layered_diamond :
  (exists paths,
      findImports even_diamond (2 + 2) ["/a.ts"] = Done paths /\
      forall q, In q paths <-> reachable even_diamond ["/a.ts"] q) /\
  findImports even_diamond 4 ["/a.ts"]
  = Done ["/a.ts"; "/b.ts"; "/c.ts"; "/d.ts"].
Proof.
  split; [|reflexivity].
  apply (findImports_layered even_diamond ["/a.ts"] even_diamond_depth 2).
  - apply tree_denotes_graph.
  - intros e [<-|[]]. reflexivity.
  - intros p q H. apply even_diamond_edges in H. simpl in H.
    destruct H as [H|[H|[H|[H|[]]]]]; inversion H; subst; reflexivity.
  - intros q (e & [<-|[]] & Hpath).
    assert (Hle : forall x y,
              clos_refl_trans_1n string (edge even_diamond) x y ->
              even_diamond_depth x <= 2 -> even_diamond_depth y <= 2).
    { intros x y Hxy. induction Hxy as [x | x y z Hxy _ IH]; [tauto|].
      intros _. apply IH. apply even_diamond_edges in Hxy. simpl in Hxy.
      destruct Hxy as [H|[H|[H|[H|[]]]]]; inversion H; subst;
        vm_compute; lia. }
    apply (Hle _ _ Hpath). vm_compute. lia.
Qed.




(** The scenario of the design document: the error names [/a.ts]. *)
Example two_cycle_names_a :
  findImports two_cycle 4 ["/a.ts"] = Failed (CyclicImport "/a.ts" ["/b.ts"]).
Proof. reflexivity. Qed.

(** The file the error names need not be on the cycle: here [/d.ts] and
    [/e.ts] import each other, and the error is about [/c.ts], which
    leads to them and is met at two depths. *)
Example cycle_reported_before_it_closes :
  findImports
    (tree everything
       [("/a.ts", ["/b.ts"; "/c.ts"]); ("/b.ts", ["/c.ts"]);
        ("/c.ts", ["/d.ts"]); ("/d.ts", ["/e.ts"]); ("/e.ts", ["/d.ts"])])
    9 ["/a.ts"]
  = Failed (CyclicImport "/c.ts" ["/d.ts"]).
Proof. reflexivity. Qed.








End ScannerProps.

(** ** Facts about the watcher *)

Module WatcherFacts.
Import Scanner Watcher JsSetFacts.

(** *** Reading the log *)

Definition count (p : Action -> bool) (l : list Action) : nat :=
  length (filter p l).

Definition is_build (a : Action) : bool :=
  match a with ABuild _ => true | _ => false end.

Definition is_emit (name : EventName) (a : Action) : bool :=
  match a with
  | AEmit ev => EventName_eqb (event_name ev) name
  | _ => false
  end.

Definition is_build_event_of (id : nat) (a : Action) : bool :=
  match a with
  | AEmit (EvBuild i _) => Nat.eqb i id
  | _ => false
  end.

Definition is_dispose_of (h : FSWatcher) (a : Action) : bool :=
  match a with
  | ADispose h' => FSWatcher_eqb h h'
  | _ => false
  end.

Definition is_scan (a : Action) : bool :=
  match a with AScan _ => true | _ => false end.

(** The actions a listener can cause: a handle closed, a build begun. *)
Definition calm (a : Action) : Prop :=
  match a with
  | ADispose _ | ABuild _ => True
  | _ => False
  end.

(** The log up to the close event: the watcher's session. *)
Fixpoint session (l : list Action) : list Action :=
  match l with
  | [] => []
  | AEmit EvClose :: _ => []
  | a :: l' => a :: session l'
  end.

Lemma count_app p l1 l2 : count p (l1 ++ l2) = count p l1 + count p l2.
Proof. unfold count. now rewrite filter_app, length_app. Qed.

Lemma count_calm p d :
  (forall a, calm a -> p a = false) -> Forall calm d -> count p d = 0.
Proof.
  intros Hp Hd. induction Hd as [|a d Ha _ IH]; [reflexivity|].
  unfold count in *. simpl. now rewrite (Hp a Ha).
Qed.

Lemma session_open l d :
  count (is_emit on_close) l = 0 -> session (l ++ d) = l ++ session d.
Proof.
  induction l as [|a l IH]; intros H; [reflexivity|].
  unfold count in H. simpl in H.
  destruct a as [p|h|h|ev|i]; simpl in *; try (f_equal; now apply IH).
  destruct ev; simpl in *; try discriminate; f_equal; now apply IH.
Qed.

Lemma session_over l d :
  count (is_emit on_close) l <> 0 -> session (l ++ d) = session l.
Proof.
  induction l as [|a l IH]; intros H; [now elim H|].
  unfold count in H. simpl in H.
  destruct a as [p|h|h|ev|i]; simpl in *; try (f_equal; now apply IH).
  destruct ev; simpl in *; try reflexivity; f_equal; now apply IH.
Qed.

Lemma session_no_close l :
  count (is_emit on_close) l = 0 -> session l = l.
Proof.
  intros H. rewrite <- (app_nil_r l) at 1. rewrite session_open by assumption.
  simpl. apply app_nil_r.
Qed.

(** *** Handles *)

Lemma FSWatcher_eqb_eq a b : FSWatcher_eqb a b = true <-> a = b.
Proof.
  unfold FSWatcher_eqb. rewrite andb_true_iff, Nat.eqb_eq, String.eqb_eq.
  destruct a, b; simpl. split; [intros [-> ->]; reflexivity|].
  intros [= -> ->]. tauto.
Qed.

Lemma FSWatcher_eqb_refl a : FSWatcher_eqb a a = true.
Proof. now apply FSWatcher_eqb_eq. Qed.

Lemma apply_actions_app d1 d2 open :
  apply_actions (d1 ++ d2) open = apply_actions d2 (apply_actions d1 open).
Proof. unfold apply_actions. apply fold_left_app. Qed.

Lemma apply_dispose_In ws : forall open h,
  In h (apply_actions (map ADispose ws) open) <-> In h open /\ ~ In h ws.
Proof.
  induction ws as [|w ws IH]; intros open h; simpl; [tauto|].
  change (In h (apply_actions (map ADispose ws)
                  (filter (fun h' => negb (FSWatcher_eqb w h')) open)) <->
          In h open /\ ~ (w = h \/ In h ws)).
  rewrite IH, filter_In, negb_true_iff.
  destruct (FSWatcher_eqb w h) eqn:E.
  - apply FSWatcher_eqb_eq in E. subst.
    split; [intros [[_ H] _]|]; [discriminate|tauto].
  - assert (w <> h)
      by (intros ->; rewrite FSWatcher_eqb_refl in E; discriminate).
    tauto.
Qed.

Lemma apply_dispose_all_nil ws open :
  incl open ws -> apply_actions (map ADispose ws) open = [].
Proof.
  intros Hincl.
  destruct (apply_actions (map ADispose ws) open) as [|h rest] eqn:E;
    [reflexivity|].
  assert (Hin : In h (apply_actions (map ADispose ws) open))
    by (rewrite E; now left).
  apply apply_dispose_In in Hin. destruct Hin as [H1 H2].
  elim H2. now apply Hincl.
Qed.


Lemma apply_calm_incl d : forall open,
  Forall calm d -> incl (apply_actions d open) open.
Proof.
  induction d as [|a d IH]; intros open Hd; [apply incl_refl|].
  inversion Hd as [|? ? Ha Hd']; subst.
  change (incl (apply_actions d (apply_action a open)) open).
  intros h Hh. apply (IH _ Hd') in Hh.
  destruct a; simpl in *; try contradiction; [|assumption].
  apply filter_In in Hh. tauto.
Qed.







(** *** What the listeners do

    [effect s s' d k]: from [s] to [s'] the object is unchanged, the
    log grew by [d], which holds only disposals and build invocations,
    and [k] builds were begun. *)
Definition effect (s s' : Sys) (d : list Action) (k : nat) : Prop :=
  fullPaths s' = fullPaths s /\ watchers s' = watchers s /\
  state s' = state s /\ listeners s' = listeners s /\
  next_id s' = next_id s /\
  log s' = log s ++ d /\ active s' = apply_actions d (active s) /\
  pending s' = pending s ++ seq (next_build s) k /\
  next_build s' = next_build s + k /\
  Forall calm d /\
  filter is_build d = map ABuild (seq (next_build s) k).

Lemma effect_builds s s' d k : effect s s' d k -> count is_build d = k.
Proof.
  intros (_ & _ & _ & _ & _ & _ & _ & _ & _ & _ & H).
  unfold count. now rewrite H, length_map, length_seq.
Qed.

Lemma effect_refl s : effect s s [] 0.
Proof.
  unfold effect. simpl. rewrite !app_nil_r, Nat.add_0_r.
  repeat split; try reflexivity. constructor.
Qed.

Lemma effect_trans s s1 s2 d1 d2 k1 k2 :
  effect s s1 d1 k1 -> effect s1 s2 d2 k2 ->
  effect s s2 (d1 ++ d2) (k1 + k2).
Proof.
  intros (A1 & A2 & A3 & A4 & A5 & A6 & A7 & A8 & A9 & A10 & A11)
         (B1 & B2 & B3 & B4 & B5 & B6 & B7 & B8 & B9 & B10 & B11).
  unfold effect.
  rewrite B1, B2, B3, B4, B5, B6, B7, B8, B9, A1, A2, A3, A4, A5, A6, A7,
    A8, A9.
  rewrite apply_actions_app, filter_app, A11, B11, seq_app, map_app,
    !app_assoc, Nat.add_assoc.
  repeat split; try reflexivity; [now apply Forall_app | now rewrite A9].
Qed.

Lemma effect_dispose h s : effect s (dispose h s) [ADispose h] 0.
Proof.
  unfold effect, dispose. simpl. rewrite app_nil_r, Nat.add_0_r.
  repeat split; try reflexivity. repeat constructor.
Qed.

Lemma effect_dispose_all ws : forall s,
  effect s (dispose_all ws s) (map ADispose ws) 0.
Proof.
  induction ws as [|w ws IH]; intros s; [apply effect_refl|].
  change (effect s (dispose_all ws (dispose w s))
            ([ADispose w] ++ map ADispose ws) (0 + 0)).
  eapply effect_trans; [apply effect_dispose | apply IH].
Qed.

Lemma effect_start_build s :
  effect s (start_build s) [ABuild (next_build s)] 1.
Proof.
  unfold effect, start_build. simpl. rewrite Nat.add_1_r.
  repeat split; try reflexivity. repeat constructor.
Qed.

Definition is_builder (l : Listener) : bool :=
  match l_handler l with BuildAndEmit => true | _ => false end.

Definition builders (ls : list Listener) : nat :=
  length (filter is_builder ls).

Lemma effect_run_listener h s :
  exists d,
    effect s (run_listener h s) d
      (match h with BuildAndEmit => 1 | _ => 0 end).
Proof.
  destruct h; simpl.
  - eexists. apply effect_dispose_all.
  - eexists. apply effect_start_build.
  - eexists. apply effect_refl.
  - eexists. apply effect_refl.
  - eexists. apply effect_refl.
  - eexists. apply effect_refl.
Qed.

Lemma effect_run_listeners called : forall s,
  exists d,
    effect s (fold_left (fun s l => run_listener (l_handler l) s) called s)
      d (builders called).
Proof.
  induction called as [|l called IH]; intros s; simpl.
  - exists []. apply effect_refl.
  - destruct (effect_run_listener (l_handler l) s) as [d1 H1].
    destruct (IH (run_listener (l_handler l) s)) as [d2 H2].
    exists (d1 ++ d2).
    replace (builders (l :: called))
      with ((match l_handler l with BuildAndEmit => 1 | _ => 0 end)
            + builders called).
    + eapply effect_trans; eassumption.
    + unfold builders, is_builder. simpl. destruct (l_handler l); reflexivity.
Qed.

Definition called_by (name : EventName) (ls : list Listener)
  : list Listener :=
  filter (fun l => EventName_eqb (l_event l) name) ls.

Definition kept_after (name : EventName) (ls : list Listener)
  : list Listener :=
  filter (fun l => negb (EventName_eqb (l_event l) name && l_once l)) ls.

(** What [emit] does when no listener re-enters the watcher. *)
Lemma emit_effect ev s :
  exists d,
    effect (set_listeners (kept_after (event_name ev) (listeners s))
              (record (AEmit ev) s))
           (emit run_listener ev s) d
           (builders (called_by (event_name ev) (listeners s))).
Proof.
  unfold emit.
  apply (effect_run_listeners
           (called_by (event_name ev) (listeners s))).
Qed.

(** *** Subscribing *)

Lemma fs_watch_inv W p s r s' :
  fs_watch W p s = (r, s') ->
  (file_exists W p = false /\ r = inl (WatchENOENT p) /\ s' = s) \/
  (exists h, file_exists W p = true /\ r = inr h /\ watcher_path h = p /\
     fullPaths s' = fullPaths s /\ watchers s' = watchers s /\
     state s' = state s /\ listeners s' = listeners s /\
     pending s' = pending s /\ next_build s' = next_build s /\
     log s' = log s ++ [AOpen h] /\ active s' = active s ++ [h]).
Proof.
  unfold fs_watch. destruct (file_exists W p).
  - intros [= <- <-]. right. eexists. repeat split; reflexivity.
  - intros [= <- <-]. left. tauto.
Qed.

(** Whether it ends well or not, [subscribe] opens handles for a prefix
    of the paths and touches nothing else. *)
Lemma subscribe_inv W paths : forall s r s',
  subscribe W paths s = (r, s') ->
  exists hs,
    fullPaths s' = fullPaths s /\ watchers s' = watchers s /\
    state s' = state s /\ listeners s' = listeners s /\
    pending s' = pending s /\ next_build s' = next_build s /\
    log s' = log s ++ map AOpen hs /\ active s' = active s ++ hs /\
    match r with
    | inr hs' => hs' = hs /\ map watcher_path hs = paths
    | inl e =>
        exists p, e = WatchENOENT p /\ In p paths /\ file_exists W p = false
    end.
Proof.
  induction paths as [|p ps IH]; intros s r s'; simpl.
  - intros [= <- <-]. exists []. simpl. rewrite !app_nil_r.
    repeat split; reflexivity.
  - destruct (fs_watch W p s) as [r1 s1] eqn:H1.
    destruct (fs_watch_inv W p s r1 s1 H1)
      as [(Hex & -> & ->) |
          (h & Hex & -> & Hp & F1 & F2 & F3 & F4 & F5 & F6 & F7 & F8)].
    + intros [= <- <-]. exists []. simpl. rewrite !app_nil_r.
      repeat split; try reflexivity. exists p. tauto.
    + destruct (subscribe W ps s1) as [r2 s2] eqn:H2.
      destruct (IH s1 r2 s2 H2)
        as (hs & G1 & G2 & G3 & G4 & G5 & G6 & G7 & G8 & G9).
      assert (Hfields :
        fullPaths s2 = fullPaths s /\ watchers s2 = watchers s /\
        state s2 = state s /\ listeners s2 = listeners s /\
        pending s2 = pending s /\ next_build s2 = next_build s /\
        log s2 = log s ++ map AOpen (h :: hs) /\
        active s2 = active s ++ h :: hs).
      { rewrite G1, G2, G3, G4, G5, G6, G7, G8, F1, F2, F3, F4, F5, F6, F7,
          F8. simpl. rewrite <- !app_assoc. repeat split; reflexivity. }
      destruct r2 as [e|hs'].
      * intros [= <- <-]. exists (h :: hs).
        destruct Hfields as (? & ? & ? & ? & ? & ? & ? & ?).
        repeat split; try assumption.
        destruct G9 as (q & -> & Hq & Hexq). exists q. tauto.
      * intros [= <- <-]. exists (h :: hs).
        destruct Hfields as (? & ? & ? & ? & ? & ? & ? & ?).
        destruct G9 as [-> G9].
        repeat split; try assumption. simpl. now rewrite Hp, G9.
Qed.

(** *** [rescan], case by case *)

(** The state in which [rescan] awaits the scan. *)
Definition scanning (s : Sys) : Sys :=
  let s := dispose_all (watchers s) s in
  let s := set_state watching s in
  record (AScan (fullPaths s)) s.

Lemma scanning_fields s :
  fullPaths (scanning s) = fullPaths s /\
  watchers (scanning s) = watchers s /\
  state (scanning s) = watching /\
  listeners (scanning s) = listeners s /\
  pending (scanning s) = pending s /\
  next_build (scanning s) = next_build s /\
  log (scanning s)
  = log s ++ map ADispose (watchers s) ++ [AScan (fullPaths s)] /\
  active (scanning s) = apply_actions (map ADispose (watchers s)) (active s).
Proof.
  destruct (effect_dispose_all (watchers s) s)
    as (A1 & A2 & A3 & A4 & A5 & A6 & A7 & A8 & A9 & _).
  unfold scanning. simpl. rewrite A1, A2, A4, A6, A7, A8, A9.
  simpl. rewrite app_nil_r, Nat.add_0_r, <- app_assoc.
  repeat split; reflexivity.
Qed.

(** The listener [rescan] leaves on the close event. *)
Definition close_listener : Listener :=
  {| l_event := on_close; l_once := true; l_handler := CloseWatchers |}.

Lemma rescan_unfold W fuel s :
  state s <> closed ->
  rescan W fuel s =
  match findImports W fuel (fullPaths s) with
  | OutOfFuel => (Unsettled, scanning s)
  | Failed e => (Rejected (ScanRejected e), scanning s)
  | Done paths =>
      match subscribe W paths (scanning s) with
      | (inl e, s2) => (Rejected e, s2)
      | (inr hs, s2) =>
          (Resolved paths,
           emit run_listener (EvWatch paths)
             (add_listener on_close true CloseWatchers (set_watchers hs s2)))
      end
  end.
Proof.
  intros Hst. destruct (scanning_fields s) as (F1 & _).
  rewrite <- F1. unfold rescan.
  destruct (state s); try congruence; reflexivity.
Qed.

Lemma rescan_closed W fuel s :
  state s = closed -> rescan W fuel s = (Rejected ClosedWatcher, s).
Proof. intros H. unfold rescan. now rewrite H. Qed.

(** A [rescan] that does not resolve: the old handles are disposed, the
    state says watching, and the handles opened before the failure stay
    open; nothing is installed and nothing is emitted. *)
Lemma rescan_not_resolved W fuel s r s' :
  state s <> closed -> rescan W fuel s = (r, s') ->
  (forall paths, r <> Resolved paths) ->
  exists hs,
    fullPaths s' = fullPaths s /\ watchers s' = watchers s /\
    state s' = watching /\ listeners s' = listeners s /\
    pending s' = pending s /\ next_build s' = next_build s /\
    log s' = log s ++ map ADispose (watchers s) ++ [AScan (fullPaths s)]
                   ++ map AOpen hs /\
    active s' = apply_actions (map ADispose (watchers s)) (active s) ++ hs.
Proof.
  intros Hst Hrun Hr. rewrite rescan_unfold in Hrun by assumption.
  destruct (scanning_fields s) as (F1 & F2 & F3 & F4 & F5 & F6 & F7 & F8).
  assert (Hawait : forall r0, (r0, scanning s) = (r, s') -> exists hs,
    fullPaths s' = fullPaths s /\ watchers s' = watchers s /\
    state s' = watching /\ listeners s' = listeners s /\
    pending s' = pending s /\ next_build s' = next_build s /\
    log s' = log s ++ map ADispose (watchers s) ++ [AScan (fullPaths s)]
                   ++ map AOpen hs /\
    active s' = apply_actions (map ADispose (watchers s)) (active s) ++ hs).
  { intros r0 [= _ <-]. exists []. simpl. rewrite !app_nil_r.
    repeat split; assumption. }
  destruct (findImports W fuel (fullPaths s)) as [|e|paths];
    [ now apply (Hawait Unsettled)
    | now apply (Hawait (Rejected (ScanRejected e))) |].
  destruct (subscribe W paths (scanning s)) as [r2 s2] eqn:H2.
  destruct (subscribe_inv W paths _ _ _ H2)
    as (hs & G1 & G2 & G3 & G4 & G5 & G6 & G7 & G8 & G9).
  destruct r2 as [e|hs'].
  - injection Hrun as <- <-. exists hs.
    rewrite G1, G2, G3, G4, G5, G6, G7, G8, F1, F2, F3, F4, F5, F6, F7, F8.
    rewrite <- !app_assoc. repeat split; reflexivity.
  - injection Hrun as <- _. now elim (Hr paths).
Qed.

(** A [rescan] that resolves. *)
Lemma rescan_resolved W fuel s paths s' :
  rescan W fuel s = (Resolved paths, s') ->
  state s <> closed /\
  findImports W fuel (fullPaths s) = Done paths /\
  exists hs d k,
    map watcher_path hs = paths /\
    fullPaths s' = fullPaths s /\ watchers s' = hs /\
    state s' = watching /\
    listeners s'
    = kept_after on_watch (listeners s ++ [close_listener]) /\
    k = builders (called_by on_watch (listeners s ++ [close_listener])) /\
    pending s' = pending s ++ seq (next_build s) k /\
    next_build s' = next_build s + k /\
    Forall calm d /\
    filter is_build d = map ABuild (seq (next_build s) k) /\
    log s' = log s ++ map ADispose (watchers s) ++ [AScan (fullPaths s)]
                   ++ map AOpen hs ++ AEmit (EvWatch paths) :: d /\
    active s'
    = apply_actions d
        (apply_actions (map ADispose (watchers s)) (active s) ++ hs).
Proof.
  intros Hrun.
  assert (Hst : state s <> closed).
  { intros Hc. rewrite rescan_closed in Hrun by assumption. discriminate. }
  split; [assumption|].
  rewrite rescan_unfold in Hrun by assumption.
  destruct (scanning_fields s) as (F1 & F2 & F3 & F4 & F5 & F6 & F7 & F8).
  destruct (findImports W fuel (fullPaths s)) as [|e|paths0];
    try discriminate.
  destruct (subscribe W paths0 (scanning s)) as [r2 s2] eqn:H2.
  destruct (subscribe_inv W paths0 _ _ _ H2)
    as (hs & G1 & G2 & G3 & G4 & G5 & G6 & G7 & G8 & G9).
  destruct r2 as [e|hs']; [discriminate|].
  destruct G9 as [-> G9]. injection Hrun as -> <-.
  split; [reflexivity|].
  destruct (emit_effect (EvWatch paths)
              (add_listener on_close true CloseWatchers (set_watchers hs s2)))
    as (d & E1 & E2 & E3 & E4 & E5 & E6 & E7 & E8 & E9 & E10 & E11).
  simpl in E1, E2, E3, E4, E5, E6, E7, E8, E9, E11.
  exists hs, d,
    (builders (called_by on_watch (listeners s2 ++ [close_listener]))).
  rewrite E1, E2, E3, E4, E6, E7, E8, E9, E11.
  rewrite G1, G3, G4, G5, G6, G7, G8, F1, F3, F4, F5, F6, F7, F8.
  rewrite <- !app_assoc. simpl.
  repeat split; try reflexivity; try assumption.
Qed.

End WatcherFacts.

(** ** The watcher's lifecycle *)

Module WatcherProps.
Import Scanner Watcher JsSetFacts ScannerFacts WatcherFacts ScannerProps.

Lemma count_dispose_0 p ws :
  (forall h, p (ADispose h) = false) -> count p (map ADispose ws) = 0.
Proof.
  intros Hp. induction ws as [|w ws IH]; [reflexivity|].
  unfold count in *. simpl. now rewrite Hp.
Qed.

Lemma count_open_0 p hs :
  (forall h, p (AOpen h) = false) -> count p (map AOpen hs) = 0.
Proof.
  intros Hp. induction hs as [|h hs IH]; [reflexivity|].
  unfold count in *. simpl. now rewrite Hp.
Qed.

Lemma rescan_state W fuel s :
  state s <> closed -> state (snd (rescan W fuel s)) = watching.
Proof.
  intros Hst. destruct (rescan W fuel s) as [r s'] eqn:Hrun. simpl.
  destruct r as [paths|e|].
  - destruct (rescan_resolved W fuel s paths s' Hrun)
      as (_ & _ & hs & d & k & _ & _ & _ & H & _). exact H.
  - destruct (rescan_not_resolved W fuel s _ s' Hst Hrun)
      as (hs & _ & _ & H & _); [discriminate | exact H].
  - destruct (rescan_not_resolved W fuel s _ s' Hst Hrun)
      as (hs & _ & _ & H & _); [discriminate | exact H].
Qed.

Lemma watch_snd W fuel s :
  snd (watch W fuel s)
  = match state s with watching => s | _ => snd (rescan W fuel s) end.
Proof.
  unfold watch. destruct (state s); try reflexivity;
    destruct (rescan W fuel s) as [[paths|e|] s']; reflexivity.
Qed.

Lemma watch_state W fuel s :
  state s <> closed -> state (snd (watch W fuel s)) = watching.
Proof.
  intros Hst. rewrite watch_snd. destruct (state s) eqn:E.
  - apply rescan_state. congruence.
  - exact E.
  - congruence.
Qed.

(** C8.  On a closed watcher [watch] and [rescan] reject with the
    closed-watcher error and change nothing: no handle, no scan, no
    event, the log is as it was; [close] returns without doing
    anything. *)
Theorem closed_watcher_rejects W fuel s :
  state s = closed ->
  watch W fuel s = (Rejected ClosedWatcher, s) /\
  rescan W fuel s = (Rejected ClosedWatcher, s) /\
  close s = s.
Proof.
  intros H. unfold watch, close. rewrite (rescan_closed W fuel s H), H.
  repeat split; reflexivity.
Qed.

(** The tree of the end-to-end scenario: [/a.ts] imports [/b.ts]. *)
Definition a_imports_b : World := tree everything [("/a.ts", ["/b.ts"])].

(** The same tree once the import is removed. *)
Definition a_alone : World := tree everything [].

(** A watcher on [/a.ts], as constructed. *)
Definition fresh_a : Sys := new_DependencyWatcher ["/a.ts"].

(** The same watcher closed before it ever watched. *)
Definition closed_a : Sys := close fresh_a.

Lemma closed_watcher_rejects_witness :
  state closed_a = closed /\
  watch diamond 4 closed_a = (Rejected ClosedWatcher, closed_a) /\
  rescan diamond 4 closed_a = (Rejected ClosedWatcher, closed_a) /\
  close closed_a = closed_a.
Proof.
  split; [reflexivity|].
  apply (closed_watcher_rejects diamond 4 closed_a). reflexivity.
Defined.

(** C7.  After a call of [watch] on a watcher that is not closed, a
    second call resolves to [undefined] and leaves everything as it
    was: the log gains no scan, no handle and no event.  Over the two
    calls the scan ran once if the watcher was ready, and not at all if
    it was already watching. *)
Theorem second_watch_is_noop W1 fuel1 W2 fuel2 s :
  state s <> closed ->
  let s1 := snd (watch W1 fuel1 s) in
  watch W2 fuel2 s1 = (Resolved None, s1) /\
  count is_scan (log (snd (watch W2 fuel2 s1)))
  = count is_scan (log s)
    + match state s with watching => 0 | _ => 1 end.
Proof.
  intros Hst s1.
  assert (Hw : state s1 = watching) by (apply watch_state; assumption).
  assert (H2 : watch W2 fuel2 s1 = (Resolved None, s1))
    by (unfold watch; rewrite Hw; reflexivity).
  split; [exact H2|]. rewrite H2. simpl. unfold s1. rewrite watch_snd.
  assert (Hre : count is_scan (log (snd (rescan W1 fuel1 s)))
                = count is_scan (log s) + 1).
  { destruct (rescan W1 fuel1 s) as [r s'] eqn:Hrun. simpl.
    assert (Hd : forall hs, count is_scan
               (log s ++ map ADispose (watchers s) ++ [AScan (fullPaths s)]
                  ++ map AOpen hs) = count is_scan (log s) + 1).
    { intros hs. rewrite !count_app, count_dispose_0, count_open_0
        by reflexivity. reflexivity. }
    destruct r as [paths|e|].
    - destruct (rescan_resolved W1 fuel1 s paths s' Hrun)
        as (_ & _ & hs & d & k & _ & _ & _ & _ & _ & _ & _ & _ & Hcalm & _
            & Hlog & _).
      rewrite Hlog. rewrite !count_app, count_dispose_0, count_open_0
        by reflexivity.
      change (AEmit (EvWatch paths) :: d) with ([AEmit (EvWatch paths)] ++ d).
      rewrite count_app, (count_calm is_scan d)
        by (assumption || (intros [] Ha; simpl in *; tauto)).
      reflexivity.
    - destruct (rescan_not_resolved W1 fuel1 s _ s' Hst Hrun)
        as (hs & _ & _ & _ & _ & _ & _ & Hlog & _); [discriminate|].
      rewrite Hlog. apply Hd.
    - destruct (rescan_not_resolved W1 fuel1 s _ s' Hst Hrun)
        as (hs & _ & _ & _ & _ & _ & _ & Hlog & _); [discriminate|].
      rewrite Hlog. apply Hd. }
  destruct (state s); [exact Hre | lia | congruence].
Qed.

Lemma second_watch_is_noop_witness :
  state fresh_a <> closed /\
  watch a_alone 3 (snd (watch a_imports_b 3 fresh_a))
  = (Resolved None, snd (watch a_imports_b 3 fresh_a)) /\
  count is_scan
    (log (snd (watch a_alone 3 (snd (watch a_imports_b 3 fresh_a)))))
  = count is_scan (log fresh_a)
    + match state fresh_a with watching => 0 | _ => 1 end.
Proof.
  assert (H : state fresh_a <> closed) by (simpl; discriminate).
  split; [exact H|].
  exact (second_watch_is_noop a_imports_b 3 a_alone 3 fresh_a H).
Defined.

(** C3, where the code departs from it.  A [watch] that rejects on a
    ready watcher leaves the state [watching], not [ready]: [rescan]
    assigns the state before it awaits the scan and nothing restores
    it.  The failed call installs no handles and emits no watch event,
    and the next [watch] resolves to [undefined] without watching. *)
Theorem failed_watch_leaves_watching W fuel s e :
  state s = ready -> fst (watch W fuel s) = Rejected e ->
  let s' := snd (watch W fuel s) in
  state s' = watching /\
  watchers s' = watchers s /\
  count (is_emit on_watch) (log s') = count (is_emit on_watch) (log s) /\
  watch W fuel s' = (Resolved None, s').
Proof.
  intros Hready Hrej s'.
  assert (Hst : state s <> closed) by congruence.
  assert (Hw : state s' = watching) by (apply watch_state; assumption).
  split; [exact Hw|].
  assert (Hno : watch W fuel s' = (Resolved None, s'))
    by (unfold watch; rewrite Hw; reflexivity).
  split; [|split; [|exact Hno]]; unfold s'; rewrite watch_snd, Hready;
    unfold watch in Hrej; rewrite Hready in Hrej;
    destruct (rescan W fuel s) as [r s1] eqn:Hrun;
    destruct r as [paths|e1|]; try discriminate; simpl;
    destruct (rescan_not_resolved W fuel s _ s1 Hst Hrun)
      as (hs & _ & Hws & _ & _ & _ & _ & Hlog & _); try discriminate.
  - exact Hws.
  - rewrite Hlog, !count_app, count_dispose_0, count_open_0 by reflexivity.
    simpl. lia.
Qed.

(** The entry path of the test "throws when given an invalid
    entrypoint", on a disk where it is missing. *)
Definition missing_entry : string := "./!not!a!real!file!".
Definition empty_disk : World := tree nothing [].
Definition fresh_missing : Sys := new_DependencyWatcher [missing_entry].

Lemma failed_watch_leaves_watching_witness :
  state fresh_missing = ready /\
  fst (watch empty_disk 2 fresh_missing)
  = Rejected (WatchENOENT missing_entry) /\
  state (snd (watch empty_disk 2 fresh_missing)) = watching /\
  watchers (snd (watch empty_disk 2 fresh_missing))
  = watchers fresh_missing /\
  count (is_emit on_watch) (log (snd (watch empty_disk 2 fresh_missing)))
  = count (is_emit on_watch) (log fresh_missing) /\
  watch empty_disk 2 (snd (watch empty_disk 2 fresh_missing))
  = (Resolved None, snd (watch empty_disk 2 fresh_missing)).
Proof.
  split; [reflexivity|]. split; [reflexivity|].
  exact (failed_watch_leaves_watching empty_disk 2 fresh_missing
           (WatchENOENT missing_entry) eq_refl eq_refl).
Defined.

(** When [fs.watch] throws on a later path, the handles already made
    stay open and the watcher does not hold them: [close] cannot
    dispose them. *)
Definition only_a : World := tree (String.eqb "/a.ts") [].

Example failed_subscription_leaves_handle_open :
  fst (watch only_a 2 (new_DependencyWatcher ["/a.ts"; "/gone.ts"]))
  = Rejected (WatchENOENT "/gone.ts") /\
  watchers (snd (watch only_a 2 (new_DependencyWatcher ["/a.ts"; "/gone.ts"])))
  = [] /\
  active (close (snd (watch only_a 2
                        (new_DependencyWatcher ["/a.ts"; "/gone.ts"]))))
  = [{| watcher_id := 0; watcher_path := "/a.ts" |}].
Proof. vm_compute. repeat split; reflexivity. Qed.

(** The same after a scan that fails: the two-file cycle. *)
Example failed_scan_leaves_watching :
  watch two_cycle 4 (new_DependencyWatcher ["/a.ts"])
  = (Rejected (ScanRejected (CyclicImport "/a.ts" ["/b.ts"])),
     scanning (new_DependencyWatcher ["/a.ts"])) /\
  state (scanning (new_DependencyWatcher ["/a.ts"])) = watching.
Proof. split; reflexivity. Qed.

Lemma scanLoop_NoDup W fuel : forall a f paths,
  scanLoop W fuel a f = Done paths -> NoDup paths.
Proof.
  induction fuel as [|fuel IH]; intros a f paths Hrun.
  - destruct f; [|discriminate]. injection Hrun as <-. apply of_list_NoDup.
  - destruct f as [|kv f]; [injection Hrun as <-; apply of_list_NoDup|].
    rewrite scanLoop_S in Hrun by discriminate.
    destruct (mergePaths a (kv :: f)); [discriminate|].
    destruct (findImportsOnce W _); [discriminate|].
    eapply IH; eassumption.
Qed.






(** The end of the scenario: after the import is removed and [rescan]
    is called, only [/a.ts] is watched and the handle on [/b.ts] is
    disposed. *)
Example rescan_drops_removed_import :
  let s1 := snd (rescan a_imports_b 3 (new_DependencyWatcher ["/a.ts"])) in
  let s2 := snd (rescan a_alone 3 s1) in
  map watcher_path (active s1) = ["/a.ts"; "/b.ts"] /\
  map watcher_path (active s2) = ["/a.ts"] /\
  forall h, In h (watchers s1) -> ~ In h (active s2).
Proof.
  split; [vm_compute; reflexivity|]. split; [vm_compute; reflexivity|].
  intros h Hh Hin. vm_compute in Hh, Hin.
  destruct Hh as [<-|[<-|[]]]; destruct Hin as [H|[]]; discriminate.
Qed.

(** What [close] does to a watcher that is not closed. *)
Lemma close_open s :
  state s <> closed ->
  exists d,
    Forall calm d /\
    state (close s) = closed /\
    listeners (close s) = [] /\
    watchers (close s) = watchers s /\
    log (close s)
    = log s ++ map ADispose (watchers s) ++ AEmit EvClose :: d /\
    active (close s)
    = apply_actions d
        (apply_actions (map ADispose (watchers s)) (active s)) /\
    pending (close s)
    = pending s
      ++ seq (next_build s) (builders (called_by on_close (listeners s))) /\
    next_build (close s)
    = next_build s + builders (called_by on_close (listeners s)) /\
    filter is_build d
    = map ABuild
        (seq (next_build s) (builders (called_by on_close (listeners s)))).
Proof.
  intros Hst.
  assert (Hclose : close s
    = set_listeners []
        (emit run_listener EvClose
           (set_state closed (dispose_all (watchers s) s)))).
  { unfold close. destruct (state s); try reflexivity. congruence. }
  destruct (effect_dispose_all (watchers s) s)
    as (A1 & A2 & A3 & A4 & A5 & A6 & A7 & A8 & A9 & _).
  destruct (emit_effect EvClose
              (set_state closed (dispose_all (watchers s) s)))
    as (d & E1 & E2 & E3 & E4 & E5 & E6 & E7 & E8 & E9 & E10 & E11).
  simpl in E1, E2, E3, E4, E5, E6, E7, E8, E9, E11.
  exists d. rewrite Hclose. simpl.
  rewrite E2, E3, E6, E7, E8, E9, E11, A2, A4, A6, A7, A8, A9.
  simpl. rewrite !app_nil_r, Nat.add_0_r, <- !app_assoc.
  repeat split; try reflexivity. assumption.
Qed.

Lemma count_dispose_of_In h ws :
  In h ws -> 1 <= count (is_dispose_of h) (map ADispose ws).
Proof.
  induction ws as [|w ws IH]; intros Hin; [contradiction|].
  unfold count in *. simpl. destruct Hin as [->|Hin].
  - rewrite FSWatcher_eqb_refl. simpl. lia.
  - specialize (IH Hin). destruct (FSWatcher_eqb h w); simpl; lia.
Qed.

(** C6 as the code has it.  On a watcher that is not closed, a first
    [close] emits exactly one close event, calls [dispose] at least
    once on every handle the watcher holds and leaves none of them
    open; a second [close] is a no-op: with it the log, and so the
    number of close events and of disposals, is what the first call
    left. *)
Theorem close_is_idempotent s :
  state s <> closed ->
  close (close s) = close s /\
  state (close s) = closed /\
  exists d,
    log (close (close s)) = log s ++ d /\
    count (is_emit on_close) d = 1 /\
    forall h, In h (watchers s) ->
      1 <= count (is_dispose_of h) d /\ ~ In h (active (close s)).
Proof.
  intros Hst.
  destruct (close_open s Hst)
    as (d & Hcalm & Hstate & _ & _ & Hlog & Hact & _).
  assert (Hagain : close (close s) = close s)
    by (unfold close at 1; now rewrite Hstate).
  split; [exact Hagain|]. split; [exact Hstate|].
  exists (map ADispose (watchers s) ++ AEmit EvClose :: d).
  rewrite Hagain. split; [exact Hlog|]. split.
  - rewrite count_app, count_dispose_0 by reflexivity.
    change (AEmit EvClose :: d) with ([AEmit EvClose] ++ d).
    rewrite count_app, (count_calm (is_emit on_close) d)
      by (assumption || (intros [] Ha; simpl in *; tauto)).
    reflexivity.
  - intros h Hh. split.
    + rewrite count_app. pose proof (count_dispose_of_In h _ Hh). lia.
    + rewrite Hact. intros Hin.
      apply (apply_calm_incl d _ Hcalm) in Hin.
      apply apply_dispose_In in Hin. tauto.
Qed.

(** The watcher of the scenario after its first [watch]. *)
Definition watching_a_b : Sys := snd (watch a_imports_b 3 fresh_a).

Lemma close_is_idempotent_witness :
  state watching_a_b <> closed /\
  close (close watching_a_b) = close watching_a_b /\
  state (close watching_a_b) = closed /\
  exists d,
    log (close (close watching_a_b)) = log watching_a_b ++ d /\
    count (is_emit on_close) d = 1 /\
    forall h, In h (watchers watching_a_b) ->
      1 <= count (is_dispose_of h) d /\ ~ In h (active (close watching_a_b)).
Proof.
  assert (H : state watching_a_b <> closed) by (vm_compute; discriminate).
  split; [exact H|].
  exact (close_is_idempotent watching_a_b H).
Defined.

(** C6 as it is written: every handle ever made has [dispose] called on
    it exactly once. *)
Definition disposed_exactly_once (s : Sys) : Prop :=
  forall h, In (AOpen h) (log s) -> count (is_dispose_of h) (log s) = 1.

(** After one [watch] a single [close] already calls [dispose] twice on
    each handle: once in its own loop and once in the listener that
    [rescan] left on the close event. *)
Lemma close_disposes_twice :
  In (AOpen {| watcher_id := 0; watcher_path := "/a.ts" |})
     (log (close (close watching_a_b))) /\
  count (is_dispose_of {| watcher_id := 0; watcher_path := "/a.ts" |})
        (log (close (close watching_a_b))) = 2 /\
  ~ disposed_exactly_once (close (close watching_a_b)).
Proof.
  assert (Hin : In (AOpen {| watcher_id := 0; watcher_path := "/a.ts" |})
                  (log (close (close watching_a_b))))
    by (vm_compute; tauto).
  split; [exact Hin|]. split; [vm_compute; reflexivity|].
  intros H. specialize (H _ Hin). vm_compute in H. discriminate.
Qed.

(** *** The build trigger *)

Local Open Scope nat_scope.

Definition is_build_of (id : nat) (a : Action) : bool :=
  match a with ABuild i => Nat.eqb i id | _ => false end.

(** One for the first watch event of the session, if there was one. *)
Definition first_watch (l : list Action) : nat :=
  Nat.min 1 (count (is_emit on_watch) l).

(** The builds a session calls for: one for its first watch event and
    one for each change event. *)
Definition triggers (l : list Action) : nat :=
  first_watch (session l) + count (is_emit on_change) (session l).

Lemma count_cons p a l :
  count p (a :: l) = (if p a then 1 else 0) + count p l.
Proof. unfold count. simpl. destruct (p a); reflexivity. Qed.

Lemma count_session_le p l : count p (session l) <= count p l.
Proof.
  induction l as [|a l IH]; [apply Nat.le_refl|].
  destruct a as [x|x|x|ev|x];
    try (simpl session; rewrite !count_cons; lia).
  destruct ev; try (simpl session; rewrite !count_cons; lia).
  simpl session. unfold count at 1. simpl. lia.
Qed.

Lemma triggers_quiet l D :
  count (is_emit on_watch) D = 0 -> count (is_emit on_change) D = 0 ->
  triggers (l ++ D) = triggers l.
Proof.
  intros Hw Hc. unfold triggers, first_watch.
  destruct (Nat.eq_dec (count (is_emit on_close) l) 0) as [H0|H0].
  - rewrite session_open by assumption. rewrite !count_app.
    pose proof (count_session_le (is_emit on_watch) D).
    pose proof (count_session_le (is_emit on_change) D).
    rewrite (session_no_close l H0).
    replace (count (is_emit on_watch) (session D)) with 0 by lia.
    replace (count (is_emit on_change) (session D)) with 0 by lia.
    now rewrite !Nat.add_0_r.
  - now rewrite session_over.
Qed.

Lemma triggers_open l D :
  count (is_emit on_close) l = 0 -> count (is_emit on_close) D = 0 ->
  triggers (l ++ D)
  = Nat.min 1 (count (is_emit on_watch) l + count (is_emit on_watch) D)
    + (count (is_emit on_change) l + count (is_emit on_change) D).
Proof.
  intros Hl HD. unfold triggers, first_watch.
  rewrite session_open, (session_no_close D HD), !count_app by assumption.
  reflexivity.
Qed.

Lemma triggers_no_close l :
  count (is_emit on_close) l = 0 ->
  triggers l
  = Nat.min 1 (count (is_emit on_watch) l) + count (is_emit on_change) l.
Proof.
  intros H. unfold triggers, first_watch. now rewrite session_no_close.
Qed.

(** **** Listeners that begin a build *)

Lemma EventName_eqb_eq a b : EventName_eqb a b = true <-> a = b.
Proof. destruct a, b; simpl; split; congruence. Qed.

Definition shape (ls : list Listener) : Prop :=
  forall l, In l ls -> is_builder l = true ->
    (l_event l = on_watch /\ l_once l = true) \/
    (l_event l = on_change /\ l_once l = false).

Lemma shape_kept name ls : shape ls -> shape (kept_after name ls).
Proof.
  intros H l Hl. apply H. unfold kept_after in Hl.
  apply filter_In in Hl. tauto.
Qed.

Lemma shape_app ls l :
  shape ls -> is_builder l = false -> shape (ls ++ [l]).
Proof.
  intros H Hl l' Hin Hb. apply in_app_iff in Hin.
  destruct Hin as [Hin|[<-|[]]]; [now apply H | congruence].
Qed.

Lemma builders_app a b : builders (a ++ b) = builders a + builders b.
Proof. unfold builders. now rewrite filter_app, length_app. Qed.

Lemma called_by_app name a b :
  called_by name (a ++ b) = called_by name a ++ called_by name b.
Proof. unfold called_by. apply filter_app. Qed.

Lemma builders_called_app name ls l :
  is_builder l = false ->
  builders (called_by name (ls ++ [l])) = builders (called_by name ls).
Proof.
  intros Hl. rewrite called_by_app, builders_app.
  unfold called_by, builders. simpl.
  destruct (EventName_eqb (l_event l) name); simpl; [rewrite Hl|]; simpl; lia.
Qed.

Lemma builders_called_le name ls :
  builders (called_by name ls) <= builders ls.
Proof.
  induction ls as [|l ls IH]; [apply Nat.le_refl|].
  unfold called_by, builders in *. simpl.
  destruct (EventName_eqb (l_event l) name); simpl;
    destruct (is_builder l); simpl; lia.
Qed.

Lemma called_kept_other name name' ls :
  name <> name' -> called_by name (kept_after name' ls) = called_by name ls.
Proof.
  intros Hne. induction ls as [|l ls IH]; [reflexivity|].
  unfold called_by, kept_after in *. simpl.
  destruct (EventName_eqb (l_event l) name') eqn:E1; simpl.
  - apply EventName_eqb_eq in E1.
    assert (E2 : EventName_eqb (l_event l) name = false).
    { destruct (EventName_eqb (l_event l) name) eqn:E; [|reflexivity].
      apply EventName_eqb_eq in E. congruence. }
    destruct (l_once l); simpl; rewrite E2; exact IH.
  - destruct (EventName_eqb (l_event l) name); [f_equal|]; exact IH.
Qed.

Lemma builders_called_none name ls :
  shape ls -> name <> on_watch -> name <> on_change ->
  builders (called_by name ls) = 0.
Proof.
  intros Hs H1 H2. induction ls as [|l ls IH]; [reflexivity|].
  assert (Hs' : shape ls) by (intros l' Hl'; apply Hs; now right).
  specialize (IH Hs'). unfold called_by, builders in *. simpl.
  destruct (EventName_eqb (l_event l) name) eqn:E; [|exact IH].
  apply EventName_eqb_eq in E. simpl.
  destruct (is_builder l) eqn:Hb; [|exact IH].
  destruct (Hs l (or_introl eq_refl) Hb) as [[Hev _]|[Hev _]]; congruence.
Qed.

Lemma builders_called_kept_watch ls :
  shape ls -> builders (called_by on_watch (kept_after on_watch ls)) = 0.
Proof.
  intros Hs. induction ls as [|l ls IH]; [reflexivity|].
  assert (Hs' : shape ls) by (intros l' Hl'; apply Hs; now right).
  specialize (IH Hs'). unfold called_by, kept_after, builders in *. simpl.
  destruct (EventName_eqb (l_event l) on_watch) eqn:E; simpl.
  - destruct (l_once l) eqn:Ho; simpl; [exact IH|].
    rewrite E. simpl. destruct (is_builder l) eqn:Hb; [|exact IH].
    apply EventName_eqb_eq in E.
    destruct (Hs l (or_introl eq_refl) Hb) as [[_ H]|[H _]]; congruence.
  - rewrite E. exact IH.
Qed.

Lemma builders_called_kept_change ls :
  shape ls ->
  builders (called_by on_change (kept_after on_change ls))
  = builders (called_by on_change ls).
Proof.
  intros Hs. induction ls as [|l ls IH]; [reflexivity|].
  assert (Hs' : shape ls) by (intros l' Hl'; apply Hs; now right).
  specialize (IH Hs'). unfold called_by, kept_after, builders in *. simpl.
  destruct (EventName_eqb (l_event l) on_change) eqn:E; simpl.
  - destruct (l_once l) eqn:Ho; simpl.
    + destruct (is_builder l) eqn:Hb; [|exact IH].
      apply EventName_eqb_eq in E.
      destruct (Hs l (or_introl eq_refl) Hb) as [[H _]|[_ H]]; congruence.
    + rewrite E. simpl. destruct (is_builder l); simpl; now rewrite IH.
  - rewrite E. exact IH.
Qed.

(** **** The invariant of a build-watcher session

    Builds are numbered in the order of their invocation.  Every
    number below [next_build] was invoked once; it has one build event,
    or none while its promise is pending; the number of invocations is
    the number the session's events call for; and the listeners that
    begin a build are the [once] listener of the watch event, until
    that event is first emitted, and the listener of the change event,
    until the watcher is closed. *)
Record J (s : Sys) : Prop := {
  J_builds : count is_build (log s) = next_build s;
  J_ids : forall id,
    count (is_build_of id) (log s) = if id <? next_build s then 1 else 0;
  J_events : forall id,
    count (is_build_event_of id) (log s)
    + count_occ Nat.eq_dec (pending s) id
    = if id <? next_build s then 1 else 0;
  J_triggers : next_build s = triggers (log s);
  J_shape : shape (listeners s);
  J_open : state s <> closed ->
    count (is_emit on_close) (log s) = 0 /\
    builders (called_by on_change (listeners s)) = 1 /\
    builders (called_by on_watch (listeners s))
    = (if count (is_emit on_watch) (log s) =? 0 then 1 else 0);
  J_closed : state s = closed ->
    count (is_emit on_close) (log s) <> 0 /\ builders (listeners s) = 0
}.

Lemma interval_split n k id :
  (if id <? n then 1 else 0)
  + (if (n <=? id) && (id <? n + k) then 1 else 0)
  = (if id <? n + k then 1 else 0).
Proof.
  destruct (Nat.ltb_spec id n), (Nat.leb_spec n id),
    (Nat.ltb_spec id (n + k)); simpl; lia.
Qed.

Lemma count_occ_seq k : forall n id,
  count_occ Nat.eq_dec (seq n k) id
  = if (n <=? id) && (id <? n + k) then 1 else 0.
Proof.
  induction k as [|k IH]; intros n id; simpl.
  - destruct (Nat.leb_spec n id), (Nat.ltb_spec id (n + 0)); simpl; lia.
  - rewrite IH. destruct (Nat.eq_dec n id) as [->|Hne].
    + destruct (Nat.leb_spec (S id) id), (Nat.ltb_spec id (S id + k)),
        (Nat.leb_spec id id), (Nat.ltb_spec id (id + S k)); simpl; lia.
    + destruct (Nat.leb_spec (S n) id), (Nat.ltb_spec id (S n + k)),
        (Nat.leb_spec n id), (Nat.ltb_spec id (n + S k)); simpl; lia.
Qed.

Lemma count_build_of_seq id k : forall n,
  count (is_build_of id) (map ABuild (seq n k))
  = count_occ Nat.eq_dec (seq n k) id.
Proof.
  induction k as [|k IH]; intros n; [reflexivity|].
  simpl. rewrite count_cons, IH. simpl.
  destruct (Nat.eq_dec n id) as [->|Hne].
  - now rewrite Nat.eqb_refl.
  - apply Nat.eqb_neq in Hne. now rewrite Hne.
Qed.

Lemma count_filter_sub (p q : Action -> bool) l :
  (forall a, p a = true -> q a = true) ->
  count p (filter q l) = count p l.
Proof.
  intros Hpq. induction l as [|a l IH]; [reflexivity|].
  simpl. destruct (q a) eqn:Hq.
  - rewrite !count_cons. now rewrite IH.
  - rewrite count_cons, IH. destruct (p a) eqn:Hp; [|reflexivity].
    rewrite (Hpq a Hp) in Hq. discriminate.
Qed.

Lemma filter_build_dispose ws : filter is_build (map ADispose ws) = [].
Proof. induction ws; simpl; auto. Qed.

Lemma filter_build_open hs : filter is_build (map AOpen hs) = [].
Proof. induction hs; simpl; auto. Qed.

Lemma calm_no_emit name d : Forall calm d -> count (is_emit name) d = 0.
Proof. apply count_calm. intros [] Ha; simpl in *; tauto. Qed.

Lemma calm_no_build_event id d :
  Forall calm d -> count (is_build_event_of id) d = 0.
Proof. apply count_calm. intros [] Ha; simpl in *; tauto. Qed.

Lemma count_rescan_delta p ws scanned hs tail :
  (forall h, p (ADispose h) = false) -> (forall h, p (AOpen h) = false) ->
  p (AScan scanned) = false ->
  count p (map ADispose ws ++ [AScan scanned] ++ map AOpen hs ++ tail)
  = count p tail.
Proof.
  intros H1 H2 H3.
  rewrite !count_app, count_dispose_0, count_open_0, count_cons, H3
    by assumption.
  reflexivity.
Qed.

(** The invariant survives a step that begins [k] builds, answers none,
    and whose events call for [k] builds. *)
Lemma J_extend s s' D k :
  J s ->
  log s' = log s ++ D ->
  pending s' = pending s ++ seq (next_build s) k ->
  next_build s' = next_build s + k ->
  filter is_build D = map ABuild (seq (next_build s) k) ->
  (forall id, count (is_build_event_of id) D = 0) ->
  triggers (log s ++ D) = triggers (log s) + k ->
  shape (listeners s') ->
  (state s' <> closed ->
     count (is_emit on_close) (log s') = 0 /\
     builders (called_by on_change (listeners s')) = 1 /\
     builders (called_by on_watch (listeners s'))
     = (if count (is_emit on_watch) (log s') =? 0 then 1 else 0)) ->
  (state s' = closed ->
     count (is_emit on_close) (log s') <> 0 /\ builders (listeners s') = 0) ->
  J s'.
Proof.
  intros [B I E T S O C] Hlog Hpend Hnext Hfilter Hev Htrig Hshape Hopen
    Hclosed.
  constructor; try assumption.
  - rewrite Hlog, count_app, B, Hnext. f_equal.
    unfold count. now rewrite Hfilter, length_map, length_seq.
  - intros id. rewrite Hlog, count_app, I, Hnext.
    rewrite <- (count_filter_sub (is_build_of id) is_build D)
      by (intros []; simpl; congruence).
    rewrite Hfilter, count_build_of_seq, count_occ_seq.
    apply interval_split.
  - intros id. rewrite Hlog, count_app, Hev, Hpend, count_occ_app, Hnext.
    rewrite count_occ_seq, Nat.add_0_r, Nat.add_assoc, E.
    apply interval_split.
  - rewrite Hnext, Hlog, Htrig, T. reflexivity.
Qed.

Lemma J_calm s s' d : J s -> effect s s' d 0 -> J s'.
Proof.
  intros HJ (A1 & A2 & A3 & A4 & A5 & A6 & A7 & A8 & A9 & A10 & A11).
  apply (J_extend s s' d 0 HJ); try assumption.
  - intros id. now apply calm_no_build_event.
  - rewrite Nat.add_0_r. apply triggers_quiet; now apply calm_no_emit.
  - rewrite A4. apply (J_shape s HJ).
  - rewrite A3, A4, A6, !count_app, !(calm_no_emit _ d A10), !Nat.add_0_r.
    apply (J_open s HJ).
  - rewrite A3, A4, A6, count_app, (calm_no_emit _ d A10), Nat.add_0_r.
    apply (J_closed s HJ).
Qed.

Lemma J_rescan W fuel s : J s -> J (snd (rescan W fuel s)).
Proof.
  intros HJ. destruct (state s) eqn:Hstate.
  3:{ now rewrite rescan_closed. }
  all: assert (Hst : state s <> closed) by congruence.
  all: destruct (J_open s HJ Hst) as (Hc & Hb1 & Hb2).
  all: destruct (rescan W fuel s) as [r s'] eqn:Hrun; simpl.
  all: assert (Hunres : (forall paths, r <> Resolved paths) -> J s').
  1,3: intros Hr;
    destruct (rescan_not_resolved W fuel s r s' Hst Hrun Hr)
      as (hs & _ & _ & F3 & F4 & F5 & F6 & F7 & _);
    apply (J_extend s s'
             (map ADispose (watchers s) ++ [AScan (fullPaths s)]
                ++ map AOpen hs) 0 HJ);
    [ assumption
    | now rewrite F5, app_nil_r
    | now rewrite F6, Nat.add_0_r
    | now rewrite !filter_app, filter_build_dispose, filter_build_open
    | intros id; now rewrite !count_app, count_dispose_0, count_open_0
    | rewrite Nat.add_0_r; apply triggers_quiet;
      now rewrite !count_app, count_dispose_0, count_open_0
    | rewrite F4; apply (J_shape s HJ)
    | intros _; rewrite F4, F7, !count_app, !count_dispose_0,
        !count_open_0 by reflexivity; simpl; rewrite !Nat.add_0_r; tauto
    | intros Hcl; congruence ].
  all: destruct r as [paths|e|]; try (apply Hunres; discriminate).
  all: destruct (rescan_resolved W fuel s paths s' Hrun)
      as (_ & _ & hs & d & k & _ & _ & _ & G3 & G4 & G5 & G6 & G7 & G8
          & G9 & G10 & _).
  all: rewrite builders_called_app in G5 by reflexivity.
  all: assert (Hshape : shape (listeners s'))
      by (rewrite G4; apply shape_kept, shape_app;
          [apply (J_shape s HJ) | reflexivity]).
  all: assert (HD : forall name,
      count (is_emit name)
        (map ADispose (watchers s) ++ [AScan (fullPaths s)]
           ++ map AOpen hs ++ AEmit (EvWatch paths) :: d)
      = if EventName_eqb on_watch name then 1 else 0)
      by (intros name;
          rewrite count_rescan_delta, count_cons, (calm_no_emit name d G8)
            by reflexivity;
          simpl; apply Nat.add_0_r).
  all: apply (J_extend s s'
             (map ADispose (watchers s) ++ [AScan (fullPaths s)]
                ++ map AOpen hs ++ AEmit (EvWatch paths) :: d) k HJ);
    [ assumption | assumption | assumption
    | rewrite !filter_app, filter_build_dispose, filter_build_open;
      simpl; exact G9
    | intros id;
      rewrite count_rescan_delta, count_cons, (calm_no_build_event id d G8)
        by reflexivity;
      simpl; reflexivity
    | rewrite triggers_open, (triggers_no_close _ Hc), !HD
        by (assumption || apply HD); simpl;
      rewrite G5, Hb2;
      destruct (count (is_emit on_watch) (log s)); simpl; lia
    | assumption
    | intros _; rewrite G10, count_app, HD, G4; simpl;
      split; [lia|]; split;
      [ rewrite called_kept_other, builders_called_app
          by (discriminate || reflexivity); exact Hb1
      | rewrite builders_called_kept_watch
          by (apply shape_app; [apply (J_shape s HJ) | reflexivity]);
        rewrite count_app, HD; simpl;
        destruct (count (is_emit on_watch) (log s) + 1) eqn:E;
          [lia | reflexivity] ]
    | intros Hcl; congruence ].
Qed.

Lemma J_new entrypoints opts : J (new_BuildWatcher entrypoints opts).
Proof.
  destruct opts as [c q r]. unfold new_BuildWatcher. simpl.
  constructor.
  - destruct q, r; reflexivity.
  - intros id. destruct q, r; reflexivity.
  - intros id. destruct q, r; reflexivity.
  - destruct q, r; reflexivity.
  - intros l Hl Hb.
    destruct q, r; simpl in Hl;
      repeat (destruct Hl as [<-|Hl]; [simpl in *; try discriminate; tauto|]);
      contradiction.
  - intros _. destruct q, r; repeat split; reflexivity.
  - intros Hc. destruct q, r; discriminate.
Qed.

Lemma J_watch W fuel s : J s -> J (snd (watch W fuel s)).
Proof.
  intros HJ. rewrite watch_snd.
  destruct (state s); [now apply J_rescan | assumption | now apply J_rescan].
Qed.

Lemma J_close s : J s -> J (close s).
Proof.
  intros HJ. destruct (state s) eqn:Hstate.
  3:{ unfold close. now rewrite Hstate. }
  all: assert (Hst : state s <> closed) by congruence.
  all: destruct (J_open s HJ Hst) as (Hc & _).
  all: destruct (close_open s Hst)
      as (d & Hcalm & F1 & F2 & _ & F4 & _ & F6 & F7 & F8).
  all: rewrite (builders_called_none on_close (listeners s))
      in F6, F7, F8 by (apply (J_shape s HJ) || discriminate).
  all: apply (J_extend s (close s)
               (map ADispose (watchers s) ++ AEmit EvClose :: d) 0 HJ);
    [ assumption | assumption | assumption
    | rewrite filter_app, filter_build_dispose; simpl; exact F8
    | intros id;
      rewrite count_app, count_dispose_0, count_cons,
        (calm_no_build_event id d Hcalm) by reflexivity; reflexivity
    | rewrite Nat.add_0_r; apply triggers_quiet;
      rewrite count_app, count_dispose_0, count_cons,
        (calm_no_emit _ d Hcalm) by reflexivity; reflexivity
    | rewrite F2; intros l []
    | intros Hopen; congruence
    | intros _; rewrite F2, F4, !count_app, count_cons; simpl;
      split; [lia | reflexivity] ].
Qed.

Lemma builders_kept_le name ls :
  builders (kept_after name ls) <= builders ls.
Proof.
  induction ls as [|l ls IH]; [apply Nat.le_refl|].
  unfold kept_after, builders in *. simpl.
  destruct (negb (EventName_eqb (l_event l) name && l_once l)); simpl;
    destruct (is_builder l); simpl; lia.
Qed.

Lemma J_emitFileChanges h event filename s :
  J s -> J (emitFileChanges h event filename s).
Proof.
  intros HJ. unfold emitFileChanges.
  destruct (existsb (FSWatcher_eqb h) (active s)); [|assumption].
  destruct (emit_effect (EvChange event filename) s)
    as (d & E1 & E2 & E3 & E4 & E5 & E6 & E7 & E8 & E9 & E10 & E11).
  simpl in E1, E2, E3, E4, E5, E6, E7, E8, E9, E11.
  set (s' := emit run_listener (EvChange event filename) s) in *.
  set (k := builders (called_by on_change (listeners s))) in *.
  assert (HD : forall name,
    count (is_emit name) (AEmit (EvChange event filename) :: d)
    = if EventName_eqb on_change name then 1 else 0).
  { intros name. rewrite count_cons, (calm_no_emit name d E10). simpl.
    apply Nat.add_0_r. }
  assert (Hlog : log s' = log s ++ AEmit (EvChange event filename) :: d)
    by (rewrite E6, <- app_assoc; reflexivity).
  assert (Hshape : shape (listeners s'))
    by (rewrite E4; apply shape_kept, (J_shape s HJ)).
  destruct (state s) eqn:Hstate.
  3:{ destruct (J_closed s HJ Hstate) as (Hc & Hb).
      assert (Hk : k = 0)
        by (pose proof (builders_called_le on_change (listeners s)); lia).
      apply (J_extend s s' (AEmit (EvChange event filename) :: d) k HJ);
        try assumption.
      - intros id. rewrite count_cons, (calm_no_build_event id d E10).
        reflexivity.
      - rewrite Hk, Nat.add_0_r. unfold triggers.
        now rewrite session_over.
      - intros Hopen. congruence.
      - intros _. rewrite Hlog, count_app, E4. split; [lia|].
        pose proof (builders_kept_le on_change (listeners s)). lia. }
  all: assert (Hst : state s <> closed) by congruence.
  all: destruct (J_open s HJ Hst) as (Hc & Hb1 & Hb2).
  all: apply (J_extend s s' (AEmit (EvChange event filename) :: d) k HJ);
    [ assumption | assumption | assumption | simpl; exact E11
    | intros id; rewrite count_cons, (calm_no_build_event id d E10);
      reflexivity
    | rewrite triggers_open, (triggers_no_close _ Hc), !HD
        by (assumption || apply HD); cbn [EventName_eqb]; unfold k;
      rewrite Hb1; lia
    | assumption
    | intros _; rewrite Hlog, !count_app, !HD, E4; simpl;
      rewrite builders_called_kept_change, called_kept_other,
        !Nat.add_0_r by (apply (J_shape s HJ) || discriminate); tauto
    | intros Hcl; congruence ].
Qed.

Lemma J_on name once tag s :
  J s -> J (add_listener name once (UserListener tag) s).
Proof.
  intros [B I E T S O C]. constructor; try assumption.
  - simpl. now apply shape_app.
  - simpl. intros Hst. rewrite !builders_called_app by reflexivity.
    now apply O.
  - simpl. intros Hst. rewrite builders_app. simpl.
    destruct (C Hst). unfold builders at 2. simpl. lia.
Qed.

Lemma count_occ_filter_neq id l : forall id',
  count_occ Nat.eq_dec (filter (fun i => negb (Nat.eqb id i)) l) id'
  = if Nat.eqb id id' then 0 else count_occ Nat.eq_dec l id'.
Proof.
  intros id'. induction l as [|x l IH]; simpl.
  - now destruct (Nat.eqb id id').
  - destruct (Nat.eqb_spec id x) as [->|Hne]; simpl.
    + rewrite IH. destruct (Nat.eqb_spec x id') as [->|Hne'].
      * reflexivity.
      * destruct (Nat.eq_dec x id'); [congruence | reflexivity].
    + rewrite IH. destruct (Nat.eqb_spec id id') as [->|Hne'].
      * destruct (Nat.eq_dec x id'); [congruence | reflexivity].
      * reflexivity.
Qed.

(** The promise of a pending build resolves and its event is recorded,
    before any listener of the event runs. *)
Definition answered (id : nat) (out : BuildOutput) (s : Sys) : Sys :=
  set_listeners (kept_after on_build (listeners s))
    (record (AEmit (EvBuild id out))
       (set_pending (filter (fun i => negb (Nat.eqb id i)) (pending s)) s)).

Lemma J_answered id out s :
  J s -> In id (pending s) -> J (answered id out s).
Proof.
  intros HJ Hin. destruct HJ as [B I E T S O C].
  assert (Hnone : forall name, name <> on_build ->
            count (is_emit name) [AEmit (EvBuild id out)] = 0)
    by (intros []; intros H; try reflexivity; congruence).
  constructor; simpl.
  - rewrite count_app, B. unfold count. simpl. lia.
  - intros id'. rewrite count_app, I. unfold count. simpl. lia.
  - intros id'. rewrite count_app, count_occ_filter_neq.
    specialize (E id'). unfold count at 2. simpl.
    destruct (Nat.eqb_spec id id') as [<-|Hne]; simpl.
    + assert (Hpos : count_occ Nat.eq_dec (pending s) id > 0)
        by now apply count_occ_In.
      destruct (id <? next_build s); lia.
    + lia.
  - rewrite T. symmetry. apply triggers_quiet; reflexivity.
  - now apply shape_kept.
  - intros Hst. destruct (O Hst) as (Hc & Hb1 & Hb2).
    rewrite !count_app, !Hnone, !Nat.add_0_r by discriminate.
    rewrite !called_kept_other by discriminate. tauto.
  - intros Hst. destruct (C Hst) as (Hc & Hb).
    rewrite count_app. split; [lia|].
    pose proof (builders_kept_le on_build (listeners s)). lia.
Qed.

Lemma J_run_build_listener W fuel h s :
  h <> BuildAndEmit -> J s -> J (run_build_listener W fuel h s).
Proof.
  intros Hh HJ. destruct h; simpl; try assumption.
  - apply (J_calm s _ _ HJ (effect_dispose_all (watchers s) s)).
  - congruence.
  - now apply J_rescan.
Qed.

Lemma J_run_build_listeners W fuel ls : forall s,
  (forall l, In l ls -> is_builder l = false) -> J s ->
  J (fold_left (fun s l => run_build_listener W fuel (l_handler l) s) ls s).
Proof.
  induction ls as [|l ls IH]; intros s Hls HJ; [assumption|].
  simpl. apply IH; [intros l' Hl'; apply Hls; now right|].
  apply J_run_build_listener; [|assumption].
  intros Hb. specialize (Hls l (or_introl eq_refl)).
  unfold is_builder in Hls. rewrite Hb in Hls. discriminate.
Qed.

Lemma J_build_done W fuel id out s : J s -> J (build_done W fuel id out s).
Proof.
  intros HJ. unfold build_done.
  destruct (existsb (Nat.eqb id) (pending s)) eqn:Hp; [|assumption].
  apply existsb_exists in Hp. destruct Hp as [i [Hi Heq]].
  apply Nat.eqb_eq in Heq. subst i.
  change (J (fold_left
               (fun s l => run_build_listener W fuel (l_handler l) s)
               (called_by on_build (listeners s))
               (answered id out s))).
  apply J_run_build_listeners; [|now apply J_answered].
  intros l Hl. unfold called_by in Hl. apply filter_In in Hl.
  destruct Hl as [Hl Hev]. apply EventName_eqb_eq in Hev.
  destruct (is_builder l) eqn:Hb; [|reflexivity].
  destruct (J_shape s HJ l Hl Hb) as [[H _]|[H _]]; congruence.
Qed.

Lemma J_step st s : J s -> J (step st s).
Proof.
  intros HJ. destruct st; simpl.
  - now apply J_watch.
  - now apply J_rescan.
  - now apply J_close.
  - now apply J_on.
  - now apply J_emitFileChanges.
  - now apply J_build_done.
Qed.

Lemma J_run sts : forall s, J s -> J (run sts s).
Proof.
  induction sts as [|st sts IH]; intros s HJ; [assumption|].
  simpl. apply IH. now apply J_step.
Qed.


(** The test "rescan() can run multiple times": two calls of [rescan]
    on a build watcher, the build of the first completing in between,
    give two watch events and one build. *)
Example build_watcher_rescan_twice :
  let opts := {| clearScreen := true; quiet := true; opt_rescan := false |} in
  let out := {| success := true; outputs := []; logs := [] |} in
  let s := run [CallRescan a_alone 3; BuildDone a_alone 3 0 out;
                CallRescan a_alone 3]
               (new_BuildWatcher ["/a.ts"] opts) in
  count is_build (log s) = 1 /\
  count (is_emit on_watch) (log s) = 2 /\
  count (is_emit on_build) (log s) = 1.
Proof. vm_compute. repeat split; reflexivity. Qed.

(** *** Entry paths *)

Close Scope nat_scope.

(** The file an error of the scan is about. *)
Definition blamed (err : ScanError) : string :=
  match err with
  | CyclicImport parentPath _ => parentPath
  | ScanFailure parentPath => parentPath
  | ResolveFailure _ parentPath => parentPath
  end.

Lemma scanParent_blames W p err :
  scanParent W p = inl err -> blamed err = p.
Proof.
  unfold scanParent.
  destruct (negb (extRegex_matches p)); [discriminate|].
  destruct (negb (file_exists W p)); [discriminate|].
  destruct (scanImports W p) as [imports| |]; try discriminate.
  - destruct (resolveImports W p imports) as [e|] eqn:Hres; [|discriminate].
    intros [= <-]. revert Hres.
    induction imports as [|i rest IH]; simpl; [discriminate|].
    destruct (resolveSync W i p); [|intros [= <-]; reflexivity].
    destruct (resolveImports W p rest); [|discriminate].
    intros [= <-]. now apply IH.
  - intros [= <-]. reflexivity.
Qed.

Lemma scanParent_skips W e :
  file_exists W e = false \/ extRegex_matches e = false ->
  scanParent W e = inr None.
Proof.
  intros [H|H]; unfold scanParent; rewrite H; simpl; [|reflexivity].
  destruct (negb (extRegex_matches e)); reflexivity.
Qed.

Lemma findImports_skipped_alone W e fuel :
  scanParent W e = inr None -> findImports W (S fuel) [e] = Done [e].
Proof.
  intros Hskip. unfold findImports.
  change (JsSet.of_list [e]) with [e].
  change (PathsMap.set EmptyString [e] []) with [(EmptyString, [e])].
  rewrite scanLoop_S by discriminate.
  change (mergePaths [] [(EmptyString, [e])])
    with (@inr ScanError _ [(EmptyString, [e])]).
  change (JsSet.of_list (PathsMap.flat_values [(EmptyString, [e])]))
    with [e].
  unfold findImportsOnce. simpl scanParents. rewrite Hskip.
  change (PathsMap.of_entries []) with (@nil (string * JsSet.t)).
  destruct fuel; reflexivity.
Qed.

(** C10.  An entry path that does not exist, or whose name has none of
    the four extensions, is never checked by the scan.  The expansion
    step skips it without an error; scanned alone it is the whole
    result; among other entries it is in every set the scan returns
    and no error of the scan is about it; and the scan does not look at
    its imports, the outcome being the same whatever the file is taken
    to import.  A missing entry makes the call fail only when the
    notifier is subscribed to it; an existing one with another
    extension is watched. *)
Theorem entry_paths_not_validated W e :
  file_exists W e = false \/ extRegex_matches e = false ->
  scanParent W e = inr None /\
  (forall fuel, findImports W (S fuel) [e] = Done [e]) /\
  (forall entries fuel, In e entries ->
     (forall paths,
         findImports W fuel entries = Done paths -> In e paths) /\
     (forall err,
         findImports W fuel entries = Failed err -> blamed err <> e)) /\
  (forall W',
     (forall p, file_exists W' p = file_exists W p) ->
     excludeGlobs W' = excludeGlobs W ->
     (forall p, p <> e -> scanImports W' p = scanImports W p) ->
     (forall specifier p,
         p <> e -> resolveSync W' specifier p = resolveSync W specifier p) ->
     forall fuel entries,
       findImports W' fuel entries = findImports W fuel entries) /\
  (file_exists W e = false ->
   forall fuel,
     fst (rescan W (S fuel) (new_DependencyWatcher [e]))
     = Rejected (WatchENOENT e)) /\
  (file_exists W e = true ->
   forall fuel,
     fst (rescan W (S fuel) (new_DependencyWatcher [e])) = Resolved [e]).
Proof.
  intros Hcond. pose proof (scanParent_skips W e Hcond) as Hskip.
  split; [exact Hskip|].
  split; [intros fuel; now apply findImports_skipped_alone|].
  split; [|split; [|split]].
  - intros entries fuel Hin. split.
    + intros paths Hrun.
      apply (findImports_Done_reachable W entries fuel paths Hrun).
      now apply reachable_entry.
    + intros err Hrun Hb.
      assert (Hok : error_ok W entries err).
      { unfold findImports in Hrun.
        eapply scanLoop_Failed_ok; [apply Inv_initial | exact Hrun]. }
      destruct err as [p rep | p | sp p]; simpl in Hb, Hok; subst.
      * destruct Hok as (_ & _ & ks & Hs & _). unfold scans in Hs.
        congruence.
      * destruct Hok as (q & _ & Hq).
        pose proof (scanParent_blames W q _ Hq) as Hbl. simpl in Hbl.
        subst. congruence.
      * destruct Hok as (q & _ & Hq).
        pose proof (scanParent_blames W q _ Hq) as Hbl. simpl in Hbl.
        subst. congruence.
  - intros W' Hex Hglobs Hscan Hres fuel entries. unfold findImports.
    apply scanLoop_ext. intros p.
    destruct (string_dec p e) as [->|Hne].
    + rewrite Hskip. apply scanParent_skips.
      destruct Hcond as [H|H]; [left; now rewrite Hex | now right].
    + unfold scanParent. rewrite Hex, (Hscan p Hne).
      destruct (negb (extRegex_matches p)); [reflexivity|].
      destruct (negb (file_exists W p)); [reflexivity|].
      destruct (scanImports W p) as [imports| |]; try reflexivity.
      assert (E : resolveImports W' p imports = resolveImports W p imports).
      { induction imports as [|i rest IH]; [reflexivity|].
        cbn [resolveImports]. rewrite (Hres i p Hne), IH.
        destruct (resolveSync W i p); [|reflexivity].
        unfold keeps. now rewrite Hglobs, Hex. }
      now rewrite E.
  - intros Hmissing fuel.
    rewrite rescan_unfold by (simpl; discriminate).
    cbn [fullPaths new_DependencyWatcher].
    rewrite (findImports_skipped_alone W e fuel Hskip).
    cbn [subscribe]. unfold fs_watch. now rewrite Hmissing.
  - intros Hthere fuel.
    rewrite rescan_unfold by (simpl; discriminate).
    cbn [fullPaths new_DependencyWatcher].
    rewrite (findImports_skipped_alone W e fuel Hskip).
    cbn [subscribe]. unfold fs_watch. now rewrite Hthere.
Qed.

Lemma entry_paths_not_validated_witness :
  (file_exists empty_disk missing_entry = false \/
   extRegex_matches missing_entry = false) /\
  scanParent empty_disk missing_entry = inr None /\
  (forall fuel,
      findImports empty_disk (S fuel) [missing_entry]
      = Done [missing_entry]) /\
  (forall entries fuel, In missing_entry entries ->
     (forall paths,
         findImports empty_disk fuel entries = Done paths ->
         In missing_entry paths) /\
     (forall err,
         findImports empty_disk fuel entries = Failed err ->
         blamed err <> missing_entry)) /\
  (forall W',
     (forall p, file_exists W' p = file_exists empty_disk p) ->
     excludeGlobs W' = excludeGlobs empty_disk ->
     (forall p, p <> missing_entry ->
                scanImports W' p = scanImports empty_disk p) ->
     (forall specifier p,
         p <> missing_entry ->
         resolveSync W' specifier p = resolveSync empty_disk specifier p) ->
     forall fuel entries,
       findImports W' fuel entries = findImports empty_disk fuel entries) /\
  (file_exists empty_disk missing_entry = false ->
   forall fuel,
     fst (rescan empty_disk (S fuel) (new_DependencyWatcher [missing_entry]))
     = Rejected (WatchENOENT missing_entry)) /\
  (file_exists empty_disk missing_entry = true ->
   forall fuel,
     fst (rescan empty_disk (S fuel) (new_DependencyWatcher [missing_entry]))
     = Resolved [missing_entry]).
Proof.
  assert (H : file_exists empty_disk missing_entry = false \/
              extRegex_matches missing_entry = false)
    by (left; reflexivity).
  split; [exact H|].
  exact (entry_paths_not_validated empty_disk missing_entry H).
Defined.

End WatcherProps.

(** ** More on the scanner

    What [findImportsOnce], [mergePaths] and the extension test do on
    their own, and what follows for the set [findImports] returns. *)

Module ScannerLaws.
Import Scanner JsSetFacts PathsMapFacts ScannerFacts ScannerProps.

(** [/app.ts] imports a sibling, a package and a file that is gone;
    the package sits under the excluded [/node_modules/]. *)
Definition vendored : World :=
  {| file_exists := fun p => negb (String.eqb p "/gone.ts");
     scanImports := fun p =>
       if String.eqb p "/app.ts" then Imports ["./lib"; "react"; "./gone"]
       else Imports [];
     resolveSync := fun specifier _ =>
       if String.eqb specifier "./lib" then Some "/lib.ts"
       else if String.eqb specifier "react"
            then Some "/node_modules/react/index.js"
       else if String.eqb specifier "./gone" then Some "/gone.ts"
       else None;
     excludeGlobs := [String.prefix "/node_modules/"] |}.

(** [/app.ts] imports [/lib.ts], which imports a package that is not
    installed. *)
Definition dangling : World :=
  {| file_exists := fun _ => true;
     scanImports := fun p =>
       if String.eqb p "/app.ts" then Imports ["./lib"]
       else if String.eqb p "/lib.ts" then Imports ["left-pad"]
       else Imports [];
     resolveSync := fun specifier _ =>
       if String.eqb specifier "./lib" then Some "/lib.ts" else None;
     excludeGlobs := [] |}.

(** *** The paths that are kept *)

Lemma resolveImports_kept W p imports : forall rs,
  resolveImports W p imports = inr rs ->
  forall q, In q rs ->
    keeps W q = true /\
    exists specifier,
      In specifier imports /\ resolveSync W specifier p = Some q.
Proof.
  induction imports as [|i rest IH]; simpl; intros rs.
  - intros [= <-] q [].
  - destruct (resolveSync W i p) as [r|] eqn:Hr; [|discriminate].
    destruct (resolveImports W p rest) as [e|rs0]; [discriminate|].
    intros [= <-] q Hq.
    assert (Hrest : In q rs0 ->
              keeps W q = true /\
              exists specifier,
                (i = specifier \/ In specifier rest) /\
                resolveSync W specifier p = Some q).
    { intros H. destruct (IH rs0 eq_refl q H) as (Hk & sp & Hsp & Hres).
      split; [assumption|]. exists sp. tauto. }
    destruct (keeps W r) eqn:Hk; [|now apply Hrest].
    destruct Hq as [<-|Hq]; [|now apply Hrest].
    split; [assumption|]. exists i. tauto.
Qed.

(** What an edge of the graph is, in the terms of the source. *)
Lemma edge_inv W p q :
  edge W p q ->
  extRegex_matches p = true /\ file_exists W p = true /\
  keeps W q = true /\
  exists imports specifier,
    scanImports W p = Imports imports /\ In specifier imports /\
    resolveSync W specifier p = Some q.
Proof.
  intros (ks & Hs & Hq). unfold scans, scanParent in Hs.
  destruct (extRegex_matches p); [|discriminate].
  destruct (file_exists W p); [|discriminate]. simpl in Hs.
  destruct (scanImports W p) as [imports| |]; try discriminate.
  destruct (resolveImports W p imports) as [e|rs] eqn:Hres; [discriminate|].
  injection Hs as <-. rewrite of_list_In in Hq.
  destruct (resolveImports_kept W p imports rs Hres q Hq)
    as (Hk & sp & Hsp & Hr).
  repeat split; try assumption. now exists imports, sp.
Qed.

Lemma path_last W x q :
  clos_refl_trans_1n string (edge W) x q ->
  x = q \/
  exists p, clos_refl_trans_1n string (edge W) x p /\ edge W p q.
Proof.
  induction 1 as [x | x y z Hxy Hrest IH].
  - now left.
  - right. destruct IH as [<-|(p & Hp & Hpz)].
    + exists x. split; [apply Relation_Operators.rt1n_refl | assumption].
    + exists p. split; [|assumption].
      eapply Relation_Operators.rt1n_trans; eassumption.
Qed.

Lemma reachable_entry_or_edge W entries q :
  reachable W entries q ->
  In q entries \/ exists p, reachable W entries p /\ edge W p q.
Proof.
  intros (e & He & Hpath).
  destruct (path_last W e q Hpath) as [<-|(p & Hp & Hpq)]; [now left|].
  right. exists p. split; [|assumption]. now exists e.
Qed.

(** X1.  Every path the scan returns is an entry path or the resolved
    import of a returned file that was expanded; such a path exists on
    disk and no exclusion glob matches it.  Only entry paths escape the
    two tests. *)
Theorem findImports_returns_kept W entries fuel paths q :
  findImports W fuel entries = Done paths -> In q paths ->
  In q entries \/
  (file_exists W q = true /\
   (forall glob, In glob (excludeGlobs W) -> glob q = false) /\
   exists p imports specifier,
     In p paths /\ extRegex_matches p = true /\ file_exists W p = true /\
     scanImports W p = Imports imports /\ In specifier imports /\
     resolveSync W specifier p = Some q).
Proof.
  intros Hrun Hq.
  pose proof (findImports_Done_reachable W entries fuel paths Hrun) as Hiff.
  apply Hiff in Hq.
  destruct (reachable_entry_or_edge W entries q Hq) as [H|(p & Hp & Hpq)];
    [now left | right].
  destruct (edge_inv W p q Hpq)
    as (Hext & Hex & Hk & imports & sp & Hscan & Hsp & Hres).
  unfold keeps in Hk. apply andb_true_iff in Hk. destruct Hk as [Hg Hexq].
  split; [assumption|]. split.
  - intros glob Hglob. rewrite forallb_forall in Hg.
    specialize (Hg glob Hglob). now apply negb_true_iff in Hg.
  - exists p, imports, sp. rewrite Hiff. tauto.
Qed.

Lemma findImports_returns_kept_witness :
  findImports vendored 3 ["/app.ts"] = Done ["/app.ts"; "/lib.ts"] /\
  (In "/lib.ts" ["/app.ts"] \/
   (file_exists vendored "/lib.ts" = true /\
    (forall glob, In glob (excludeGlobs vendored) -> glob "/lib.ts" = false) /\
    exists p imports specifier,
      In p ["/app.ts"; "/lib.ts"] /\ extRegex_matches p = true /\
      file_exists vendored p = true /\
      scanImports vendored p = Imports imports /\ In specifier imports /\
      resolveSync vendored specifier p = Some "/lib.ts")).
Proof.
  assert (H : findImports vendored 3 ["/app.ts"]
              = Done ["/app.ts"; "/lib.ts"]) by (vm_compute; reflexivity).
  split; [exact H|].
  apply (findImports_returns_kept vendored ["/app.ts"] 3
           ["/app.ts"; "/lib.ts"] "/lib.ts" H).
  simpl. tauto.
Defined.

(** *** A collaborator that throws *)

Lemma scanParents_all_return W l cs :
  scanParents W l = inr cs ->
  forall p, In p l -> exists r, scanParent W p = inr r.
Proof.
  revert cs. induction l as [|p0 ps IH]; simpl; intros cs Hrun p Hp;
    [contradiction|].
  destruct (scanParent W p0) as [e|r] eqn:Hp0; [discriminate|].
  destruct (scanParents W ps) as [e|rs]; [discriminate|].
  destruct Hp as [<-|Hp]; [now exists r | now apply (IH rs)].
Qed.

Lemma thrower_in_frontier_fails W entries c err a f :
  scanParent W c = inl err ->
  Inv W entries a f -> In c (PathsMap.flat_values f) ->
  Fails W entries a f.
Proof.
  intros Hthrow HInv Hc.
  destruct (round_cases W entries _ _ (nonempty_of_flat _ _ Hc) HInv)
    as [HF | (a1 & f1 & _ & Hf1 & _)]; [assumption|].
  exfalso. unfold findImportsOnce in Hf1.
  destruct (scanParents W (JsSet.of_list (PathsMap.flat_values f)))
    as [e|cs] eqn:Hcs; [discriminate|].
  destruct (scanParents_all_return W _ cs Hcs c) as [r Hr].
  - now apply of_list_In.
  - congruence.
Qed.

(** The first import of the list that cannot be resolved is the one
    the file's scan throws on. *)
Lemma resolveImports_throws W p imports specifier :
  In specifier imports -> resolveSync W specifier p = None ->
  exists bad,
    In bad imports /\ resolveSync W bad p = None /\
    resolveImports W p imports = inl (ResolveFailure bad p).
Proof.
  induction imports as [|i rest IH]; simpl; [contradiction|].
  intros Hin Hnone.
  destruct (resolveSync W i p) as [r|] eqn:Hr.
  - destruct Hin as [->|Hin]; [congruence|].
    destruct (IH Hin Hnone) as (bad & Hb1 & Hb2 & ->).
    exists bad. tauto.
  - exists i. tauto.
Qed.

(** X2.  The imports of a file are resolved without a guard: when a
    file the scan can reach has an import that cannot be resolved, or
    its parse throws something other than a build error, the scan
    ends in an error after a bounded number of rounds, whatever the
    rest of the tree is, and with no more rounds does it return a
    set.  The error names a file the scan can reach. *)
Theorem reachable_throw_aborts_scan W entries p :
  reachable W entries p ->
  extRegex_matches p = true -> file_exists W p = true ->
  (scanImports W p = ThrowsOther \/
   exists imports specifier,
     scanImports W p = Imports imports /\ In specifier imports /\
     resolveSync W specifier p = None) ->
  exists n e,
    (forall fuel, n <= fuel -> findImports W fuel entries = Failed e) /\
    (forall fuel paths, findImports W fuel entries <> Done paths) /\
    error_ok W entries e.
Proof.
  intros Hreach Hext Hex Hcause.
  assert (Hthrow : exists err, scanParent W p = inl err).
  { unfold scanParent. rewrite Hext, Hex. simpl.
    destruct Hcause as [->|(imports & sp & -> & Hsp & Hnone)].
    - now eexists.
    - destruct (resolveImports_throws W p imports sp Hsp Hnone)
        as (bad & _ & _ & ->). now eexists. }
  destruct Hthrow as [err Hthrow].
  destruct Hreach as (e0 & He0 & Hpath).
  assert (HF : Fails W entries []
                 (PathsMap.set EmptyString (JsSet.of_list entries) [])).
  { apply (follow_path W entries (fun _ _ => True) p) with (x := e0); auto.
    - intros a f HInv Hc _.
      now apply thrower_in_frontier_fails with (c := p) (err := err).
    - apply Inv_initial.
    - unfold PathsMap.flat_values. simpl. rewrite app_nil_r.
      now apply of_list_In. }
  pose proof (Fails_never_Done W entries _ _ HF) as Hnever.
  destruct HF as (n & e & Hn & He). exists n, e.
  split; [exact Hn|]. split; [exact Hnever | exact He].
Qed.

Lemma dangling_reaches_lib : reachable dangling ["/app.ts"] "/lib.ts".
Proof.
  exists "/app.ts". split; [now left|].
  apply Relation_Operators.rt1n_trans with (y := "/lib.ts");
    [|apply Relation_Operators.rt1n_refl].
  exists ["/lib.ts"]. split; [vm_compute; reflexivity | now left].
Qed.

Lemma reachable_throw_aborts_scan_witness :
  exists n e,
    (forall fuel, n <= fuel -> findImports dangling fuel ["/app.ts"] = Failed e) /\
    (forall fuel paths, findImports dangling fuel ["/app.ts"] <> Done paths) /\
    error_ok dangling ["/app.ts"] e.
Proof.
  apply (reachable_throw_aborts_scan dangling ["/app.ts"] "/lib.ts").
  - exact dangling_reaches_lib.
  - vm_compute. reflexivity.
  - reflexivity.
  - right. exists ["left-pad"], "left-pad".
    split; [reflexivity|]. split; [now left | reflexivity].
Defined.

Example dangling_import_error :
  findImports dangling 2 ["/app.ts"]
  = Failed (ResolveFailure "left-pad" "/lib.ts").
Proof. vm_compute. reflexivity. Qed.

(** *** One round of the scan *)

(** X20.  One round, [findImportsOnce], either returns a map or
    throws what a collaborator threw on one of the paths it was
    given.  The map it returns has one entry for each given path that
    has a scanned extension, exists and parses, bound to the kept
    imports of that file without repetition, and no other entry:
    paths that fail one of the three tests are left out silently. *)
Theorem findImportsOnce_outcome W filePaths :
  match findImportsOnce W filePaths with
  | inr foundPaths =>
      NoDup (map fst foundPaths) /\
      (forall p ks, In (p, ks) foundPaths <->
                    In p filePaths /\ scanParent W p = inr (Some (p, ks))) /\
      (forall p ks, In (p, ks) foundPaths -> NoDup ks) /\
      (forall p, In p filePaths -> exists r, scanParent W p = inr r)
  | inl e => exists p, In p filePaths /\ scanParent W p = inl e
  end.
Proof.
  destruct (findImportsOnce W filePaths) as [e|found] eqn:Hrun.
  - now apply findImportsOnce_err.
  - destruct (findImportsOnce_ok W _ _ Hrun) as [H1 H2].
    unfold findImportsOnce in Hrun.
    destruct (scanParents W filePaths) as [e|cs] eqn:Hcs; [discriminate|].
    injection Hrun as <-.
    split; [apply of_entries_NoDup|]. split; [|split].
    + intros p ks. split; [apply H1 | intros [Hp Hs]; now apply H2].
    + intros p ks Hin. destruct (H1 p ks Hin) as [_ Hs].
      unfold scans, scanParent in Hs.
      destruct (negb (extRegex_matches p)); [discriminate|].
      destruct (negb (file_exists W p)); [discriminate|].
      destruct (scanImports W p) as [imports| |]; try discriminate.
      destruct (resolveImports W p imports) as [e|rs]; [discriminate|].
      injection Hs as <-. apply of_list_NoDup.
    + exact (scanParents_all_return W filePaths cs Hcs).
Qed.

(** *** The merge *)

(** The first entry of the frontier whose parent is on record with
    one of the children found again. *)
Definition clashes (allPaths : PathsMap.t) (entry : string * JsSet.t) : bool :=
  match PathsMap.get (fst entry) allPaths with
  | Some allChildPaths =>
      negb (JsSet.isDisjointFrom allChildPaths (snd entry))
  | None => false
  end.

(** What the map holds for [k] once the frontier is merged. *)
Definition merged_value (allPaths foundPaths : PathsMap.t) (k : string)
  : option JsSet.t :=
  match PathsMap.get k foundPaths, PathsMap.get k allPaths with
  | Some childPaths, Some allChildPaths =>
      Some (JsSet.union allChildPaths childPaths)
  | Some childPaths, None => Some childPaths
  | None, old => old
  end.

Lemma get_not_key k (m : PathsMap.t) :
  ~ In k (map fst m) -> PathsMap.get k m = None.
Proof.
  induction m as [|[k' v] m IH]; simpl; intros Hk; [reflexivity|].
  destruct (String.eqb k k') eqn:E.
  - apply String.eqb_eq in E. subst. tauto.
  - apply IH. tauto.
Qed.

Lemma forallb_agree {A} (f g : A -> bool) l :
  (forall x, In x l -> f x = g x) -> forallb f l = forallb g l.
Proof.
  induction l as [|x l IH]; simpl; intros H; [reflexivity|].
  rewrite (H x) by now left. f_equal. apply IH. intros y Hy. apply H.
  now right.
Qed.

Lemma clashes_set allPaths p v entry :
  fst entry <> p ->
  clashes (PathsMap.set p v allPaths) entry = clashes allPaths entry.
Proof.
  intros Hne. unfold clashes. now rewrite get_set_other.
Qed.

Lemma no_clash_cons allPaths p cs l :
  forallb (fun entry => negb (clashes allPaths entry)) ((p, cs) :: l) =
  negb match PathsMap.get p allPaths with
       | Some allChildPaths => negb (JsSet.isDisjointFrom allChildPaths cs)
       | None => false
       end &&
  forallb (fun entry => negb (clashes allPaths entry)) l.
Proof. reflexivity. Qed.

(** X3.  [mergePaths] on a frontier (a map: its keys are distinct)
    throws exactly when some parent of the frontier is already on
    record with a child in common; the error then names the first
    such parent, in the order of the frontier, with the children
    found twice.  Otherwise every parent of the frontier is bound to
    the union of what was on record and what was found, and no other
    key changes. *)
Theorem mergePaths_outcome foundPaths : forall allPaths,
  NoDup (map fst foundPaths) ->
  match mergePaths allPaths foundPaths with
  | inl e =>
      exists before parentPath childPaths rest allChildPaths,
        foundPaths = before ++ (parentPath, childPaths) :: rest /\
        forallb (fun entry => negb (clashes allPaths entry)) before = true /\
        PathsMap.get parentPath allPaths = Some allChildPaths /\
        JsSet.isDisjointFrom allChildPaths childPaths = false /\
        e = CyclicImport parentPath
              (JsSet.intersection allChildPaths childPaths)
  | inr allPaths' =>
      forallb (fun entry => negb (clashes allPaths entry)) foundPaths = true /\
      forall k, PathsMap.get k allPaths' = merged_value allPaths foundPaths k
  end.
Proof.
  induction foundPaths as [|[p cs] F IH]; intros allPaths Hnd.
  - simpl. split; [reflexivity|]. intros k. unfold merged_value. simpl.
    now destruct (PathsMap.get k allPaths).
  - simpl in Hnd. apply NoDup_cons_iff in Hnd. destruct Hnd as [HpF Hnd].
    assert (Hstep : forall v,
      match mergePaths (PathsMap.set p v allPaths) F with
      | inl e =>
          exists before parentPath childPaths rest allChildPaths,
            F = before ++ (parentPath, childPaths) :: rest /\
            forallb (fun entry => negb (clashes allPaths entry)) before
              = true /\
            PathsMap.get parentPath allPaths = Some allChildPaths /\
            JsSet.isDisjointFrom allChildPaths childPaths = false /\
            e = CyclicImport parentPath
                  (JsSet.intersection allChildPaths childPaths)
      | inr allPaths' =>
          forallb (fun entry => negb (clashes allPaths entry)) F = true /\
          forall k, PathsMap.get k allPaths' =
                    if String.eqb k p then Some v
                    else merged_value allPaths F k
      end).
    { intros v. specialize (IH (PathsMap.set p v allPaths) Hnd).
      assert (Hsame : forall l, incl l F ->
                forallb (fun entry =>
                           negb (clashes (PathsMap.set p v allPaths) entry)) l
                = forallb (fun entry => negb (clashes allPaths entry)) l).
      { intros l Hl. apply forallb_agree. intros entry Hin.
        rewrite clashes_set; [reflexivity|]. intros <-.
        apply HpF. apply in_map. now apply Hl. }
      destruct (mergePaths (PathsMap.set p v allPaths) F) as [e|a'].
      - destruct IH as (before & q & ks & rest & v0 & HF & Hb & Hg & Hd & He).
        exists before, q, ks, rest, v0.
        assert (Hq : q <> p).
        { intros ->. apply HpF. rewrite HF, map_app, in_app_iff.
          right. now left. }
        split; [assumption|]. split.
        + rewrite <- Hsame; [assumption|]. rewrite HF.
          intros x Hx. apply in_or_app. now left.
        + rewrite get_set_other in Hg by assumption. tauto.
      - destruct IH as [Hb Hk]. split.
        + rewrite <- Hsame; [assumption | apply incl_refl].
        + intros k. rewrite Hk. unfold merged_value.
          destruct (String.eqb k p) eqn:E.
          * apply String.eqb_eq in E. subst k.
            rewrite (get_not_key p F HpF). now rewrite get_set_same.
          * apply String.eqb_neq in E. now rewrite get_set_other. }
    cbn [mergePaths]. rewrite no_clash_cons.
    destruct (PathsMap.get p allPaths) as [v0|] eqn:Hget.
    + destruct (JsSet.isDisjointFrom v0 cs) eqn:Hd; simpl.
      * specialize (Hstep (JsSet.union v0 cs)).
        destruct (mergePaths (PathsMap.set p (JsSet.union v0 cs) allPaths) F)
          as [e|a'].
        -- destruct Hstep
             as (before & q & ks & rest & v1 & HF & Hb & Hg & Hd' & He).
           exists ((p, cs) :: before), q, ks, rest, v1.
           split; [now rewrite HF|]. split; [|tauto].
           rewrite no_clash_cons, Hget, Hd. exact Hb.
        -- destruct Hstep as [Hb Hk]. split; [exact Hb|].
           intros k. rewrite Hk. unfold merged_value. cbn [PathsMap.get].
           destruct (String.eqb k p) eqn:E; [|reflexivity].
           apply String.eqb_eq in E. subst k. now rewrite Hget.
      * exists [], p, cs, F, v0. simpl. tauto.
    + specialize (Hstep cs).
      destruct (mergePaths (PathsMap.set p cs allPaths) F) as [e|a'].
      * destruct Hstep
          as (before & q & ks & rest & v1 & HF & Hb & Hg & Hd' & He).
        exists ((p, cs) :: before), q, ks, rest, v1.
        split; [now rewrite HF|]. split; [|tauto].
        rewrite no_clash_cons, Hget. exact Hb.
      * destruct Hstep as [Hb Hk]. split; [exact Hb|].
        intros k. rewrite Hk. unfold merged_value. cbn [PathsMap.get].
        destruct (String.eqb k p) eqn:E; [|reflexivity].
        apply String.eqb_eq in E. subst k. now rewrite Hget.
Qed.

Lemma mergePaths_outcome_witness :
  exists allPaths',
    mergePaths [("/a.ts", ["/b.ts"])] [("/a.ts", ["/c.ts"]); ("/b.ts", [])]
    = inr allPaths' /\
    forall k,
      PathsMap.get k allPaths'
      = merged_value [("/a.ts", ["/b.ts"])]
          [("/a.ts", ["/c.ts"]); ("/b.ts", [])] k.
Proof.
  pose proof (mergePaths_outcome [("/a.ts", ["/c.ts"]); ("/b.ts", [])]
                [("/a.ts", ["/b.ts"])]) as H.
  assert (Hnd : NoDup (map fst [("/a.ts", ["/c.ts"]);
                                ("/b.ts", @nil string)])).
  { simpl. repeat constructor; simpl; intuition discriminate. }
  specialize (H Hnd).
  destruct (mergePaths [("/a.ts", ["/b.ts"])]
              [("/a.ts", ["/c.ts"]); ("/b.ts", [])]) as [e|allPaths'] eqn:Hm.
  - vm_compute in Hm. discriminate.
  - exists allPaths'. split; [reflexivity | apply H].
Defined.

Example mergePaths_names_first_clash :
  mergePaths [("/a.ts", ["/b.ts"]); ("/b.ts", ["/c.ts"])]
    [("/x.ts", ["/y.ts"]); ("/b.ts", ["/c.ts"; "/d.ts"]);
     ("/a.ts", ["/b.ts"])]
  = inl (CyclicImport "/b.ts" ["/c.ts"]).
Proof. vm_compute. reflexivity. Qed.

(** *** What the scan returns, and when *)

(** X7.  A scan that returns has returned the files that can be
    reached from the entry paths along imports that were kept, each
    of them once: nothing else, and none of them missing. *)
Theorem findImports_returns_the_reachable_set W entries fuel paths :
  findImports W fuel entries = Done paths ->
  NoDup paths /\ forall q, In q paths <-> reachable W entries q.
Proof.
  intros Hrun. split.
  - exact (WatcherProps.scanLoop_NoDup W fuel _ _ paths Hrun).
  - exact (findImports_Done_reachable W entries fuel paths Hrun).
Qed.

Lemma findImports_returns_the_reachable_set_witness :
  NoDup ["/app.ts"; "/lib.ts"] /\
  forall q, In q ["/app.ts"; "/lib.ts"] <-> reachable vendored ["/app.ts"] q.
Proof.
  apply (findImports_returns_the_reachable_set vendored ["/app.ts"] 3).
  vm_compute. reflexivity.
Defined.



(** X9.  An error the scan ends in is about a file it could reach.  A
    cyclic-import error names a reachable file together with a
    non-empty list of paths that this file does import; any other
    error is the one a collaborator threw on a reachable file. *)
Theorem findImports_error_names_reachable W entries fuel e :
  findImports W fuel entries = Failed e ->
  match e with
  | CyclicImport parentPath repeated =>
      repeated <> [] /\ reachable W entries parentPath /\
      forall q, In q repeated -> edge W parentPath q
  | _ =>
      exists p, reachable W entries p /\ scanParent W p = inl e
  end.
Proof.
  intros Hrun.
  pose proof (scanLoop_Failed_ok W entries fuel _ _ e
                (Inv_initial W entries) Hrun) as Hok.
  destruct e as [p rep|p|sp p]; simpl in Hok; try exact Hok.
  destruct Hok as (Hne & Hr & ks & Hs & Hsub).
  split; [assumption|]. split; [assumption|].
  intros q Hq. exists ks. split; [assumption | now apply Hsub].
Qed.

Lemma findImports_error_names_reachable_witness :
  ["/b.ts"] <> [] /\
  reachable two_cycle ["/a.ts"] "/a.ts" /\
  forall q, In q ["/b.ts"] -> edge two_cycle "/a.ts" q.
Proof.
  apply (findImports_error_names_reachable two_cycle ["/a.ts"] 4
           (CyclicImport "/a.ts" ["/b.ts"])).
  vm_compute. reflexivity.
Defined.

(** *** A file at two depths *)

(** An import chain of [n] links. *)
Inductive walk (W : World) : nat -> string -> string -> Prop :=
| walk_here x : walk W 0 x x
| walk_link n x y z : edge W x y -> walk W n y z -> walk W (S n) x z.

Lemma walk_path W n x z :
  walk W n x z -> clos_refl_trans_1n string (edge W) x z.
Proof.
  induction 1 as [x | n x y z Hxy _ IH].
  - apply Relation_Operators.rt1n_refl.
  - eapply Relation_Operators.rt1n_trans; eassumption.
Qed.

Lemma walk_split W n1 : forall k x z,
  walk W (n1 + S k) x z ->
  exists m y, walk W n1 x m /\ edge W m y /\ walk W k y z.
Proof.
  induction n1 as [|n1 IH]; intros k x z Hw; simpl in Hw.
  - inversion Hw as [|n x0 y z0 Hxy Hrest]; subst.
    exists x, y. split; [constructor | tauto].
  - inversion Hw as [|n x0 y z0 Hxy Hrest]; subst.
    destruct (IH _ _ _ Hrest) as (m & y' & H1 & H2 & H3).
    exists m, y'. split; [econstructor; eassumption | tauto].
Qed.

(** Two chains of the same length are followed round by round. *)
Lemma follow_two W entries n : forall x1 y1 x2 y2,
  walk W n x1 y1 -> walk W n x2 y2 ->
  forall a f,
    Inv W entries a f ->
    In x1 (PathsMap.flat_values f) -> In x2 (PathsMap.flat_values f) ->
    (forall a f, Inv W entries a f ->
       In y1 (PathsMap.flat_values f) -> In y2 (PathsMap.flat_values f) ->
       Fails W entries a f) ->
    Fails W entries a f.
Proof.
  induction n as [|n IH]; intros x1 y1 x2 y2 Hw1 Hw2 a f HInv H1 H2 K.
  - inversion Hw1; inversion Hw2; subst. now apply K.
  - inversion Hw1 as [|n1 x1' z1 y1' [ks1 [Hs1 Hz1]] Hrest1]; subst.
    inversion Hw2 as [|n2 x2' z2 y2' [ks2 [Hs2 Hz2]] Hrest2]; subst.
    destruct (round_cases W entries _ _ (nonempty_of_flat _ _ H1) HInv)
      as [HF | (a' & f' & Hm & Hf & HInv' & Hstep)]; [assumption|].
    apply (Fails_later W entries _ _ _ _ Hstep).
    destruct (findImportsOnce_ok W _ _ Hf) as [_ Hall].
    apply (IH z1 y1 z2 y2 Hrest1 Hrest2); try assumption.
    + apply flat_values_In. exists x1, ks1. split; [|assumption].
      apply Hall; [|assumption]. now apply of_list_In.
    + apply flat_values_In. exists x2, ks2. split; [|assumption].
      apply Hall; [|assumption]. now apply of_list_In.
Qed.

(** A file in the frontier together with a file that leads back to
    it: the loop fails when the first is scanned a second time. *)
Lemma revisit_fails W entries p ks m a f :
  scans W p ks -> ks <> [] ->
  (exists y, edge W m y /\ clos_refl_trans_1n string (edge W) y p) ->
  Inv W entries a f ->
  In p (PathsMap.flat_values f) -> In m (PathsMap.flat_values f) ->
  Fails W entries a f.
Proof.
  intros Hs Hks (y & [ksm [Hsm Hy]] & Hback) HInv Hp Hm.
  destruct (round_cases W entries _ _ (nonempty_of_flat _ _ Hp) HInv)
    as [HF | (a1 & f1 & Hm1 & Hf1 & HInv1 & Hstep1)]; [assumption|].
  apply (Fails_later W entries _ _ _ _ Hstep1).
  destruct (findImportsOnce_ok W _ _ Hf1) as [_ Hall1].
  assert (Hin1 : In (p, ks) f1)
    by (apply Hall1; [now apply of_list_In | assumption]).
  assert (Hy1 : In y (PathsMap.flat_values f1)).
  { apply flat_values_In. exists m, ksm. split; [|assumption].
    apply Hall1; [now apply of_list_In | assumption]. }
  pose (Pre := fun (a f : PathsMap.t) => In (p, ks) f \/ recorded p ks a).
  apply (follow_path W entries Pre p) with (x := y); try assumption.
  - intros a0 f0 a0' f0' [Hq|Hq] Hm0 _; right.
    + eapply mergePaths_records; eassumption.
    + eapply mergePaths_keeps; eassumption.
  - intros a2 f2 HInv2 Hp2 HPre2.
    destruct (round_cases W entries _ _ (nonempty_of_flat _ _ Hp2) HInv2)
      as [HF | (a3 & f3 & Hm3 & Hf3 & HInv3 & Hstep3)]; [assumption|].
    apply (Fails_later W entries _ _ _ _ Hstep3).
    assert (Hrec : recorded p ks a3).
    { destruct HPre2 as [Hq|Hq].
      - eapply mergePaths_records; eassumption.
      - eapply mergePaths_keeps; eassumption. }
    assert (Hin3 : In (p, ks) f3).
    { destruct (findImportsOnce_ok W _ _ Hf3) as [_ H2].
      apply H2; [|assumption]. now apply of_list_In. }
    assert (Hne3 : f3 <> []) by (intros ->; contradiction).
    destruct (round_cases W entries _ _ Hne3 HInv3)
      as [HF | (a4 & f4 & Hm4 & _)]; [assumption|].
    destruct (mergePaths_refuses f3 a3 p ks Hrec Hks Hin3) as [e He].
    congruence.
  - now left.
Qed.

(** X19.  A file that has at least one kept import and that can be
    reached from the entry paths along two import chains of different
    lengths makes every scan fail, cycle or no cycle: the file is
    expanded once for each length, and the second merge finds its
    children on record.  The scan ends in an error within a bounded
    number of rounds and never returns a set. *)
Theorem file_at_two_depths_fails W entries e1 e2 n1 n2 p ks :
  In e1 entries -> In e2 entries ->
  walk W n1 e1 p -> walk W n2 e2 p -> n1 < n2 ->
  scans W p ks -> ks <> [] ->
  exists n e,
    (forall fuel, n <= fuel -> findImports W fuel entries = Failed e) /\
    (forall fuel paths, findImports W fuel entries <> Done paths) /\
    error_ok W entries e.
Proof.
  intros He1 He2 Hw1 Hw2 Hlt Hs Hks.
  replace n2 with (n1 + S (n2 - n1 - 1)) in Hw2 by lia.
  destruct (walk_split W n1 _ _ _ Hw2) as (m & y & Hwm & Hmy & Hyp).
  assert (HF : Fails W entries []
                 (PathsMap.set EmptyString (JsSet.of_list entries) [])).
  { apply (follow_two W entries n1 e1 p e2 m Hw1 Hwm).
    - apply Inv_initial.
    - unfold PathsMap.flat_values. simpl. rewrite app_nil_r.
      now apply of_list_In.
    - unfold PathsMap.flat_values. simpl. rewrite app_nil_r.
      now apply of_list_In.
    - intros a f HInv Hp Hm.
      apply (revisit_fails W entries p ks m a f); try assumption.
      exists y. split; [assumption|]. eapply walk_path. eassumption. }
  pose proof (Fails_never_Done W entries _ _ HF) as Hnever.
  destruct HF as (n & e & Hn & He). exists n, e.
  split; [exact Hn|]. split; [exact Hnever | exact He].
Qed.

Lemma file_at_two_depths_fails_witness :
  exists n e,
    (forall fuel, n <= fuel -> findImports diamond fuel ["/a.ts"] = Failed e) /\
    (forall fuel paths, findImports diamond fuel ["/a.ts"] <> Done paths) /\
    error_ok diamond ["/a.ts"] e.
Proof.
  assert (Hac : edge diamond "/a.ts" "/c.ts").
  { exists ["/b.ts"; "/c.ts"]. split; [vm_compute; reflexivity|].
    right. now left. }
  assert (Hab : edge diamond "/a.ts" "/b.ts").
  { exists ["/b.ts"; "/c.ts"]. split; [vm_compute; reflexivity | now left]. }
  assert (Hbc : edge diamond "/b.ts" "/c.ts").
  { exists ["/c.ts"]. split; [vm_compute; reflexivity | now left]. }
  apply (file_at_two_depths_fails diamond ["/a.ts"] "/a.ts" "/a.ts" 1 2
           "/c.ts" ["/d.ts"]).
  - now left.
  - now left.
  - eapply walk_link; [exact Hac | apply walk_here].
  - eapply walk_link; [exact Hab|].
    eapply walk_link; [exact Hbc | apply walk_here].
  - lia.
  - vm_compute. reflexivity.
  - discriminate.
Defined.

(** *** The extension test *)








End ScannerLaws.

(** ** The search for a tsconfig *)

Module TSConfigLaws.
Import TSConfig.

(** The test of the loop singles out the root. *)
Lemma parent_fixed (dirPath : Path) : parent dirPath = dirPath <-> dirPath = [].
Proof.
  split; [|now intros ->].
  destruct dirPath as [|x up]; [reflexivity|]. simpl. intros H.
  apply (f_equal (@List.length string)) in H. simpl in H. lia.
Qed.



Lemma walkUp_None D dirPath :
  walkUp D dirPath = None <->
  forall below dir, dirPath = below ++ dir -> dir <> [] ->
    has_file D (resolve dir "tsconfig.json") = false /\
    has_file D (resolve dir "jsconfig.json") = false.
Proof.
  induction dirPath as [|x up IH].
  - split; [|reflexivity]. intros _ below dir H Hdir.
    symmetry in H. apply app_eq_nil in H. tauto.
  - simpl. unfold defaultFindTSConfigOnce.
    destruct (has_file D (resolve (x :: up) "tsconfig.json")) eqn:Ets.
    { split; [discriminate|]. intros H.
      destruct (H [] (x :: up) eq_refl) as [H1 _]; [discriminate|].
      congruence. }
    destruct (has_file D (resolve (x :: up) "jsconfig.json")) eqn:Ejs.
    { split; [discriminate|]. intros H.
      destruct (H [] (x :: up) eq_refl) as [_ H2]; [discriminate|].
      congruence. }
    rewrite IH. split.
    + intros H below dir Hsplit Hdir. destruct below as [|y below].
      * simpl in Hsplit. subst dir. tauto.
      * injection Hsplit as -> Hup. now apply (H below dir).
    + intros H below dir Hsplit Hdir. apply (H (x :: below) dir); [|assumption].
      simpl. now rewrite Hsplit.
Qed.

(** X5.  The search comes back empty exactly when no directory above
    the file, the root left out, holds a [tsconfig.json] or a
    [jsconfig.json]: a configuration that sits in the root directory
    is never read, nor is one whose path is the file's own. *)
Theorem defaultFindTSConfig_none_iff D filePath :
  defaultFindTSConfig D filePath = None <->
  forall below dir, parent filePath = below ++ dir -> dir <> [] ->
    has_file D (resolve dir "tsconfig.json") = false /\
    has_file D (resolve dir "jsconfig.json") = false.
Proof. apply walkUp_None. Qed.

(** A disk whose only configuration sits in the root directory. *)
Definition root_config_only : Disk :=
  {| has_file := fun p =>
       match p with
       | [name] => String.eqb name "tsconfig.json"
       | _ => false
       end;
     text := fun _ => "{}" |}.

Example root_config_is_not_read :
  has_file root_config_only (resolve [] "tsconfig.json") = true /\
  defaultFindTSConfig root_config_only ["index.ts"; "src"; "app"] = None.
Proof. split; reflexivity. Qed.



End TSConfigLaws.

(** ** More on the watchers

    What [rescan], [close] and the event emitter do to the handles,
    the listeners and the log, over whole sessions. *)

Module WatcherLaws.
Import Scanner Watcher JsSetFacts ScannerFacts WatcherFacts WatcherProps.

Local Open Scope nat_scope.

(** [/app.ts] imports [/lib.ts]; the same with [/lib.ts] importing
    [/app.ts] back; a disk that lacks [/gone.ts]. *)
Definition app_imports_lib : World :=
  ScannerProps.tree ScannerProps.everything [("/app.ts", ["/lib.ts"])].

Definition app_cycle : World :=
  ScannerProps.tree ScannerProps.everything
    [("/app.ts", ["/lib.ts"]); ("/lib.ts", ["/app.ts"])].

Definition gone_is_gone : World :=
  ScannerProps.tree (fun p => negb (String.eqb p "/gone.ts")) [].

(** A watcher on [/app.ts] after a first [watch]. *)
Definition watching_app : Sys :=
  snd (watch app_imports_lib 3 (new_DependencyWatcher ["/app.ts"])).

Definition quiet_rescanning : BuildWatchOptions :=
  {| clearScreen := false; quiet := true; opt_rescan := true |}.

Definition built : BuildOutput :=
  {| success := true; outputs := ["/out/app.js"]; logs := [] |}.

(** *** What the listeners of an event do *)

(** The actions of the listeners of one [emit], in the order they are
    called: [ws] is [this.watchers] and [nb] the number of the next
    build. *)
Fixpoint heard (ws : list FSWatcher) (nb : nat) (called : list Listener)
  : list Action :=
  match called with
  | [] => []
  | l :: rest =>
      match l_handler l with
      | CloseWatchers => map ADispose ws ++ heard ws nb rest
      | BuildAndEmit => ABuild nb :: heard ws (S nb) rest
      | _ => heard ws nb rest
      end
  end.

Lemma run_listeners_log called : forall s,
  log (fold_left (fun s l => run_listener (l_handler l) s) called s)
  = log s ++ heard (watchers s) (next_build s) called.
Proof.
  induction called as [|l rest IH]; intros s; simpl.
  - now rewrite app_nil_r.
  - rewrite IH. destruct (l_handler l); simpl; try reflexivity.
    + destruct (effect_dispose_all (watchers s) s)
        as (_ & A2 & _ & _ & _ & A6 & _ & _ & A9 & _).
      rewrite A2, A6, A9, Nat.add_0_r. now rewrite app_assoc.
    + now rewrite <- app_assoc.
Qed.

Lemma emit_exact ev s :
  let d := heard (watchers s) (next_build s)
             (called_by (event_name ev) (listeners s)) in
  fullPaths (emit run_listener ev s) = fullPaths s /\
  watchers (emit run_listener ev s) = watchers s /\
  state (emit run_listener ev s) = state s /\
  listeners (emit run_listener ev s)
  = kept_after (event_name ev) (listeners s) /\
  next_id (emit run_listener ev s) = next_id s /\
  log (emit run_listener ev s) = log s ++ AEmit ev :: d /\
  active (emit run_listener ev s) = apply_actions d (active s) /\
  Forall calm d.
Proof.
  intros d.
  destruct (emit_effect ev s)
    as (d' & A1 & A2 & A3 & A4 & A5 & A6 & A7 & _ & _ & A10 & _).
  simpl in A1, A2, A3, A4, A5, A6, A7.
  assert (Hlog : log (emit run_listener ev s) = log s ++ AEmit ev :: d).
  { unfold emit. rewrite run_listeners_log. simpl.
    now rewrite <- app_assoc. }
  assert (Hd : d' = d).
  { rewrite Hlog in A6. rewrite <- app_assoc in A6. simpl in A6.
    apply app_inv_head in A6. now injection A6. }
  subst d'. repeat split; assumption.
Qed.

(** *** The life cycle *)

Definition rank (st : WatcherState) : nat :=
  match st with ready => 0 | watching => 1 | closed => 2 end.

Lemma rank_rescan W fuel s :
  rank (state s) <= rank (state (snd (rescan W fuel s))).
Proof.
  destruct (state s) eqn:E.
  - rewrite rescan_state by congruence. simpl. lia.
  - rewrite rescan_state by congruence. simpl. lia.
  - rewrite rescan_closed by assumption. simpl. rewrite E. simpl. lia.
Qed.

Lemma close_state s : state (close s) = closed.
Proof.
  destruct (state s) eqn:E.
  - destruct (close_open s) as (d & _ & H & _); [congruence | exact H].
  - destruct (close_open s) as (d & _ & H & _); [congruence | exact H].
  - unfold close. now rewrite E.
Qed.

Lemma rank_run_build_listeners W fuel called : forall s,
  rank (state s)
  <= rank (state (fold_left
                    (fun s l => run_build_listener W fuel (l_handler l) s)
                    called s)).
Proof.
  induction called as [|l rest IH]; intros s; simpl; [lia|].
  eapply Nat.le_trans; [|apply IH].
  destruct (l_handler l) eqn:Eh; simpl; try lia.
  - destruct (effect_dispose_all (watchers s) s) as (_ & _ & A3 & _).
    rewrite A3. lia.
  - apply rank_rescan.
Qed.

Lemma rank_step st s : rank (state s) <= rank (state (step st s)).
Proof.
  destruct st as [W fuel|W fuel| |name once tag|h event filename
                 |W fuel id out]; simpl.
  - rewrite watch_snd. destruct (state s) eqn:E; try (rewrite E; lia).
    + rewrite <- E. apply rank_rescan.
    + rewrite <- E. apply rank_rescan.
  - apply rank_rescan.
  - rewrite close_state. destruct (state s); simpl; lia.
  - lia.
  - unfold emitFileChanges.
    destruct (existsb (FSWatcher_eqb h) (active s)); [|lia].
    destruct (emit_exact (EvChange event filename) s) as (_ & _ & H & _).
    rewrite H. lia.
  - unfold build_done.
    destruct (existsb (Nat.eqb id) (pending s)); [|lia].
    unfold emit. eapply Nat.le_trans; [|apply rank_run_build_listeners].
    simpl. lia.
Qed.

(** X10.  The state of a watcher only moves forward, from ready to
    watching to closed, whatever is called on it and whatever
    notifications and build results come in: a closed watcher stays
    closed, and a watcher that has begun a scan is never ready
    again, even when the scan failed. *)
Theorem lifecycle_never_goes_back sts : forall s,
  rank (state s) <= rank (state (run sts s)).
Proof.
  induction sts as [|st sts IH]; intros s; simpl; [lia|].
  eapply Nat.le_trans; [apply rank_step | apply IH].
Qed.


(** *** A closed watcher *)

(** What a closed watcher can still emit: the change events of
    handles that were left open, and the build events of builds that
    were in flight. *)
Definition in_flight (a : Action) : Prop :=
  match a with
  | AEmit (EvChange _ _) | AEmit (EvBuild _ _) => True
  | _ => False
  end.

Definition user_only (ls : list Listener) : Prop :=
  forall l, In l ls -> exists tag, l_handler l = UserListener tag.

Lemma user_only_filter p ls : user_only ls -> user_only (filter p ls).
Proof. intros H l Hl. apply filter_In in Hl. now apply H. Qed.

Lemma heard_user_only ws nb called :
  user_only called -> heard ws nb called = [].
Proof.
  induction called as [|l rest IH]; intros H; [reflexivity|]. simpl.
  destruct (H l (or_introl eq_refl)) as [tag ->].
  apply IH. intros l' Hl'. apply H. now right.
Qed.

Lemma run_build_listeners_user_only W fuel called : forall s,
  user_only called ->
  fold_left (fun s l => run_build_listener W fuel (l_handler l) s) called s
  = s.
Proof.
  induction called as [|l rest IH]; intros s H; [reflexivity|]. simpl.
  destruct (H l (or_introl eq_refl)) as [tag ->]. simpl.
  apply IH. intros l' Hl'. apply H. now right.
Qed.

Lemma inert_step st s :
  state s = closed -> user_only (listeners s) ->
  state (step st s) = closed /\ user_only (listeners (step st s)) /\
  watchers (step st s) = watchers s /\ active (step st s) = active s /\
  exists d, log (step st s) = log s ++ d /\ Forall in_flight d.
Proof.
  intros Hst Hu.
  assert (Hsame : state s = closed /\ user_only (listeners s) /\
                  watchers s = watchers s /\ active s = active s /\
                  exists d, log s = log s ++ d /\ Forall in_flight d).
  { repeat split; try assumption. exists []. split; [|constructor].
    now rewrite app_nil_r. }
  destruct st as [W fuel|W fuel| |name once tag|h event filename
                 |W fuel id out]; simpl.
  - rewrite watch_snd, Hst, rescan_closed by assumption. exact Hsame.
  - rewrite rescan_closed by assumption. exact Hsame.
  - unfold close. rewrite Hst. exact Hsame.
  - split; [assumption|]. split.
    + intros l Hl. simpl in Hl. apply in_app_iff in Hl.
      destruct Hl as [Hl|[<-|[]]]; [now apply Hu | now exists tag].
    + split; [reflexivity|]. split; [reflexivity|].
      exists []. split; [now rewrite app_nil_r | constructor].
  - unfold emitFileChanges.
    destruct (existsb (FSWatcher_eqb h) (active s)); [|exact Hsame].
    destruct (emit_exact (EvChange event filename) s)
      as (_ & A2 & A3 & A4 & _ & A6 & A7 & _).
    rewrite heard_user_only in A6, A7 by now apply user_only_filter.
    split; [congruence|]. split.
    + rewrite A4. now apply user_only_filter.
    + split; [assumption|]. split; [assumption|].
      exists [AEmit (EvChange event filename)].
      split; [assumption | repeat constructor].
  - unfold build_done.
    destruct (existsb (Nat.eqb id) (pending s)); [|exact Hsame].
    unfold emit. rewrite run_build_listeners_user_only;
      [|now apply user_only_filter].
    simpl. split; [assumption|]. split; [now apply user_only_filter|].
    split; [reflexivity|]. split; [reflexivity|].
    exists [AEmit (EvBuild id out)]. split; [reflexivity | repeat constructor].
Qed.

Lemma inert_run sts : forall s,
  state s = closed -> user_only (listeners s) ->
  state (run sts s) = closed /\
  watchers (run sts s) = watchers s /\ active (run sts s) = active s /\
  exists d, log (run sts s) = log s ++ d /\ Forall in_flight d.
Proof.
  induction sts as [|st sts IH]; intros s Hst Hu; simpl.
  - repeat split; try assumption. exists []. split; [|constructor].
    now rewrite app_nil_r.
  - destruct (inert_step st s Hst Hu) as (H1 & H2 & H3 & H4 & d1 & H5 & H6).
    destruct (IH (step st s) H1 H2) as (I1 & I3 & I4 & d2 & I5 & I6).
    split; [assumption|]. split; [congruence|]. split; [congruence|].
    exists (d1 ++ d2). split.
    + rewrite I5, H5. now rewrite app_assoc.
    + now apply Forall_app.
Qed.

(** X16.  Once [close] has returned, no call being in flight, the
    watcher does nothing more, whatever is called on it and whatever
    comes in afterwards: it begins no build and no scan, opens no
    handle and disposes none, and it stays closed.  All the log can still gain are change events
    of handles that were left open and build events of builds that
    were in flight when it closed. *)
Theorem closed_watcher_is_inert s sts :
  state s <> closed ->
  state (run sts (close s)) = closed /\
  watchers (run sts (close s)) = watchers (close s) /\
  active (run sts (close s)) = active (close s) /\
  exists d,
    log (run sts (close s)) = log (close s) ++ d /\ Forall in_flight d.
Proof.
  intros Hst.
  destruct (close_open s Hst) as (d & _ & F1 & F2 & _).
  apply inert_run; [assumption|]. rewrite F2. intros l [].
Qed.

Lemma closed_watcher_is_inert_witness :
  exists d,
    log (run [FsEvent {| watcher_id := 0; watcher_path := "/app.ts" |}
                "change" (Some "app.ts");
              CallWatch app_imports_lib 3; CallClose]
           (close watching_app))
    = log (close watching_app) ++ d /\
    Forall in_flight d.
Proof.
  apply (closed_watcher_is_inert watching_app
           [FsEvent {| watcher_id := 0; watcher_path := "/app.ts" |}
              "change" (Some "app.ts");
            CallWatch app_imports_lib 3; CallClose]).
  vm_compute. discriminate.
Defined.

(** *** A scan that fails *)

(** X11.  When the scan of a [rescan] fails, every handle the watcher
    held has already been disposed and none is opened in its place,
    while the watcher says it is watching and still lists the disposed
    handles: it watches nothing it holds. *)
Theorem failed_scan_drops_every_handle W fuel s e :
  state s <> closed ->
  findImports W fuel (fullPaths s) = Failed e ->
  fst (rescan W fuel s) = Rejected (ScanRejected e) /\
  state (snd (rescan W fuel s)) = watching /\
  watchers (snd (rescan W fuel s)) = watchers s /\
  listeners (snd (rescan W fuel s)) = listeners s /\
  log (snd (rescan W fuel s))
  = log s ++ map ADispose (watchers s) ++ [AScan (fullPaths s)] /\
  forall h, In h (active (snd (rescan W fuel s))) <->
            In h (active s) /\ ~ In h (watchers s).
Proof.
  intros Hst Hscan. rewrite (rescan_unfold W fuel s Hst), Hscan.
  cbn [fst snd].
  destruct (scanning_fields s) as (_ & A2 & A3 & A4 & _ & _ & A7 & A8).
  split; [reflexivity|]. split; [assumption|]. split; [assumption|].
  split; [assumption|]. split; [assumption|].
  intros h. rewrite A8. apply apply_dispose_In.
Qed.

Lemma failed_scan_drops_every_handle_witness :
  state (snd (rescan app_cycle 4 watching_app)) = watching /\
  watchers (snd (rescan app_cycle 4 watching_app)) = watchers watching_app /\
  forall h, In h (active (snd (rescan app_cycle 4 watching_app))) <->
            In h (active watching_app) /\ ~ In h (watchers watching_app).
Proof.
  pose proof (failed_scan_drops_every_handle app_cycle 4 watching_app
                (CyclicImport "/app.ts" ["/lib.ts"])) as H.
  destruct H as (_ & H2 & H3 & _ & _ & H6).
  - vm_compute. discriminate.
  - vm_compute. reflexivity.
  - split; [exact H2|]. split; [exact H3 | exact H6].
Defined.

Example failed_scan_watches_nothing :
  active (snd (rescan app_cycle 4 watching_app)) = [] /\
  List.length (watchers (snd (rescan app_cycle 4 watching_app))) = 2.
Proof. vm_compute. split; reflexivity. Qed.


(** *** The handles of a scan *)

Lemma subscribe_exact W paths : forall s r s',
  subscribe W paths s = (r, s') ->
  exists hs,
    fullPaths s' = fullPaths s /\ watchers s' = watchers s /\
    state s' = state s /\ listeners s' = listeners s /\
    next_build s' = next_build s /\
    log s' = log s ++ map AOpen hs /\ active s' = active s ++ hs /\
    next_id s' = next_id s + List.length hs /\
    (forall h, In h hs ->
       next_id s <= watcher_id h /\ watcher_id h < next_id s') /\
    match r with
    | inr hs' =>
        hs' = hs /\ map watcher_path hs = paths /\
        forall q, In q paths -> file_exists W q = true
    | inl e =>
        exists before p after,
          paths = before ++ p :: after /\ e = WatchENOENT p /\
          file_exists W p = false /\ map watcher_path hs = before /\
          forall q, In q before -> file_exists W q = true
    end.
Proof.
  induction paths as [|p ps IH]; intros s r s' Hrun; simpl in Hrun.
  - injection Hrun as <- <-. exists []. simpl.
    rewrite !app_nil_r, Nat.add_0_r.
    repeat split; try reflexivity; try contradiction; try (intros ? []).
  - unfold fs_watch in Hrun. destruct (file_exists W p) eqn:Hex.
    + match type of Hrun with
      | context [subscribe W ps ?s1] =>
          destruct (subscribe W ps s1) as [r2 s2] eqn:Hrest
      end.
      destruct (IH _ _ _ Hrest)
        as (hs & A1 & A2 & A3 & A4 & A5 & A6 & A7 & A8 & A9 & A10).
      simpl in A1, A2, A3, A4, A5, A6, A7, A8, A9.
      exists ({| watcher_id := next_id s; watcher_path := p |} :: hs).
      assert (Hs' : s' = s2) by (destruct r2; now injection Hrun).
      subst s'.
      split; [assumption|]. split; [assumption|]. split; [assumption|].
      split; [assumption|]. split; [assumption|].
      split; [rewrite A6, <- app_assoc; reflexivity|].
      split; [rewrite A7, <- app_assoc; reflexivity|].
      split; [rewrite A8; simpl; lia|].
      split.
      { intros h [<-|Hh]; [simpl; lia|]. specialize (A9 h Hh). lia. }
      destruct r2 as [e|hs'].
      * injection Hrun as <-.
        destruct A10 as (before & q & after & -> & -> & Hq & Hmap & Hall).
        exists (p :: before), q, after.
        split; [reflexivity|]. split; [reflexivity|]. split; [assumption|].
        split; [simpl; now rewrite Hmap|].
        intros x [<-|Hx]; [assumption | now apply Hall].
      * injection Hrun as <-. destruct A10 as (-> & Hmap & Hall).
        split; [reflexivity|]. split; [simpl; now rewrite Hmap|].
        intros x [<-|Hx]; [assumption | now apply Hall].
    + injection Hrun as <- <-. exists []. simpl.
      rewrite !app_nil_r, Nat.add_0_r.
      repeat split; try reflexivity; try contradiction; try (intros ? []).
      exists [], p, ps. repeat split; try reflexivity; try assumption.
      intros ? [].
Qed.

Lemma scanning_next_id s : next_id (scanning s) = next_id s.
Proof.
  unfold scanning. simpl.
  now destruct (effect_dispose_all (watchers s) s) as (_ & _ & _ & _ & A5 & _).
Qed.

Lemma apply_heard_no_closer ws called :
  (forall l, In l called -> l_handler l <> CloseWatchers) ->
  forall nb open, apply_actions (heard ws nb called) open = open.
Proof.
  induction called as [|l rest IH]; intros H nb open; [reflexivity|].
  assert (Hrest : forall l', In l' rest -> l_handler l' <> CloseWatchers)
    by (intros l' Hl'; apply H; now right).
  simpl. specialize (H l (or_introl eq_refl)).
  destruct (l_handler l); try (now apply IH); congruence.
Qed.

Lemma heard_disposes ws called x : forall nb,
  In (ADispose x) (heard ws nb called) -> In x ws.
Proof.
  induction called as [|l rest IH]; intros nb Hin; [contradiction|].
  simpl in Hin. destruct (l_handler l); try (now apply (IH nb)).
  - apply in_app_iff in Hin. destruct Hin as [Hin|Hin]; [|now apply (IH nb)].
    apply in_map_iff in Hin. destruct Hin as (y & [= ->] & Hy). exact Hy.
  - destruct Hin as [Hin|Hin]; [discriminate | now apply (IH (S nb))].
Qed.

Lemma rescan_resolved_exact W fuel s paths s' :
  rescan W fuel s = (Resolved paths, s') ->
  state s <> closed /\
  findImports W fuel (fullPaths s) = Done paths /\
  exists hs s2,
    subscribe W paths (scanning s) = (inr hs, s2) /\
    s' = emit run_listener (EvWatch paths)
           (add_listener on_close true CloseWatchers (set_watchers hs s2)).
Proof.
  intros Hrun.
  destruct (rescan_resolved W fuel s paths s' Hrun) as (Hst & Hscan & _).
  split; [assumption|]. split; [assumption|].
  rewrite (rescan_unfold W fuel s Hst), Hscan in Hrun.
  destruct (subscribe W paths (scanning s)) as [[e|hs] s2];
    [discriminate|].
  injection Hrun as <-. now exists hs, s2.
Qed.

(** X12.  A [rescan] that resolves has, in this order, disposed the
    handles held before, scanned, opened one handle for each path of
    the result, which is the reachable set, and emitted one watch
    event carrying the paths it returns; every such path exists on
    disk.  When no handle had gone astray before and no listener of
    the watch event closes handles, the handles the watcher holds
    afterwards are exactly the open ones. *)
Theorem resolved_rescan_installs_handles W fuel s paths s' :
  rescan W fuel s = (Resolved paths, s') ->
  incl (active s) (watchers s) ->
  (forall l, In l (listeners s) -> l_event l = on_watch ->
             l_handler l <> CloseWatchers) ->
  map watcher_path (watchers s') = paths /\
  NoDup (watchers s') /\
  active s' = watchers s' /\
  (forall q, In q paths <-> reachable W (fullPaths s) q) /\
  (forall q, In q paths -> file_exists W q = true) /\
  exists d,
    log s' = log s ++ map ADispose (watchers s) ++ [AScan (fullPaths s)]
                   ++ map AOpen (watchers s') ++ AEmit (EvWatch paths) :: d /\
    Forall (fun a => is_build a = true) d.
Proof.
  intros Hrun Hincl Hno.
  destruct (rescan_resolved_exact W fuel s paths s' Hrun)
    as (Hst & Hscan & hs & s2 & Hsub & ->).
  destruct (subscribe_exact W paths _ _ _ Hsub)
    as (hs' & B1 & B2 & B3 & B4 & B5 & B6 & B7 & B8 & B9 & <- & Hmap & Hex).
  destruct (scanning_fields s) as (C1 & C2 & C3 & C4 & _ & C6 & C7 & C8).
  set (pre := add_listener on_close true CloseWatchers (set_watchers hs s2)).
  destruct (emit_exact (EvWatch paths) pre)
    as (A1 & A2 & A3 & A4 & A5 & A6 & A7 & A8).
  simpl in A1, A2, A3, A4, A5, A6, A7, A8.
  assert (Hcalled : forall l,
            In l (called_by on_watch (listeners s2 ++ [close_listener])) ->
            l_handler l <> CloseWatchers).
  { intros l Hl. unfold called_by in Hl. apply filter_In in Hl.
    destruct Hl as [Hl Hev]. apply EventName_eqb_eq in Hev.
    apply in_app_iff in Hl. destruct Hl as [Hl|[<-|[]]]; [|discriminate].
    apply Hno; [|assumption]. now rewrite <- C4, <- B4. }
  assert (Hnd : NoDup paths)
    by (exact (scanLoop_NoDup W fuel _ _ paths Hscan)).
  split; [now rewrite A2|]. split.
  { rewrite A2. apply (NoDup_map_inv watcher_path). now rewrite Hmap. }
  split.
  { rewrite A7, A2.
    change (listeners s2 ++
            [{| l_event := on_close; l_once := true;
                l_handler := CloseWatchers |}])
      with (listeners s2 ++ [close_listener]).
    rewrite apply_heard_no_closer by assumption.
    rewrite B7, C8, apply_dispose_all_nil by assumption. reflexivity. }
  split; [exact (findImports_Done_reachable W (fullPaths s) fuel paths Hscan)|].
  split; [assumption|].
  eexists. split.
  - rewrite A6, A2, B6, C7, <- !app_assoc. reflexivity.
  - change (listeners s2 ++
            [{| l_event := on_close; l_once := true;
                l_handler := CloseWatchers |}])
      with (listeners s2 ++ [close_listener]).
    generalize (next_build s2).
    induction (called_by on_watch (listeners s2 ++ [close_listener]))
      as [|l rest IH]; intros nb; [constructor|].
    simpl. specialize (Hcalled l (or_introl eq_refl)) as Hl.
    assert (IH' := IH (fun l' Hl' => Hcalled l' (or_intror Hl'))).
    destruct (l_handler l); try apply IH'; [congruence|].
    constructor; [reflexivity | apply IH'].
Qed.

Lemma resolved_rescan_installs_handles_witness :
  map watcher_path (watchers (snd (rescan app_imports_lib 3 watching_app)))
  = ["/app.ts"; "/lib.ts"] /\
  NoDup (watchers (snd (rescan app_imports_lib 3 watching_app))) /\
  active (snd (rescan app_imports_lib 3 watching_app))
  = watchers (snd (rescan app_imports_lib 3 watching_app)).
Proof.
  destruct (resolved_rescan_installs_handles app_imports_lib 3 watching_app
              ["/app.ts"; "/lib.ts"]
              (snd (rescan app_imports_lib 3 watching_app)))
    as (H1 & H2 & H3 & _).
  - vm_compute. reflexivity.
  - vm_compute. intros h Hh. exact Hh.
  - intros l Hl. vm_compute in Hl. destruct Hl as [<-|[]]. discriminate.
  - split; [exact H1|]. split; [exact H2 | exact H3].
Defined.


(** *** Handles the watcher has lost *)

(** An open handle the watcher does not hold, made before now. *)
Definition stray (h : FSWatcher) (s : Sys) : Prop :=
  In h (active s) /\ ~ In h (watchers s) /\ watcher_id h < next_id s.

Lemma apply_actions_keeps h d : forall open,
  In h open -> (forall x, In (ADispose x) d -> x <> h) ->
  In h (apply_actions d open).
Proof.
  induction d as [|a d IH]; intros open Hin Hd; [exact Hin|].
  change (In h (apply_actions d (apply_action a open))).
  apply IH; [|intros x Hx; apply Hd; now right].
  destruct a as [x|x|x|x|x]; simpl; try assumption.
  - apply in_or_app. now left.
  - apply filter_In. split; [assumption|].
    apply negb_true_iff. destruct (FSWatcher_eqb x h) eqn:E; [|reflexivity].
    apply FSWatcher_eqb_eq in E. exfalso.
    apply (Hd x); [now left | assumption].
Qed.

Lemma stray_dispose_all h s :
  stray h s -> stray h (dispose_all (watchers s) s).
Proof.
  intros (H1 & H2 & H3).
  destruct (effect_dispose_all (watchers s) s)
    as (_ & A2 & _ & _ & A5 & _ & A7 & _).
  unfold stray. rewrite A2, A5, A7. split; [|tauto].
  apply apply_dispose_In. tauto.
Qed.

Lemma stray_emit h ev s : stray h s -> stray h (emit run_listener ev s).
Proof.
  intros (H1 & H2 & H3).
  destruct (emit_exact ev s) as (_ & A2 & _ & _ & A5 & _ & A7 & _).
  unfold stray. rewrite A2, A5, A7. split; [|tauto].
  apply apply_actions_keeps; [assumption|].
  intros x Hx ->. apply H2. eapply heard_disposes. exact Hx.
Qed.

Lemma stray_scanning h s : stray h s -> stray h (scanning s).
Proof.
  intros (H1 & H2 & H3).
  destruct (scanning_fields s) as (_ & A2 & _ & _ & _ & _ & _ & A8).
  unfold stray. rewrite A2, A8, scanning_next_id. split; [|tauto].
  apply apply_dispose_In. tauto.
Qed.

Lemma stray_subscribe W paths h s r s' :
  subscribe W paths s = (r, s') -> stray h s ->
  stray h s' /\
  match r with inr hs => ~ In h hs | inl _ => True end.
Proof.
  intros Hsub (H1 & H2 & H3).
  destruct (subscribe_exact W paths s r s' Hsub)
    as (hs & _ & B2 & _ & _ & _ & _ & B7 & B8 & B9 & B10).
  split.
  - unfold stray. rewrite B2, B7, B8.
    split; [apply in_or_app; now left|]. split; [assumption | lia].
  - destruct r as [e|hs']; [exact I|]. destruct B10 as (-> & _).
    intros Hin. specialize (B9 h Hin). lia.
Qed.

Lemma stray_rescan W fuel h s :
  stray h s -> stray h (snd (rescan W fuel s)).
Proof.
  intros Hs. destruct (state s) eqn:Hstate.
  3:{ now rewrite rescan_closed. }
  all: rewrite rescan_unfold by congruence.
  all: destruct (findImports W fuel (fullPaths s)) as [|e|paths];
    [now apply stray_scanning | now apply stray_scanning |].
  all: destruct (subscribe W paths (scanning s)) as [[e|hs] s2] eqn:Hsub.
  all: destruct (stray_subscribe W paths h _ _ _ Hsub (stray_scanning h s Hs))
      as [Hs2 Hnew]; cbn [snd]; try assumption.
  all: apply stray_emit; destruct Hs2 as (H1 & H2 & H3);
    unfold stray; simpl; tauto.
Qed.

Lemma close_unfold s :
  state s <> closed ->
  close s
  = set_listeners []
      (emit run_listener EvClose
         (set_state closed (dispose_all (watchers s) s))).
Proof. intros H. unfold close. destruct (state s); congruence. Qed.

Lemma stray_close h s : stray h s -> stray h (close s).
Proof.
  intros Hs. destruct (state s) eqn:Hstate.
  3:{ unfold close. now rewrite Hstate. }
  all: rewrite close_unfold by congruence.
  all: assert (H0 : stray h (set_state closed (dispose_all (watchers s) s)))
      by (exact (stray_dispose_all h s Hs)).
  all: exact (stray_emit h EvClose _ H0).
Qed.

Lemma stray_run_build_listeners W fuel h called : forall s,
  stray h s ->
  stray h (fold_left (fun s l => run_build_listener W fuel (l_handler l) s)
             called s).
Proof.
  induction called as [|l rest IH]; intros s Hs; [exact Hs|].
  simpl. apply IH. destruct (l_handler l); simpl; try assumption.
  - now apply stray_dispose_all.
  - now apply stray_rescan.
Qed.

Lemma stray_step h st s : stray h s -> stray h (step st s).
Proof.
  intros Hs.
  destruct st as [W fuel|W fuel| |name once tag|h' event filename
                 |W fuel id out]; simpl.
  - rewrite watch_snd.
    destruct (state s); [now apply stray_rescan | assumption
                        | now apply stray_rescan].
  - now apply stray_rescan.
  - now apply stray_close.
  - exact Hs.
  - unfold emitFileChanges.
    destruct (existsb (FSWatcher_eqb h') (active s)); [|assumption].
    now apply stray_emit.
  - unfold build_done.
    destruct (existsb (Nat.eqb id) (pending s)); [|assumption].
    unfold emit. apply stray_run_build_listeners. exact Hs.
Qed.

Lemma stray_run h sts : forall s, stray h s -> stray h (run sts s).
Proof.
  induction sts as [|st sts IH]; intros s Hs; [exact Hs|].
  simpl. apply IH. now apply stray_step.
Qed.

(** X13.  When [fs.watch] throws in the middle of a [rescan] (a file
    of the scan's result is gone), the handles already made for the
    paths before it are left open and the watcher does not hold
    them.  Nothing disposes them any more: they stay open through
    every later call, notification and build result, [close]
    included. *)
Theorem failed_subscription_leaks_handles W fuel s p s' :
  rescan W fuel s = (Rejected (WatchENOENT p), s') ->
  (forall w, In w (watchers s) -> watcher_id w < next_id s) ->
  exists before after leaked,
    findImports W fuel (fullPaths s) = Done (before ++ p :: after) /\
    file_exists W p = false /\
    map watcher_path leaked = before /\
    watchers s' = watchers s /\
    forall h, In h leaked ->
      ~ In h (watchers s') /\ forall sts, In h (active (run sts s')).
Proof.
  intros Hrun Hids.
  assert (Hst : state s <> closed).
  { intros Hc. rewrite rescan_closed in Hrun by assumption. discriminate. }
  rewrite (rescan_unfold W fuel s Hst) in Hrun.
  destruct (findImports W fuel (fullPaths s)) as [|e|paths] eqn:Hscan;
    try discriminate.
  destruct (subscribe W paths (scanning s)) as [[e|hs] s2] eqn:Hsub;
    [|discriminate].
  injection Hrun as -> <-.
  destruct (subscribe_exact W paths _ _ _ Hsub)
    as (hs & _ & B2 & _ & _ & _ & _ & B7 & B8 & B9 & B10).
  destruct B10 as (before & q & after & -> & [= <-] & Hq & Hmap & _).
  destruct (scanning_fields s) as (_ & C2 & _).
  exists before, after, hs.
  split; [reflexivity|]. split; [assumption|]. split; [assumption|].
  split; [congruence|].
  intros h Hh. specialize (B9 h Hh). rewrite scanning_next_id in B9, B8.
  assert (Hnot : ~ In h (watchers s2)).
  { rewrite B2, C2. intros Hin. specialize (Hids h Hin). lia. }
  split; [assumption|]. intros sts.
  apply (stray_run h sts s2). unfold stray.
  split; [rewrite B7; apply in_or_app; now right|].
  split; [assumption | lia].
Qed.

Lemma failed_subscription_leaks_handles_witness :
  exists before after leaked,
    findImports gone_is_gone 2 ["/app.ts"; "/gone.ts"]
    = Done (before ++ "/gone.ts" :: after) /\
    file_exists gone_is_gone "/gone.ts" = false /\
    map watcher_path leaked = before /\
    watchers (snd (rescan gone_is_gone 2
                     (new_DependencyWatcher ["/app.ts"; "/gone.ts"])))
    = [] /\
    forall h, In h leaked ->
      ~ In h (watchers (snd (rescan gone_is_gone 2
                               (new_DependencyWatcher
                                  ["/app.ts"; "/gone.ts"])))) /\
      forall sts,
        In h (active (run sts
                        (snd (rescan gone_is_gone 2
                                (new_DependencyWatcher
                                   ["/app.ts"; "/gone.ts"]))))).
Proof.
  apply (failed_subscription_leaks_handles gone_is_gone 2
           (new_DependencyWatcher ["/app.ts"; "/gone.ts"]) "/gone.ts").
  - vm_compute. reflexivity.
  - intros w [].
Defined.

Example leaked_handle_outlives_close :
  active (run [CallClose; CallRescan gone_is_gone 2]
            (snd (rescan gone_is_gone 2
                    (new_DependencyWatcher ["/app.ts"; "/gone.ts"]))))
  = [{| watcher_id := 0; watcher_path := "/app.ts" |}].
Proof. vm_compute. reflexivity. Qed.


(** *** The listeners [rescan] registers *)

(** [new DependencyWatcher(..)], or [new BuildWatcher(..)] with its
    options. *)
Definition new_watcher (paths : list string)
  (build : option BuildWatchOptions) : Sys :=
  match build with
  | None => new_DependencyWatcher paths
  | Some opts => new_BuildWatcher paths opts
  end.

Definition is_closer (l : Listener) : bool :=
  match l_handler l with CloseWatchers => true | _ => false end.

(** The listeners of the close event that dispose [this.watchers]. *)
Definition closers (ls : list Listener) : nat :=
  List.length (filter is_closer (called_by on_close ls)).

Lemma called_by_kept name name' ls :
  name <> name' ->
  called_by name (kept_after name' ls) = called_by name ls.
Proof.
  intros Hne. unfold called_by, kept_after.
  induction ls as [|l ls IH]; [reflexivity|]. simpl.
  destruct (EventName_eqb (l_event l) name) eqn:E.
  - assert (E' : EventName_eqb (l_event l) name' = false).
    { apply EventName_eqb_eq in E.
      destruct (EventName_eqb (l_event l) name') eqn:E'; [|reflexivity].
      apply EventName_eqb_eq in E'. congruence. }
    rewrite E'. simpl. rewrite E. now rewrite IH.
  - destruct (negb (EventName_eqb (l_event l) name' && l_once l));
      [simpl; rewrite E|]; exact IH.
Qed.

Lemma closers_kept name ls :
  name <> on_close -> closers (kept_after name ls) = closers ls.
Proof.
  intros Hne. unfold closers. rewrite called_by_kept; [reflexivity|].
  congruence.
Qed.

Lemma closers_app ls l :
  closers (ls ++ [l])
  = closers ls
    + (if EventName_eqb (l_event l) on_close && is_closer l then 1 else 0).
Proof.
  unfold closers. rewrite called_by_app, filter_app, length_app.
  f_equal. unfold called_by. simpl.
  destruct (EventName_eqb (l_event l) on_close); [|reflexivity].
  simpl. destruct (is_closer l); reflexivity.
Qed.

(** One disposing listener for each watch event so far, and no handle
    held twice. *)
Definition piled (s : Sys) : Prop :=
  (state s <> closed ->
   closers (listeners s) = count (is_emit on_watch) (log s)) /\
  NoDup (watchers s).

Lemma piled_calm s s' d :
  piled s -> effect s s' d 0 -> piled s'.
Proof.
  intros [H1 H2] (_ & A2 & A3 & A4 & _ & A6 & _ & _ & _ & A10 & _).
  split; [|now rewrite A2].
  rewrite A3, A4, A6, count_app, (calm_no_emit _ d A10), Nat.add_0_r.
  exact H1.
Qed.

Lemma piled_rescan W fuel s : piled s -> piled (snd (rescan W fuel s)).
Proof.
  intros [H1 H2]. destruct (state s) eqn:Hstate.
  3:{ rewrite rescan_closed by assumption. now split. }
  all: assert (Hst : state s <> closed) by congruence.
  all: rewrite <- Hstate in *.
  all: specialize (H1 Hst).
  all: destruct (rescan W fuel s) as [r s'] eqn:Hrun; cbn [snd].
  all: assert (Hunres : (forall paths, r <> Resolved paths) -> piled s').
  1,3: intros Hr;
    destruct (rescan_not_resolved W fuel s r s' Hst Hrun Hr)
      as (hs & _ & A2 & _ & A4 & _ & _ & A7 & _);
    split; [|now rewrite A2];
    intros _; rewrite A4, A7, !count_app, count_dispose_0, count_open_0
      by reflexivity;
    rewrite H1; unfold count; simpl; lia.
  all: destruct r as [paths|e|]; try (apply Hunres; discriminate).
  all: destruct (rescan_resolved W fuel s paths s' Hrun)
      as (_ & Hscan & hs & d & k & Hmap & _ & A2 & _ & A4 & _ & _ & _
          & Hcalm & _ & A7 & _).
  all: split;
    [ intros _; rewrite A4, A7, closers_kept, closers_app by discriminate;
      rewrite count_app, count_rescan_delta, count_cons,
        (calm_no_emit _ d Hcalm) by reflexivity;
      rewrite H1; simpl; lia
    | rewrite A2; apply (NoDup_map_inv watcher_path); rewrite Hmap;
      exact (scanLoop_NoDup W fuel _ _ paths Hscan) ].
Qed.

Lemma piled_run_build_listeners W fuel called : forall s,
  piled s ->
  piled (fold_left (fun s l => run_build_listener W fuel (l_handler l) s)
           called s).
Proof.
  induction called as [|l rest IH]; intros s Hs; [exact Hs|].
  simpl. apply IH. destruct (l_handler l); simpl; try assumption.
  - exact (piled_calm s _ _ Hs (effect_dispose_all (watchers s) s)).
  - destruct Hs as [H1 H2]. split; [|exact H2]. simpl.
    intros Hst. rewrite count_app, (H1 Hst). unfold count. simpl. lia.
  - now apply piled_rescan.
Qed.

Lemma piled_step st s : piled s -> piled (step st s).
Proof.
  intros Hs.
  destruct st as [W fuel|W fuel| |name once tag|h event filename
                 |W fuel id out]; simpl.
  - rewrite watch_snd.
    destruct (state s); [now apply piled_rescan | assumption
                        | now apply piled_rescan].
  - now apply piled_rescan.
  - split; [now rewrite close_state|].
    destruct (state s) eqn:E.
    3:{ unfold close. rewrite E. apply Hs. }
    all: destruct (close_open s) as (d & _ & _ & _ & F3 & _);
      [congruence | rewrite F3; apply Hs].
  - destruct Hs as [H1 H2]. split; [|exact H2]. simpl.
    intros Hst. rewrite closers_app. simpl.
    rewrite andb_false_r, Nat.add_0_r. now apply H1.
  - unfold emitFileChanges.
    destruct (existsb (FSWatcher_eqb h) (active s)); [|assumption].
    destruct (emit_exact (EvChange event filename) s)
      as (_ & A2 & A3 & A4 & _ & A6 & _ & A8).
    destruct Hs as [H1 H2]. split; [|now rewrite A2].
    rewrite A3, A4, A6, closers_kept by discriminate.
    intros Hst. rewrite count_app, count_cons, (calm_no_emit _ _ A8).
    simpl. rewrite Nat.add_0_r. now apply H1.
  - unfold build_done.
    destruct (existsb (Nat.eqb id) (pending s)); [|assumption].
    unfold emit. apply piled_run_build_listeners.
    destruct Hs as [H1 H2]. split; [|exact H2]. simpl.
    intros Hst.
    change (filter
              (fun l => negb (EventName_eqb (l_event l) on_build && l_once l))
              (listeners s))
      with (kept_after on_build (listeners s)).
    rewrite closers_kept by discriminate.
    rewrite count_app. unfold count at 2. simpl. rewrite Nat.add_0_r.
    now apply H1.
Qed.

Lemma piled_run sts : forall s, piled s -> piled (run sts s).
Proof.
  induction sts as [|st sts IH]; intros s Hs; [exact Hs|].
  simpl. apply IH. now apply piled_step.
Qed.

Lemma piled_new paths build : piled (new_watcher paths build).
Proof.
  split; [intros _|].
  - destruct build as [[c q r]|]; [|reflexivity].
    destruct q, r; reflexivity.
  - destruct build as [[c q r]|]; [|constructor].
    destruct q, r; constructor.
Qed.

(** X14.  Every [rescan] that resolves registers one more listener of
    the close event that disposes [this.watchers], and none is removed
    before [close]: in a session of a watcher that is not closed there
    are as many such listeners as watch events have been emitted. *)
Theorem close_listeners_pile_up paths build sts :
  state (run sts (new_watcher paths build)) <> closed ->
  closers (listeners (run sts (new_watcher paths build)))
  = count (is_emit on_watch) (log (run sts (new_watcher paths build))).
Proof.
  intros Hst.
  destruct (piled_run sts _ (piled_new paths build)) as [H _].
  now apply H.
Qed.

Lemma close_listeners_pile_up_witness :
  closers
    (listeners
       (run [CallWatch app_imports_lib 3; CallRescan app_imports_lib 3;
             CallRescan app_cycle 4; CallRescan app_imports_lib 3]
          (new_watcher ["/app.ts"] None)))
  = count (is_emit on_watch)
      (log
         (run [CallWatch app_imports_lib 3; CallRescan app_imports_lib 3;
               CallRescan app_cycle 4; CallRescan app_imports_lib 3]
            (new_watcher ["/app.ts"] None))).
Proof.
  apply (close_listeners_pile_up ["/app.ts"] None
           [CallWatch app_imports_lib 3; CallRescan app_imports_lib 3;
            CallRescan app_cycle 4; CallRescan app_imports_lib 3]).
  vm_compute. discriminate.
Defined.

Example three_close_listeners :
  closers
    (listeners
       (run [CallWatch app_imports_lib 3; CallRescan app_imports_lib 3;
             CallRescan app_cycle 4; CallRescan app_imports_lib 3]
          (new_watcher ["/app.ts"] None)))
  = 3.
Proof. vm_compute. reflexivity. Qed.

Lemma count_calm_free h ws :
  (forall x, In x ws -> is_dispose_of h (ADispose x) = false) ->
  count (is_dispose_of h) (map ADispose ws) = 0.
Proof.
  induction ws as [|w ws IH]; intros H; [reflexivity|].
  simpl. rewrite count_cons, (H w) by now left.
  apply IH. intros x Hx. apply H. now right.
Qed.

Lemma count_heard_dispose h ws called : forall nb,
  count (is_dispose_of h) (heard ws nb called)
  = List.length (filter is_closer called)
    * count (is_dispose_of h) (map ADispose ws).
Proof.
  induction called as [|l rest IH]; intros nb; [reflexivity|].
  simpl. unfold is_closer at 1.
  destruct (l_handler l); simpl; rewrite ?count_app, ?count_cons, ?IH;
    simpl; lia.
Qed.

Lemma count_dispose_of_NoDup h ws :
  NoDup ws -> In h ws -> count (is_dispose_of h) (map ADispose ws) = 1.
Proof.
  induction 1 as [|w ws Hw Hnd IH]; intros Hin; [contradiction|].
  simpl. rewrite count_cons. simpl.
  destruct (FSWatcher_eqb h w) eqn:E.
  - apply FSWatcher_eqb_eq in E. subst w.
    rewrite count_calm_free; [reflexivity|].
    intros x Hx. simpl. destruct (FSWatcher_eqb h x) eqn:E'; [|reflexivity].
    apply FSWatcher_eqb_eq in E'. subst x. contradiction.
  - destruct Hin as [->|Hin]; [now rewrite FSWatcher_eqb_refl in E|].
    now rewrite IH.
Qed.


Lemma close_log s :
  state s <> closed ->
  log (close s)
  = log s ++ map ADispose (watchers s)
          ++ AEmit EvClose
             :: heard (watchers s) (next_build s)
                  (called_by on_close (listeners s)).
Proof.
  intros Hst. rewrite close_unfold by assumption. simpl.
  destruct (emit_exact EvClose
              (set_state closed (dispose_all (watchers s) s)))
    as (_ & _ & _ & _ & _ & A6 & _).
  simpl in A6. rewrite A6.
  destruct (effect_dispose_all (watchers s) s)
    as (_ & B2 & _ & B4 & _ & B6 & _ & _ & B9 & _).
  rewrite B2, B4, B6, B9, Nat.add_0_r, <- app_assoc. reflexivity.
Qed.

(** X15.  [close] calls [close] on every handle the watcher holds
    once itself and once more for each watch event the watcher has
    emitted since it was made: after [n] scans that resolved, each
    handle is disposed [n + 1] times. *)
Theorem close_disposal_count paths build sts h :
  state (run sts (new_watcher paths build)) <> closed ->
  In h (watchers (run sts (new_watcher paths build))) ->
  count (is_dispose_of h) (log (close (run sts (new_watcher paths build))))
  = count (is_dispose_of h) (log (run sts (new_watcher paths build)))
    + 1
    + count (is_emit on_watch) (log (run sts (new_watcher paths build))).
Proof.
  intros Hst Hin.
  destruct (piled_run sts _ (piled_new paths build)) as [Hc Hnd].
  rewrite close_log by assumption.
  rewrite !count_app, count_cons, count_heard_dispose.
  rewrite (count_dispose_of_NoDup h _ Hnd Hin). simpl.
  fold (closers (listeners (run sts (new_watcher paths build)))).
  rewrite (Hc Hst). lia.
Qed.

Lemma close_disposal_count_witness :
  count (is_dispose_of {| watcher_id := 2; watcher_path := "/app.ts" |})
    (log (close (run [CallWatch app_imports_lib 3;
                      CallRescan app_imports_lib 3]
                   (new_watcher ["/app.ts"] None))))
  = count (is_dispose_of {| watcher_id := 2; watcher_path := "/app.ts" |})
      (log (run [CallWatch app_imports_lib 3; CallRescan app_imports_lib 3]
              (new_watcher ["/app.ts"] None)))
    + 1
    + count (is_emit on_watch)
        (log (run [CallWatch app_imports_lib 3; CallRescan app_imports_lib 3]
                (new_watcher ["/app.ts"] None))).
Proof.
  apply (close_disposal_count ["/app.ts"] None
           [CallWatch app_imports_lib 3; CallRescan app_imports_lib 3]
           {| watcher_id := 2; watcher_path := "/app.ts" |}).
  - vm_compute. discriminate.
  - vm_compute. left. reflexivity.
Defined.

Example handle_disposed_three_times :
  count (is_dispose_of {| watcher_id := 2; watcher_path := "/app.ts" |})
    (log (close (run [CallWatch app_imports_lib 3;
                      CallRescan app_imports_lib 3]
                   (new_watcher ["/app.ts"] None))))
  = 3.
Proof. vm_compute. reflexivity. Qed.

(** *** The [rescan] option *)

Definition is_rescanner (l : Listener) : bool :=
  match l_handler l with Rescan => true | _ => false end.

(** The listeners of the build event that call [rescan]. *)
Definition rescanners (ls : list Listener) : nat :=
  List.length (filter is_rescanner (called_by on_build ls)).

Definition steady (ls : list Listener) : Prop :=
  forall l, In l ls -> is_rescanner l = true -> l_once l = false.

Lemma rescanners_kept name ls :
  steady ls -> rescanners (kept_after name ls) = rescanners ls.
Proof.
  unfold rescanners, called_by, kept_after.
  induction ls as [|l ls IH]; intros Hs; [reflexivity|].
  assert (IH' := IH (fun l' Hl' => Hs l' (or_intror Hl'))).
  specialize (Hs l (or_introl eq_refl)). simpl.
  destruct (is_rescanner l) eqn:Er.
  - rewrite (Hs eq_refl), andb_false_r. simpl.
    destruct (EventName_eqb (l_event l) on_build); simpl;
      rewrite ?Er; simpl; now rewrite IH'.
  - destruct (negb (EventName_eqb (l_event l) name && l_once l)); simpl;
      destruct (EventName_eqb (l_event l) on_build); simpl;
      rewrite ?Er; exact IH'.
Qed.

Lemma steady_kept name ls : steady ls -> steady (kept_after name ls).
Proof.
  intros H l Hl. apply H. unfold kept_after in Hl.
  apply filter_In in Hl. tauto.
Qed.

Lemma steady_app ls l :
  steady ls -> is_rescanner l = false -> steady (ls ++ [l]).
Proof.
  intros H Hl l' Hin Hr. apply in_app_iff in Hin.
  destruct Hin as [Hin|[<-|[]]]; [now apply H | congruence].
Qed.

Lemma rescanners_app ls l :
  is_rescanner l = false -> rescanners (ls ++ [l]) = rescanners ls.
Proof.
  intros Hl. unfold rescanners.
  rewrite called_by_app, filter_app, length_app.
  unfold called_by at 2. simpl.
  destruct (EventName_eqb (l_event l) on_build); simpl;
    rewrite ?Hl; simpl; lia.
Qed.

Definition tuned (n : nat) (s : Sys) : Prop :=
  state s <> closed -> rescanners (listeners s) = n /\ steady (listeners s).

Lemma tuned_same n s s' :
  tuned n s -> state s' = state s -> listeners s' = listeners s ->
  tuned n s'.
Proof. intros H E1 E2. unfold tuned. now rewrite E1, E2. Qed.

Lemma tuned_rescan n W fuel s : tuned n s -> tuned n (snd (rescan W fuel s)).
Proof.
  intros Ht. destruct (state s) eqn:Hstate.
  3:{ now rewrite rescan_closed. }
  all: assert (Hst : state s <> closed) by congruence.
  all: destruct (Ht Hst) as [Hn Hs].
  all: destruct (rescan W fuel s) as [r s'] eqn:Hrun; cbn [snd].
  all: assert (Hunres : (forall paths, r <> Resolved paths) -> tuned n s').
  1,3: intros Hr;
    destruct (rescan_not_resolved W fuel s r s' Hst Hrun Hr)
      as (hs & _ & _ & _ & A4 & _);
    intros _; now rewrite A4.
  all: destruct r as [paths|e|]; try (apply Hunres; discriminate).
  all: destruct (rescan_resolved W fuel s paths s' Hrun)
      as (_ & _ & hs & d & k & _ & _ & _ & _ & A4 & _).
  all: intros _; rewrite A4; split;
    [ rewrite rescanners_kept, rescanners_app;
      [assumption | reflexivity | now apply steady_app]
    | now apply steady_kept, steady_app ].
Qed.

Lemma tuned_run_build_listeners n W fuel called : forall s,
  tuned n s ->
  tuned n (fold_left (fun s l => run_build_listener W fuel (l_handler l) s)
             called s).
Proof.
  induction called as [|l rest IH]; intros s Hs; [exact Hs|].
  simpl. apply IH. destruct (l_handler l); simpl; try assumption.
  - destruct (effect_dispose_all (watchers s) s) as (_ & _ & A3 & A4 & _).
    now apply (tuned_same n s).
  - now apply tuned_rescan.
Qed.

Lemma closed_step st s : state s = closed -> state (step st s) = closed.
Proof.
  intros Hst. pose proof (rank_step st s) as H. rewrite Hst in H.
  destruct (state (step st s)); simpl in H; try lia. reflexivity.
Qed.

Lemma tuned_step n st s : tuned n s -> tuned n (step st s).
Proof.
  intros Ht.
  destruct st as [W fuel|W fuel| |name once tag|h event filename
                 |W fuel id out]; simpl.
  - rewrite watch_snd.
    destruct (state s); [now apply tuned_rescan | assumption
                        | now apply tuned_rescan].
  - now apply tuned_rescan.
  - intros Hc. now rewrite close_state in Hc.
  - intros Hst. simpl in Hst. destruct (Ht Hst) as [Hn Hs]. simpl. split.
    + now rewrite rescanners_app.
    + now apply steady_app.
  - unfold emitFileChanges.
    destruct (existsb (FSWatcher_eqb h) (active s)); [|assumption].
    destruct (emit_exact (EvChange event filename) s)
      as (_ & _ & A3 & A4 & _).
    intros Hst. rewrite A3 in Hst. destruct (Ht Hst) as [Hn Hs].
    rewrite A4. split; [now rewrite rescanners_kept | now apply steady_kept].
  - unfold build_done.
    destruct (existsb (Nat.eqb id) (pending s)); [|assumption].
    unfold emit. apply tuned_run_build_listeners.
    intros Hst. simpl in Hst. destruct (Ht Hst) as [Hn Hs]. simpl.
    change (filter
              (fun l => negb (EventName_eqb (l_event l) on_build && l_once l))
              (listeners s))
      with (kept_after on_build (listeners s)).
    split; [now rewrite rescanners_kept | now apply steady_kept].
Qed.

Lemma tuned_run n sts : forall s, tuned n s -> tuned n (run sts s).
Proof.
  induction sts as [|st sts IH]; intros s Hs; [exact Hs|].
  simpl. apply IH. now apply tuned_step.
Qed.

Lemma tuned_new entrypoints opts :
  tuned (if opt_rescan opts then 1 else 0) (new_BuildWatcher entrypoints opts).
Proof.
  intros _. destruct opts as [c q r]. unfold new_BuildWatcher. simpl.
  destruct q, r; simpl; (split; [reflexivity|]);
    intros l Hl Hr; simpl in Hl; unfold is_rescanner in Hr;
    repeat (destruct Hl as [<-|Hl]; [simpl in *; congruence|]);
    contradiction.
Qed.

Lemma scans_rescan W fuel s :
  state s <> closed ->
  state (snd (rescan W fuel s)) <> closed /\
  count is_scan (log (snd (rescan W fuel s))) = count is_scan (log s) + 1.
Proof.
  intros Hst. split; [rewrite rescan_state by assumption; discriminate|].
  destruct (rescan W fuel s) as [r s'] eqn:Hrun; cbn [snd].
  assert (Hunres : (forall paths, r <> Resolved paths) ->
            count is_scan (log s') = count is_scan (log s) + 1).
  { intros Hr.
    destruct (rescan_not_resolved W fuel s r s' Hst Hrun Hr)
      as (hs & _ & _ & _ & _ & _ & _ & A7 & _).
    rewrite A7, !count_app, count_dispose_0, count_open_0 by reflexivity.
    unfold count. simpl. lia. }
  destruct r as [paths|e|]; try (apply Hunres; discriminate).
  destruct (rescan_resolved W fuel s paths s' Hrun)
    as (_ & _ & hs & d & k & _ & _ & _ & _ & _ & _ & _ & _
        & Hcalm & _ & A7 & _).
  rewrite A7, !count_app, count_dispose_0, count_open_0, !count_cons
    by reflexivity.
  rewrite (count_calm is_scan d); [unfold count; simpl; lia | | assumption].
  intros [] Ha; simpl in *; tauto.
Qed.

Lemma scans_run_build_listeners W fuel called : forall s,
  state s <> closed ->
  count is_scan
    (log (fold_left (fun s l => run_build_listener W fuel (l_handler l) s)
            called s))
  = count is_scan (log s) + List.length (filter is_rescanner called).
Proof.
  induction called as [|l rest IH]; intros s Hst; simpl; [lia|].
  unfold is_rescanner at 1. destruct (l_handler l); simpl.
  - destruct (effect_dispose_all (watchers s) s)
      as (_ & _ & A3 & _ & _ & A6 & _).
    rewrite IH by now rewrite A3.
    rewrite A6, count_app, count_dispose_0 by reflexivity. lia.
  - rewrite IH by exact Hst. simpl. rewrite count_app.
    unfold count at 2. simpl. lia.
  - destruct (scans_rescan W fuel s Hst) as [Hst' Hcount].
    rewrite IH by exact Hst'. rewrite Hcount. lia.
  - now rewrite IH.
  - now rewrite IH.
  - now rewrite IH.
Qed.

(** X17.  With the [rescan] option a build watcher that is not
    closed rescans once each time a build completes: the build event
    begins exactly one scan, however many scans, changes and listener
    registrations came before.  Without the option a build event
    begins none. *)
Theorem rescan_option_scans_per_build entrypoints opts sts W fuel id out :
  state (run sts (new_BuildWatcher entrypoints opts)) <> closed ->
  In id (pending (run sts (new_BuildWatcher entrypoints opts))) ->
  count is_scan
    (log (build_done W fuel id out
            (run sts (new_BuildWatcher entrypoints opts))))
  = count is_scan (log (run sts (new_BuildWatcher entrypoints opts)))
    + (if opt_rescan opts then 1 else 0).
Proof.
  intros Hst Hin.
  destruct (tuned_run _ sts _ (tuned_new entrypoints opts) Hst) as [Hn _].
  set (s := run sts (new_BuildWatcher entrypoints opts)) in *.
  unfold build_done.
  assert (Hp : existsb (Nat.eqb id) (pending s) = true).
  { apply existsb_exists. exists id. split; [assumption|].
    apply Nat.eqb_refl. }
  rewrite Hp. unfold emit. rewrite scans_run_build_listeners by exact Hst.
  simpl. rewrite count_app. unfold count at 2. simpl.
  fold (called_by on_build (listeners s)).
  fold (rescanners (listeners s)). rewrite Hn. lia.
Qed.

Lemma rescan_option_scans_per_build_witness :
  count is_scan
    (log (build_done app_imports_lib 3 0 built
            (run [CallWatch app_imports_lib 3]
               (new_BuildWatcher ["/app.ts"] quiet_rescanning))))
  = count is_scan
      (log (run [CallWatch app_imports_lib 3]
              (new_BuildWatcher ["/app.ts"] quiet_rescanning)))
    + 1.
Proof.
  apply (rescan_option_scans_per_build ["/app.ts"] quiet_rescanning
           [CallWatch app_imports_lib 3] app_imports_lib 3 0 built).
  - vm_compute. discriminate.
  - vm_compute. left. reflexivity.
Defined.


(** What a listener of the build event adds to the log: no change
    event and no close event. *)
Definition no_trigger (D : list Action) : Prop :=
  count (is_emit on_change) D = 0 /\ count (is_emit on_close) D = 0.

Lemma no_trigger_app D1 D2 :
  no_trigger D1 -> no_trigger D2 -> no_trigger (D1 ++ D2).
Proof.
  intros [H1 H2] [H3 H4]. unfold no_trigger. rewrite !count_app. lia.
Qed.

Lemma no_trigger_rescan W fuel s :
  exists D, log (snd (rescan W fuel s)) = log s ++ D /\ no_trigger D.
Proof.
  destruct (state s) eqn:Hstate.
  3:{ rewrite rescan_closed by assumption. exists [].
      split; [now rewrite app_nil_r | split; reflexivity]. }
  all: assert (Hst : state s <> closed) by congruence.
  all: destruct (rescan W fuel s) as [r s'] eqn:Hrun; cbn [snd].
  all: assert (Hunres : (forall paths, r <> Resolved paths) ->
            exists D, log s' = log s ++ D /\ no_trigger D).
  1,3: intros Hr;
    destruct (rescan_not_resolved W fuel s r s' Hst Hrun Hr)
      as (hs & _ & _ & _ & _ & _ & _ & A7 & _);
    eexists; (split; [exact A7|]);
    split; rewrite !count_app, count_dispose_0, count_open_0 by reflexivity;
    reflexivity.
  all: destruct r as [paths|e|]; try (apply Hunres; discriminate).
  all: destruct (rescan_resolved W fuel s paths s' Hrun)
      as (_ & _ & hs & d & k & _ & _ & _ & _ & _ & _ & _ & _
          & Hcalm & _ & A7 & _).
  all: eexists; (split; [exact A7|]);
    split; rewrite count_rescan_delta, count_cons,
             (calm_no_emit _ d Hcalm) by reflexivity;
    reflexivity.
Qed.

Lemma no_trigger_run_build_listeners W fuel called : forall s,
  exists D,
    log (fold_left (fun s l => run_build_listener W fuel (l_handler l) s)
           called s)
    = log s ++ D /\ no_trigger D.
Proof.
  induction called as [|l rest IH]; intros s.
  - exists []. split; [now rewrite app_nil_r | split; reflexivity].
  - simpl.
    assert (Hone : exists D,
              log (run_build_listener W fuel (l_handler l) s) = log s ++ D /\
              no_trigger D).
    { destruct (l_handler l); simpl;
        try (exists []; split; [now rewrite app_nil_r | split; reflexivity]).
      - destruct (effect_dispose_all (watchers s) s)
          as (_ & _ & _ & _ & _ & A6 & _).
        eexists. split; [exact A6|].
        split; now rewrite count_dispose_0.
      - eexists. split; [reflexivity | split; reflexivity].
      - apply no_trigger_rescan. }
    destruct Hone as (D1 & H1 & N1).
    destruct (IH (run_build_listener W fuel (l_handler l) s))
      as (D2 & H2 & N2).
    exists (D1 ++ D2). split; [|now apply no_trigger_app].
    rewrite H2, H1. now rewrite app_assoc.
Qed.

(** X18.  The build event cannot feed itself.  A build that completes
    begins at most one build, and none once a watch event has been
    emitted: with the [rescan] option the scan it sets off emits a
    watch event, and the listener that builds on the watch event
    has been used up by the first one. *)
Theorem build_event_does_not_loop entrypoints opts sts W fuel id out :
  count is_build
    (log (build_done W fuel id out
            (run sts (new_BuildWatcher entrypoints opts))))
  <= count is_build (log (run sts (new_BuildWatcher entrypoints opts))) + 1 /\
  (count (is_emit on_watch) (log (run sts (new_BuildWatcher entrypoints opts)))
   <> 0 ->
   count is_build
     (log (build_done W fuel id out
             (run sts (new_BuildWatcher entrypoints opts))))
   = count is_build (log (run sts (new_BuildWatcher entrypoints opts)))).
Proof.
  set (s := run sts (new_BuildWatcher entrypoints opts)).
  assert (HJ : J s) by (apply J_run, J_new).
  assert (HJ' : J (build_done W fuel id out s)) by now apply J_build_done.
  rewrite (J_builds _ HJ), (J_builds _ HJ'),
    (J_triggers _ HJ), (J_triggers _ HJ').
  assert (Hlog : exists D,
            log (build_done W fuel id out s) = log s ++ D /\ no_trigger D).
  { unfold build_done. destruct (existsb (Nat.eqb id) (pending s)).
    - unfold emit.
      match goal with
      | |- context [fold_left ?f ?called ?s0] =>
          destruct (no_trigger_run_build_listeners W fuel called s0)
            as (D & HD & ND)
      end.
      exists (AEmit (EvBuild id out) :: D). split.
      + rewrite HD. simpl. now rewrite <- app_assoc.
      + destruct ND as [N1 N2]. split; rewrite count_cons; simpl; assumption.
    - exists []. split; [now rewrite app_nil_r | split; reflexivity]. }
  destruct Hlog as (D & -> & Hchange & Hclose).
  destruct (Nat.eq_dec (count (is_emit on_close) (log s)) 0) as [H0|H0].
  - rewrite triggers_open, triggers_no_close, Hchange by assumption.
    destruct (count (is_emit on_watch) (log s)) as [|w]; simpl.
    + split; [|congruence].
      destruct (count (is_emit on_watch) D); simpl; lia.
    + split; [lia | intros _; lia].
  - unfold triggers. rewrite session_over by assumption.
    split; [lia | reflexivity].
Qed.


Lemma build_event_does_not_loop_witness :
  count (is_emit on_watch)
    (log (run [CallWatch app_imports_lib 3]
            (new_BuildWatcher ["/app.ts"] quiet_rescanning))) <> 0 /\
  count is_build
    (log (build_done app_imports_lib 3 0 built
            (run [CallWatch app_imports_lib 3]
               (new_BuildWatcher ["/app.ts"] quiet_rescanning))))
  = count is_build
      (log (run [CallWatch app_imports_lib 3]
              (new_BuildWatcher ["/app.ts"] quiet_rescanning))).
Proof.
  assert (H : count (is_emit on_watch)
                (log (run [CallWatch app_imports_lib 3]
                        (new_BuildWatcher ["/app.ts"] quiet_rescanning)))
              <> 0) by (vm_compute; discriminate).
  split; [exact H|].
  exact (proj2 (build_event_does_not_loop ["/app.ts"] quiet_rescanning
                  [CallWatch app_imports_lib 3] app_imports_lib 3 0 built)
           H).
Defined.

(** The one build a build event can begin: the first [watch] lost
    [/gone.ts] after opening [/app.ts], whose handle stays open; a
    change of [/app.ts] begins build 0, and the rescan that follows its
    build event emits the first watch event of the session, which
    begins build 1. *)
Example build_event_begins_one_build :
  let s := run [CallWatch gone_is_gone 2;
                FsEvent {| watcher_id := 0; watcher_path := "/app.ts" |}
                  "change" (Some "app.ts")]
               (new_BuildWatcher ["/app.ts"; "/gone.ts"] quiet_rescanning) in
  count is_build (log s) = 1 /\
  count (is_emit on_watch) (log s) = 0 /\
  count is_build
    (log (build_done (ScannerProps.tree ScannerProps.everything []) 2 0
            built s))
  = 2.
Proof. vm_compute. repeat split; reflexivity. Qed.


(** *** The close event *)

Lemma heard_calm ws called : forall nb, Forall calm (heard ws nb called).
Proof.
  induction called as [|l rest IH]; intros nb; [constructor|]. simpl.
  destruct (l_handler l); try apply IH.
  - apply Forall_app. split; [|apply IH].
    apply Forall_forall. intros a Ha. apply in_map_iff in Ha.
    destruct Ha as (x & <- & _). exact I.
  - constructor; [exact I | apply IH].
Qed.

Lemma in_flight_no_close d :
  Forall in_flight d -> count (is_emit on_close) d = 0.
Proof.
  induction 1 as [|a d Ha _ IH]; [reflexivity|].
  rewrite count_cons, IH.
  destruct a as [x|x|x|ev|x]; try contradiction.
  destruct ev; simpl in *; tauto.
Qed.

Lemma open_run_build_listeners W fuel called : forall s,
  state s <> closed ->
  state (fold_left (fun s l => run_build_listener W fuel (l_handler l) s)
           called s) <> closed.
Proof.
  induction called as [|l rest IH]; intros s Hst; [exact Hst|].
  simpl. apply IH. destruct (l_handler l); simpl; try assumption.
  - destruct (effect_dispose_all (watchers s) s) as (_ & _ & A3 & _).
    now rewrite A3.
  - rewrite rescan_state by assumption. discriminate.
Qed.

Lemma open_step st s :
  state s <> closed -> st <> CallClose ->
  state (step st s) <> closed /\
  exists D, log (step st s) = log s ++ D /\ count (is_emit on_close) D = 0.
Proof.
  intros Hst Hnc.
  assert (Hsame : state s <> closed /\
                  exists D, log s = log s ++ D /\
                            count (is_emit on_close) D = 0).
  { split; [assumption|]. exists []. split; [now rewrite app_nil_r|].
    reflexivity. }
  assert (Hrescan : forall W fuel,
            state (snd (rescan W fuel s)) <> closed /\
            exists D, log (snd (rescan W fuel s)) = log s ++ D /\
                      count (is_emit on_close) D = 0).
  { intros W fuel. split; [rewrite rescan_state by assumption; discriminate|].
    destruct (no_trigger_rescan W fuel s) as (D & HD & _ & HN).
    now exists D. }
  destruct st as [W fuel|W fuel| |name once tag|h event filename
                 |W fuel id out]; simpl.
  - rewrite watch_snd. destruct (state s) eqn:E; try (rewrite <- E in *).
    + apply Hrescan.
    + rewrite E in Hsame. rewrite E. exact Hsame.
    + congruence.
  - apply Hrescan.
  - congruence.
  - exact Hsame.
  - unfold emitFileChanges.
    destruct (existsb (FSWatcher_eqb h) (active s)); [|exact Hsame].
    destruct (emit_exact (EvChange event filename) s)
      as (_ & _ & A3 & _ & _ & A6 & _ & A8).
    split; [now rewrite A3|]. eexists. split; [exact A6|].
    rewrite count_cons, (calm_no_emit _ _ A8). reflexivity.
  - unfold build_done.
    destruct (existsb (Nat.eqb id) (pending s)); [|exact Hsame].
    unfold emit. split; [now apply open_run_build_listeners|].
    match goal with
    | |- context [fold_left ?f ?called ?s0] =>
        destruct (no_trigger_run_build_listeners W fuel called s0)
          as (D & HD & _ & HN)
    end.
    exists (AEmit (EvBuild id out) :: D). split.
    + rewrite HD. simpl. now rewrite <- app_assoc.
    + rewrite count_cons. simpl. exact HN.
Qed.

(** The close event is in the log once the watcher is closed, and not
    before; a closed watcher has lost the listeners it registered. *)
Definition closed_once (s : Sys) : Prop :=
  count (is_emit on_close) (log s)
  = match state s with closed => 1 | _ => 0 end /\
  (state s = closed -> user_only (listeners s)).

Lemma closed_once_step st s : closed_once s -> closed_once (step st s).
Proof.
  intros [Hc Hu]. destruct (state s) eqn:Hstate.
  3:{ destruct (inert_step st s Hstate (Hu eq_refl))
        as (H1 & H2 & _ & _ & d & H5 & H6).
      split; [|intros _; exact H2].
      rewrite H1, H5, count_app, Hc, (in_flight_no_close d H6).
      reflexivity. }
  all: assert (Hst : state s <> closed) by congruence.
  all: destruct st as [W fuel|W fuel| |name once tag|h event filename
                      |W fuel id out].
  3,9: (split;
        [ simpl; rewrite close_state, close_log, !count_app, count_dispose_0,
            count_cons, (calm_no_emit _ _ (heard_calm _ _ _)), Hc
            by (reflexivity || assumption);
          reflexivity
        | intros _; simpl;
          destruct (close_open s Hst) as (d & _ & _ & F2 & _);
          rewrite F2; intros l [] ]).
  all: match goal with
       | |- closed_once (step ?st ?s1) =>
           destruct (open_step st s1 Hst) as (Hst' & D & HD & HN);
             [discriminate|];
           split; [|intros Habs; congruence];
           rewrite HD, count_app, Hc, HN;
           destruct (state (step st s1)); [reflexivity | reflexivity
                                          | congruence]
       end.
Qed.

Lemma closed_once_run sts : forall s, closed_once s -> closed_once (run sts s).
Proof.
  induction sts as [|st sts IH]; intros s Hs; [exact Hs|].
  simpl. apply IH. now apply closed_once_step.
Qed.

(** X21.  Over the whole life of a watcher the close event is emitted
    exactly once, by the first [close], and never before it: at any
    moment the log holds one close event if the watcher is closed and
    none otherwise, whatever was called and whatever came in. *)
Theorem close_event_exactly_once paths build sts :
  count (is_emit on_close) (log (run sts (new_watcher paths build)))
  = match state (run sts (new_watcher paths build)) with
    | closed => 1
    | _ => 0
    end.
Proof.
  apply closed_once_run. split.
  - destruct build as [[c q r]|]; [|reflexivity].
    destruct q, r; reflexivity.
  - intros Hc. destruct build as [[c q r]|]; [|discriminate].
    destruct q, r; discriminate.
Qed.

End WatcherLaws.
